(** * Block graph engine of the context library: hashing, views, forks,
      query merging, compaction provenance and Gemini role alternation.

    A shallow embedding of the TypeScript sources.  JavaScript values are
    modelled by the type [json]; objects keep their property enumeration
    order, so that [JSON.stringify] can be followed character by character.
    The two services the sources take from the host platform, the SHA-256
    digest of [crypto] and [String.prototype.localeCompare], are the fields
    of the class [Host]; an executable instance, with SHA-256 written out
    after FIPS 180-4 and the root collation written out for the ASCII
    range, is given in [NodeHost]. *)

From Stdlib Require Import ZArith List String Ascii Bool Lia.
From Stdlib Require Import Sorting.Sorted Sorting.Permutation.
From Stdlib Require Import Numbers.DecimalString.
Import ListNotations.

Local Open Scope string_scope.
Local Open Scope Z_scope.

Set Implicit Arguments.
Set Warnings "-register-all".


(* ================================================================== *)
(** * Host platform *)

Class Host := {
  (** [createHash('sha256').update(s).digest('hex')] *)
  sha256_hex : string -> string;
  (** [a.localeCompare(b)] *)
  localeCompare : string -> string -> Z
}.

(* ================================================================== *)
(** * JavaScript values *)

(** Numbers are restricted to integers.  [JUndefined] is the value of a
    missing property.  A [JObj] lists the own enumerable properties in
    enumeration order. *)
Inductive json : Type :=
| JUndefined
| JNull
| JBool (b : bool)
| JNum (n : Z)
| JStr (s : string)
| JArr (xs : list json)
| JObj (kvs : list (string * json)).

Definition jobject := list (string * json).

(** Property read [o[k]]. *)
Fixpoint get (o : jobject) (k : string) : json :=
  match o with
  | [] => JUndefined
  | (k', v) :: o' => if String.eqb k k' then v else get o' k
  end.

(** [k in o] *)
Fixpoint hasKey (o : jobject) (k : string) : bool :=
  match o with
  | [] => false
  | (k', _) :: o' => String.eqb k k' || hasKey o' k
  end.

(** [Object.keys(o)] *)
Definition keys (o : jobject) : list string := List.map fst o.

Definition isUndefined (v : json) : bool :=
  match v with JUndefined => true | _ => false end.

(** [a ?? b] *)
Definition nullish (a b : json) : json :=
  match a with
  | JUndefined | JNull => b
  | _ => a
  end.

(** Truthiness of a value, as tested by [if (v)], [v || w] and [!v]. *)
Definition truthy (v : json) : bool :=
  match v with
  | JUndefined | JNull => false
  | JBool b => b
  | JNum n => negb (n =? 0)
  | JStr s => negb (String.eqb s EmptyString)
  | JArr _ | JObj _ => true
  end.

(** ** Property order of ordinary objects

    Own property keys that are array indices (canonical decimal numerals
    below 2^32 - 1) are enumerated first, in ascending numeric order; the
    other string keys follow in creation order. *)

Definition isDigit (c : ascii) : bool :=
  let n := nat_of_ascii c in (48 <=? n)%nat && (n <=? 57)%nat.

Fixpoint digitsValue (acc : N) (s : string) : option N :=
  match s with
  | EmptyString => Some acc
  | String c s' =>
      if isDigit c
      then digitsValue (acc * 10 + (N_of_ascii c - 48))%N s'
      else None
  end.

Definition arrayIndex (k : string) : option N :=
  match k with
  | EmptyString => None
  | String c rest =>
      if Ascii.eqb c "0"
      then match rest with EmptyString => Some 0%N | _ => None end
      else match digitsValue 0 k with
           | Some n => if (n <? 4294967295)%N then Some n else None
           | None => None
           end
  end.

(** Assignment [o[k] = v] to a key other than [__proto__]. *)
Fixpoint obj_put (o : jobject) (k : string) (v : json) : jobject :=
  match o with
  | [] => [(k, v)]
  | (k', v') :: o' =>
      if String.eqb k k' then (k, v) :: o'
      else
        match arrayIndex k, arrayIndex k' with
        | Some i, Some i' =>
            if (i <? i')%N then (k, v) :: (k', v') :: o'
            else (k', v') :: obj_put o' k v
        | Some _, None => (k, v) :: (k', v') :: o'
        | None, _ => (k', v') :: obj_put o' k v
        end
  end.

(** Assignment [o[k] = v] on an ordinary object.  Assigning to
    [__proto__] reaches the accessor of [Object.prototype] and creates no
    own property. *)
Definition obj_set (o : jobject) (k : string) (v : json) : jobject :=
  if String.eqb k "__proto__" then o else obj_put o k v.

(** A property defined by an object literal or copied by a spread: always
    an own property. *)
Definition obj_define (o : jobject) (k : string) (v : json) : jobject :=
  obj_put o k v.

(* ================================================================== *)
(** * [Array.prototype.sort]

    The sort is stable and only looks at the sign of the comparator's
    result.  It is modelled by a stable insertion sort; for a consistent
    comparator every stable sort returns the same array. *)

Section Sort.
Variable A : Type.
Variable cmp : A -> A -> Z.

Fixpoint insertBy (x : A) (l : list A) : list A :=
  match l with
  | [] => [x]
  | y :: l' => if cmp x y <=? 0 then x :: y :: l' else y :: insertBy x l'
  end.

Fixpoint sortBy (l : list A) : list A :=
  match l with
  | [] => []
  | x :: l' => insertBy x (sortBy l')
  end.
End Sort.

(* ================================================================== *)
(** * Strings

    A JavaScript string is a sequence of UTF-16 code units.  The model
    holds a string as the bytes of its UTF-8 form, the form that is
    hashed; a surrogate that is not half of a pair, which a JavaScript
    string may contain, is held in the three bytes of its code.
    [codeUnits] reads the code units of a string, and [fromCodeUnits] is
    the string of a sequence of code units: [length], [slice] and the
    order of [<] are defined on the code units.  The strings that the
    modelled code joins meet at an ASCII character, so that two halves of
    a pair are never put together by a concatenation. *)

Definition byte (c : ascii) : Z := Z.of_nat (nat_of_ascii c).
Definition char (n : Z) : ascii := ascii_of_nat (Z.to_nat n).

(** The code points of a string; a sequence that breaks off reads as
    U+FFFD. *)
Fixpoint codePoints (s : string) : list Z :=
  match s with
  | EmptyString => []
  | String c0 s0 =>
      let b0 := byte c0 in
      if b0 <? 128 then b0 :: codePoints s0
      else
        match s0 with
        | EmptyString => [65533]
        | String c1 s1 =>
            let b1 := byte c1 mod 64 in
            if b0 <? 224 then (b0 mod 32 * 64 + b1) :: codePoints s1
            else
              match s1 with
              | EmptyString => [65533]
              | String c2 s2 =>
                  let b2 := byte c2 mod 64 in
                  if b0 <? 240
                  then (b0 mod 16 * 4096 + b1 * 64 + b2) :: codePoints s2
                  else
                    match s2 with
                    | EmptyString => [65533]
                    | String c3 s3 =>
                        (b0 mod 8 * 262144 + b1 * 4096 + b2 * 64
                         + byte c3 mod 64) :: codePoints s3
                    end
              end
        end
  end.

(** The code units of one code point: itself, or a surrogate pair. *)
Definition utf16 (cp : Z) : list Z :=
  if cp <? 65536 then [cp]
  else [55296 + (cp - 65536) / 1024; 56320 + (cp - 65536) mod 1024].

Definition codeUnits (s : string) : list Z := flat_map utf16 (codePoints s).

(** The bytes of one code point. *)
Definition utf8 (cp : Z) : string :=
  if cp <? 128 then String (char cp) EmptyString
  else if cp <? 2048 then
    String (char (192 + cp / 64)) (String (char (128 + cp mod 64)) EmptyString)
  else if cp <? 65536 then
    String (char (224 + cp / 4096))
      (String (char (128 + cp / 64 mod 64))
         (String (char (128 + cp mod 64)) EmptyString))
  else
    String (char (240 + cp / 262144))
      (String (char (128 + cp / 4096 mod 64))
         (String (char (128 + cp / 64 mod 64))
            (String (char (128 + cp mod 64)) EmptyString))).

Definition isHighSurrogate (u : Z) : bool := (55296 <=? u) && (u <? 56320).
Definition isLowSurrogate (u : Z) : bool := (56320 <=? u) && (u <? 57344).

(** The string of a sequence of code units: a high surrogate followed by
    a low one is one code point. *)
Fixpoint fromCodeUnits (us : list Z) : string :=
  match us with
  | [] => EmptyString
  | u :: us' =>
      match us' with
      | v :: us'' =>
          if isHighSurrogate u && isLowSurrogate v
          then utf8 (65536 + (u - 55296) * 1024 + (v - 56320))
                 ++ fromCodeUnits us''
          else utf8 u ++ fromCodeUnits us'
      | [] => utf8 u
      end
  end.

(** [s.length] *)
Definition strLength (s : string) : Z := Z.of_nat (List.length (codeUnits s)).

(** The strings all of whose characters are in the ASCII range. *)
Definition isAscii (s : string) : bool :=
  forallb (fun c => byte c <? 128) (list_ascii_of_string s).

(** The bytes [crypto] hashes for a string: its UTF-8 form, in which
    U+FFFD stands for a surrogate that is not half of a pair. *)
Fixpoint utf8Bytes (s : string) : string :=
  match s with
  | EmptyString => EmptyString
  | String c0 s0 =>
      match s0 with
      | String c1 (String c2 s2) =>
          if (byte c0 =? 237) && (160 <=? byte c1)
          then utf8 65533 ++ utf8Bytes s2
          else String c0 (utf8Bytes s0)
      | _ => String c0 (utf8Bytes s0)
      end
  end.

Fixpoint lexCompare (a b : list Z) : comparison :=
  match a, b with
  | [], [] => Eq
  | [], _ :: _ => Lt
  | _ :: _, [] => Gt
  | x :: a', y :: b' =>
      match x ?= y with
      | Eq => lexCompare a' b'
      | c => c
      end
  end.

Definition signOf (c : comparison) : Z :=
  match c with
  | Lt => -1
  | Eq => 0
  | Gt => 1
  end.

(** Comparison of strings by code units, the order of [<] on strings and
    of [sort()] without a comparator.  Two sequences of bytes that are not
    the bytes of a string may read as the same code units; they are then
    ordered by their bytes, so that the comparison is a total order on all
    the values of the model. *)
Definition codeUnitOrder (a b : string) : comparison :=
  match lexCompare (codeUnits a) (codeUnits b) with
  | Eq => String.compare a b
  | c => c
  end.

Definition codeUnitCompare (a b : string) : Z := signOf (codeUnitOrder a b).

(** ** [String.prototype.localeCompare]

    The comparison of the default collator: the root collation of the
    CLDR, which English and the other locales that do not tailor it use,
    at its default strength.  It is written out for the ASCII range.
    The primary weights order white space, punctuation, symbols, the
    dollar sign, the digits and the letters, a letter having the weight of
    its lower-case form; the control characters other than white space
    have no weight and are passed over.  Strings with the same primary
    weights are ordered by the case of their letters, lower case first.
    Characters outside the ASCII range are placed after the letters in
    the order of their code points, which is not the place the collation
    gives to all of them. *)

(** The ASCII characters with a primary weight that are not letters, in
    the order of their weights. *)
Definition collationOrder : list Z :=
  [ 9; 10; 11; 12; 13; 32;
    95; 45; 44; 59; 58; 33; 63; 46; 39; 34; 40; 41; 91; 93; 123; 125;
    64; 42; 47; 92; 38; 35; 37;
    96; 94; 43; 60; 61; 62; 124; 126;
    36;
    48; 49; 50; 51; 52; 53; 54; 55; 56; 57 ].

Fixpoint indexOf (x : Z) (l : list Z) (i : Z) : option Z :=
  match l with
  | [] => None
  | y :: l' => if x =? y then Some i else indexOf x l' (i + 1)
  end.

Definition isUpperCase (cp : Z) : bool := (65 <=? cp) && (cp <=? 90).
Definition isLowerCase (cp : Z) : bool := (97 <=? cp) && (cp <=? 122).

Definition primaryWeight (cp : Z) : option Z :=
  if isLowerCase cp then Some (100 + (cp - 97))
  else if isUpperCase cp then Some (100 + (cp - 65))
  else if cp <? 128 then indexOf cp collationOrder 1
  else Some (200 + cp).

Definition tertiaryWeight (cp : Z) : Z := if isUpperCase cp then 1 else 0.

(** The code points of a string that have a weight. *)
Definition weighted (s : string) : list Z :=
  List.filter
    (fun cp => match primaryWeight cp with Some _ => true | None => false end)
    (codePoints s).

Definition primaryKey (s : string) : list Z :=
  List.map (fun cp => match primaryWeight cp with Some w => w | None => 0 end)
    (weighted s).

Definition tertiaryKey (s : string) : list Z :=
  List.map tertiaryWeight (weighted s).

Definition collationCompare (a b : string) : Z :=
  signOf (match lexCompare (primaryKey a) (primaryKey b) with
          | Eq => lexCompare (tertiaryKey a) (tertiaryKey b)
          | c => c
          end).

(** Block hashes are digests: 64 lower-case hexadecimal digits. *)
Definition isLowerHex (c : ascii) : bool :=
  let n := nat_of_ascii c in
  ((48 <=? n)%nat && (n <=? 57)%nat) || ((97 <=? n)%nat && (n <=? 102)%nat).

Definition isHexDigest (s : string) : bool :=
  (String.length s =? 64)%nat && forallb isLowerHex (list_ascii_of_string s).

(* ================================================================== *)
(** * [JSON.stringify] *)

Definition Z_to_string (n : Z) : string :=
  NilZero.string_of_int (Z.to_int n).

(** ** [Number::toString] on integers

    A number of the model is an integer, and stands for the Number value
    nearest to it.  The decimal digits printed for a Number value are the
    fewest that read back as the same value; from 10^21 on they are
    printed with an exponent. *)

(** The Number value nearest to a positive integer: 53 significant bits,
    ties to the even significand. *)
Definition roundToDouble (m : Z) : Z :=
  let e := Z.log2 m in
  if e <? 53 then m
  else
    let q := 2 ^ (e - 52) in
    let lo := m / q * q in
    let r := m - lo in
    if 2 * r <? q then lo
    else if q <? 2 * r then lo + q
    else if Z.even (m / q) then lo else lo + q.

(** Number of decimal digits of a positive integer. *)
Fixpoint digitCount (fuel : nat) (m : Z) : Z :=
  match fuel with
  | O => 0
  | S fuel' => if m <? 10 then 1 else 1 + digitCount fuel' (m / 10)
  end.

(** The integers [s] and [n] of [Number::toString] for the Number value
    [x] of [d] decimal digits: [s] has the fewest digits [k] such that
    [s * 10 ^ (n - k)] reads back as [x], and is the nearest to [x] of
    those, the even one of two.  The search starts at [k] digits. *)
Fixpoint shortestDigits (fuel : nat) (x d k : Z) : Z * Z :=
  match fuel with
  | O => (x, d)
  | S fuel' =>
      let j := d - k in
      let p := 10 ^ j in
      let lo := x / p in
      let okLo := (10 ^ (k - 1) <=? lo) && (roundToDouble (lo * p) =? x) in
      let okHi := roundToDouble ((lo + 1) * p) =? x in
      let hi := if lo + 1 =? 10 ^ k then (1, d + 1) else (lo + 1, d) in
      if okLo && okHi then
        let dLo := x - lo * p in
        let dHi := (lo + 1) * p - x in
        if dLo <? dHi then (lo, d)
        else if dHi <? dLo then hi
        else if Z.even lo then (lo, d) else hi
      else if okLo then (lo, d)
      else if okHi then hi
      else shortestDigits fuel' x d (k + 1)
  end.

Fixpoint zeros (n : nat) : string :=
  match n with
  | O => EmptyString
  | S n' => String "0" (zeros n')
  end.

(** [Number::toString] on a positive integer.  Below 2^53 every integer
    is a Number value and all its digits are printed. *)
Definition positiveToString (m : Z) : string :=
  if m <? 9007199254740992 then Z_to_string m
  else
    let x := roundToDouble m in
    let d := digitCount (Z.to_nat (Z.log2 x) + 1) x in
    let '(s, n) := shortestDigits 18 x d 1 in
    let digits := Z_to_string s in
    let k := Z.of_nat (String.length digits) in
    if n <=? 21 then digits ++ zeros (Z.to_nat (n - k))
    else
      match digits with
      | String c EmptyString => String c ("e+" ++ Z_to_string (n - 1))
      | String c rest =>
          String c ("." ++ rest ++ "e+" ++ Z_to_string (n - 1))
      | EmptyString => EmptyString
      end.

(** [Number::toString] on an integer; [None] when the nearest Number
    value is an infinity. *)
Definition numberToString (n : Z) : option string :=
  if (Z.log2 (Z.abs n) <? 1023) || (Z.abs n <? 2 ^ 1024 - 2 ^ 970) then
    Some (if n <? 0 then "-" ++ positiveToString (- n) else positiveToString n)
  else None.

Arguments numberToString n : simpl never.

Definition hexDigit (n : Z) : ascii :=
  ascii_of_nat (Z.to_nat (if n <? 10 then 48 + n else 87 + n)).

Definition str1 (c : ascii) : string := String c EmptyString.

(** The double quote character. *)
Definition dquote : ascii := "034"%char.

(** Escape of one character inside a JSON string literal. *)
Definition escapeChar (c : ascii) : string :=
  let n := Z.of_nat (nat_of_ascii c) in
  if n =? 34 then String "\"%char (str1 dquote)
  else if n =? 92 then "\\"
  else if n =? 8 then "\b"
  else if n =? 9 then "\t"
  else if n =? 10 then "\n"
  else if n =? 12 then "\f"
  else if n =? 13 then "\r"
  else if n <? 32 then
    "\u00" ++ String (hexDigit (n / 16)) (str1 (hexDigit (n mod 16)))
  else str1 c.

(** The escape [\udXXX] of a surrogate. *)
Definition escapeSurrogate (u : Z) : string :=
  "\u" ++ String (hexDigit (u / 4096))
            (String (hexDigit (u / 256 mod 16))
               (String (hexDigit (u / 16 mod 16)) (str1 (hexDigit (u mod 16))))).

(** The characters of a string literal: a surrogate that is not half of a
    pair is escaped, the other characters are written as [escapeChar]
    says. *)
Fixpoint escapeString (s : string) : string :=
  match s with
  | EmptyString => EmptyString
  | String c s' =>
      match s' with
      | String c1 (String c2 s'') =>
          if (byte c =? 237) && (160 <=? byte c1)
          then escapeSurrogate (53248 + byte c1 mod 64 * 64 + byte c2 mod 64)
                 ++ escapeString s''
          else escapeChar c ++ escapeString s'
      | _ => escapeChar c ++ escapeString s'
      end
  end.
Arguments escapeString s : simpl never.

Definition quote (s : string) : string :=
  str1 dquote ++ escapeString s ++ str1 dquote.

Fixpoint joinWith (sep : string) (l : list string) : string :=
  match l with
  | [] => EmptyString
  | [x] => x
  | x :: l' => x ++ sep ++ joinWith sep l'
  end.

(** Serialisation of a value.  Inside an array [undefined] is printed as
    [null]; a property whose value is [undefined] is left out; an infinity
    is printed as [null]. *)
Fixpoint serialize (v : json) : string :=
  match v with
  | JUndefined => "null"
  | JNull => "null"
  | JBool true => "true"
  | JBool false => "false"
  | JNum n => match numberToString n with Some t => t | None => "null" end
  | JStr s => quote s
  | JArr xs => "[" ++ joinWith "," (List.map serialize xs) ++ "]"
  | JObj kvs =>
      "{" ++
      joinWith ","
        (List.flat_map
           (fun kv =>
              if isUndefined (snd kv) then []
              else [quote (fst kv) ++ ":" ++ serialize (snd kv)]) kvs)
      ++ "}"
  end.

(** [JSON.stringify(v)]: [undefined] at top level has no serialisation. *)
Definition JSON_stringify (v : json) : option string :=
  match v with
  | JUndefined => None
  | _ => Some (serialize v)
  end.

(* ================================================================== *)
(** * SHA-256 (FIPS 180-4) over byte strings *)

Module SHA256.

Definition w32 (x : Z) : Z := x mod 4294967296.
Definition add32 (x y : Z) : Z := w32 (x + y).
Definition rotr (n x : Z) : Z :=
  Z.lor (Z.shiftr x n) (w32 (Z.shiftl x (32 - n))).
Definition shr (n x : Z) : Z := Z.shiftr x n.
Definition not32 (x : Z) : Z := Z.lxor x 4294967295.

Definition Ch (x y z : Z) : Z :=
  Z.lxor (Z.land x y) (Z.land (not32 x) z).
Definition Maj (x y z : Z) : Z :=
  Z.lxor (Z.lxor (Z.land x y) (Z.land x z)) (Z.land y z).
Definition bigSigma0 (x : Z) : Z :=
  Z.lxor (Z.lxor (rotr 2 x) (rotr 13 x)) (rotr 22 x).
Definition bigSigma1 (x : Z) : Z :=
  Z.lxor (Z.lxor (rotr 6 x) (rotr 11 x)) (rotr 25 x).
Definition smallSigma0 (x : Z) : Z :=
  Z.lxor (Z.lxor (rotr 7 x) (rotr 18 x)) (shr 3 x).
Definition smallSigma1 (x : Z) : Z :=
  Z.lxor (Z.lxor (rotr 17 x) (rotr 19 x)) (shr 10 x).

(** Integer cube root by bisection on [lo, hi). *)
Fixpoint cbrtSearch (fuel : nat) (n lo hi : Z) : Z :=
  match fuel with
  | O => lo
  | S fuel' =>
      if hi - lo <=? 1 then lo
      else
        let mid := (lo + hi) / 2 in
        if mid * mid * mid <=? n
        then cbrtSearch fuel' n mid hi
        else cbrtSearch fuel' n lo mid
  end.

Definition primes64 : list Z :=
  [2; 3; 5; 7; 11; 13; 17; 19; 23; 29; 31; 37; 41; 43; 47; 53;
   59; 61; 67; 71; 73; 79; 83; 89; 97; 101; 103; 107; 109; 113; 127; 131;
   137; 139; 149; 151; 157; 163; 167; 173; 179; 181; 191; 193; 197; 199;
   211; 223; 227; 229; 233; 239; 241; 251; 257; 263; 269; 271; 277; 281;
   283; 293; 307; 311].

(** Round constants: the first 32 bits of the fractional parts of the
    cube roots of the first 64 primes. *)
Definition K : list Z :=
  Eval vm_compute in
    List.map (fun p => w32 (cbrtSearch 200 (p * 2 ^ 96) 0 (2 ^ 40)))
      primes64.

(** Initial hash value: the first 32 bits of the fractional parts of the
    square roots of the first 8 primes. *)
Definition H0 : list Z :=
  Eval vm_compute in
    List.map (fun p => w32 (Z.sqrt (p * 2 ^ 64))) (firstn 8 primes64).

Definition bytesOf (s : string) : list Z :=
  List.map (fun c => Z.of_nat (nat_of_ascii c)) (list_ascii_of_string s).

Definition bigEndian (n : nat) (x : Z) : list Z :=
  List.map (fun i => Z.shiftr x (8 * Z.of_nat i) mod 256) (rev (seq 0 n)).

(** Padding to a multiple of 64 bytes: 0x80, zeros, 64-bit bit length. *)
Definition pad (msg : list Z) : list Z :=
  let len := Z.of_nat (List.length msg) in
  let zeros := Z.to_nat ((55 - len) mod 64) in
  msg ++ [128] ++ repeat 0 zeros ++ bigEndian 8 (8 * len).

Fixpoint wordsOf (n : nat) (bs : list Z) : list Z :=
  match n with
  | O => []
  | S n' =>
      match bs with
      | b0 :: b1 :: b2 :: b3 :: rest =>
          (b0 * 16777216 + b1 * 65536 + b2 * 256 + b3) :: wordsOf n' rest
      | _ => []
      end
  end.

(** Message schedule, kept newest first. *)
Fixpoint extend (n : nat) (rw : list Z) : list Z :=
  match n with
  | O => rw
  | S n' =>
      let wt :=
        add32 (add32 (smallSigma1 (nth 1 rw 0)) (nth 6 rw 0))
              (add32 (smallSigma0 (nth 14 rw 0)) (nth 15 rw 0)) in
      extend n' (wt :: rw)
  end.

Definition schedule (block : list Z) : list Z :=
  rev (extend 48 (rev (wordsOf 16 block))).

Definition round (st : list Z) (kw : Z * Z) : list Z :=
  match st with
  | [a; b; c; d; e; f; g; h] =>
      let t1 :=
        add32 (add32 (add32 (add32 h (bigSigma1 e)) (Ch e f g)) (fst kw))
              (snd kw) in
      let t2 := add32 (bigSigma0 a) (Maj a b c) in
      [add32 t1 t2; a; b; c; add32 d t1; e; f; g]
  | _ => st
  end.

Definition compress (st block : list Z) : list Z :=
  List.map (fun p => add32 (fst p) (snd p))
    (combine st (fold_left round (combine K (schedule block)) st)).

Fixpoint blocks (fuel : nat) (st bs : list Z) : list Z :=
  match fuel with
  | O => st
  | S fuel' =>
      match bs with
      | [] => st
      | _ => blocks fuel' (compress st (firstn 64 bs)) (skipn 64 bs)
      end
  end.

Definition hexByte (b : Z) : string :=
  String (hexDigit (b / 16)) (str1 (hexDigit (b mod 16))).

Definition digestHex (s : string) : string :=
  let bs := pad (bytesOf s) in
  let st := blocks (List.length bs) H0 bs in
  String.concat EmptyString
    (List.map hexByte (List.flat_map (bigEndian 4) st)).

End SHA256.

(** The executable host: SHA-256 as above, of the UTF-8 form of the
    string, and [localeCompare] as the comparison of the root collation. *)
#[local] Instance NodeHost : Host := {
  sha256_hex := fun s => SHA256.digestHex (utf8Bytes s);
  localeCompare := collationCompare
}.

(* ================================================================== *)
(** * Exceptions *)

Inductive result (A : Type) : Type :=
| Ok (a : A)
| Throw (msg : string).
Arguments Ok {A} a.
Arguments Throw {A} msg.

Definition bind {A B : Type} (r : result A) (f : A -> result B) : result B :=
  match r with
  | Ok a => f a
  | Throw e => Throw e
  end.

Notation "'let*' x ':=' r 'in' k" := (bind r (fun x => k))
  (at level 10, x name, r at level 100, k at level 200).

Fixpoint mapM {A B : Type} (f : A -> result B) (l : list A)
  : result (list B) :=
  match l with
  | [] => Ok []
  | x :: l' => let* y := f x in let* ys := mapM f l' in Ok (y :: ys)
  end.

(** Property read [v.k] on an arbitrary value: a [TypeError] on [null]
    and [undefined].  None of the property names read by the modelled code
    is inherited by strings, numbers, booleans or arrays, so the read gives
    [undefined] on those. *)
Definition prop (v : json) (k : string) : result json :=
  match v with
  | JUndefined | JNull => Throw "TypeError: Cannot read properties"
  | JObj o => Ok (get o k)
  | _ => Ok JUndefined
  end.

(* ================================================================== *)
(** * Block data model ([types/block.ts]) *)

Inductive BlockKind : Type :=
| pinned | reference | memory | state | tool_output | history | turn.

Inductive SensitivityLevel : Type :=
| public | internal | restricted.

Definition BlockKind_eqb (a b : BlockKind) : bool :=
  match a, b with
  | pinned, pinned | reference, reference | memory, memory
  | state, state | tool_output, tool_output | history, history
  | turn, turn => true
  | _, _ => false
  end.

Definition kindName (k : BlockKind) : string :=
  match k with
  | pinned => "pinned"
  | reference => "reference"
  | memory => "memory"
  | state => "state"
  | tool_output => "tool_output"
  | history => "history"
  | turn => "turn"
  end.

Definition sensitivityName (s : SensitivityLevel) : string :=
  match s with
  | public => "public"
  | internal => "internal"
  | restricted => "restricted"
  end.

Record BlockMeta : Type := {
  kind : BlockKind;
  sensitivity : SensitivityLevel;
  codecId : string;
  codecVersion : string;
  createdAt : Z;
  source : option string;
  tags : option (list string)
}.

Record ContextBlock : Type := {
  blockHash : string;
  meta : BlockMeta;
  payload : json
}.

Record BlockRef : Type := { refHash : string }.

(** ** Codecs ([types/codec.ts]): what hashing and the Gemini compiler
    use of a codec. *)
Record BlockCodec : Type := {
  codec_codecId : string;
  codec_version : string;
  canonicalize : json -> result json;
  (** the [gemini] field of [render(block)] *)
  renderGemini : ContextBlock -> result json
}.

(* ================================================================== *)
(** * Hashing ([types/hash.ts]) *)

(** The first argument of [computeBlockHash] has type
    [BlockMeta | StableMetaSubset].  A full [BlockMeta] always owns
    [createdAt]; any other object is given as the caller built it, with its
    own key order. *)
Inductive MetaArg : Type :=
| FullMeta (m : BlockMeta)
| SubsetMeta (o : jobject).

(** [extractStableMetaSubset]: a fresh object, keys in this order. *)
Definition extractStableMetaSubset (m : BlockMeta) : jobject :=
  [ ("kind", JStr (kindName (kind m)));
    ("sensitivity", JStr (sensitivityName (sensitivity m)));
    ("codecId", JStr (codecId m));
    ("codecVersion", JStr (codecVersion m)) ].

(** [extractStableMetaSubset] read on an object. *)
Definition extractStableMetaSubsetObj (o : jobject) : jobject :=
  [ ("kind", get o "kind");
    ("sensitivity", get o "sensitivity");
    ("codecId", get o "codecId");
    ("codecVersion", get o "codecVersion") ].

(** ['createdAt' in meta ? extractStableMetaSubset(meta) : meta] *)
Definition stableMetaOf (m : MetaArg) : jobject :=
  match m with
  | FullMeta bm => extractStableMetaSubset bm
  | SubsetMeta o =>
      if hasKey o "createdAt" then extractStableMetaSubsetObj o else o
  end.

(** The object [combined] whose serialisation is hashed. *)
Definition hashedObject (m : MetaArg) (p : json) (codec : option BlockCodec)
  : result json :=
  let stableMeta := stableMetaOf m in
  let* canonicalized :=
    match codec with
    | Some c => canonicalize c p
    | None => Ok p
    end in
  Ok (JObj [("meta", JObj stableMeta); ("payload", canonicalized)]).

Definition computeBlockHash `{Host} (m : MetaArg) (p : json)
    (codec : option BlockCodec) : result string :=
  let* combined := hashedObject m p codec in
  Ok (sha256_hex (serialize combined)).

(* ================================================================== *)
(** * Base codec utilities ([codecs/base.ts]) *)

(** [Object.keys(obj).sort()] *)
Definition sortedKeys (o : jobject) : list string :=
  sortBy codeUnitCompare (keys o).

(** The loop of [sortObjectKeys] once the values to store are known:
    [vals] maps each key to the value assigned to [sorted[key]]. *)
Definition assignSorted (vals : jobject) : jobject :=
  fold_left (fun sorted key => obj_set sorted key (get vals key))
    (sortedKeys vals) [].

(** [sortObjectKeys].  The body stores, for every own key taken in sorted
    order, [sortObjectKeys(obj[key])] when [obj[key]] is an object that is
    neither [null] nor an array, and [obj[key]] itself otherwise.  The value
    to store depends on the property alone, so it is computed for every
    property first ([sortNested]) and the loop then runs over the sorted
    keys ([assignSorted]). *)
Fixpoint sortNested (v : json) : json :=
  match v with
  | JObj o =>
      JObj (assignSorted
              (List.map (fun kv => (fst kv, sortNested (snd kv))) o))
  | _ => v
  end.

Definition sortObjectKeys (o : jobject) : jobject :=
  assignSorted (List.map (fun kv => (fst kv, sortNested (snd kv))) o).

(* ================================================================== *)
(** * Sorting with a throwing comparator *)

(** [sort] with a comparator that may throw: the exception leaves the sort. *)
Section SortM.
Variable A : Type.
Variable cmpM : A -> A -> result Z.

Fixpoint insertByM (x : A) (l : list A) : result (list A) :=
  match l with
  | [] => Ok [x]
  | y :: l' =>
      let* c := cmpM x y in
      if c <=? 0 then Ok (x :: y :: l')
      else let* r := insertByM x l' in Ok (y :: r)
  end.

Fixpoint sortByM (l : list A) : result (list A) :=
  match l with
  | [] => Ok []
  | x :: l' => let* r := sortByM l' in insertByM x r
  end.
End SortM.

(* ================================================================== *)
(** * Kind order ([graph/kind-order.ts]) *)

Definition KIND_ORDER : list BlockKind :=
  [pinned; reference; memory; state; tool_output; history; turn].

(** [arr.indexOf(k)], counting from [i]. *)
Fixpoint indexOfFrom (i : Z) (k : BlockKind) (arr : list BlockKind) : Z :=
  match arr with
  | [] => -1
  | x :: arr' => if BlockKind_eqb x k then i else indexOfFrom (i + 1) k arr'
  end.

Definition getKindIndex (k : BlockKind) : Z := indexOfFrom 0 k KIND_ORDER.

Definition compareKinds (a b : BlockKind) : result Z :=
  let indexA := getKindIndex a in
  let indexB := getKindIndex b in
  if indexA =? -1 then Throw ("Invalid block kind: " ++ kindName a)
  else if indexB =? -1 then Throw ("Invalid block kind: " ++ kindName b)
  else Ok (indexA - indexB).

(* ================================================================== *)
(** * Insertion-ordered maps ([Map<string, V>]) *)

Section JsMap.
Variable V : Type.

Definition jsmap := list (string * V).

Fixpoint map_get (m : jsmap) (k : string) : option V :=
  match m with
  | [] => None
  | (k', v) :: m' => if String.eqb k k' then Some v else map_get m' k
  end.

Definition map_has (m : jsmap) (k : string) : bool :=
  match map_get m k with Some _ => true | None => false end.

(** [m.set(k, v)]: an existing key keeps its place. *)
Fixpoint map_set (m : jsmap) (k : string) (v : V) : jsmap :=
  match m with
  | [] => [(k, v)]
  | (k', v') :: m' =>
      if String.eqb k k' then (k, v) :: m' else (k', v') :: map_set m' k v
  end.

Definition map_delete (m : jsmap) (k : string) : jsmap :=
  List.filter (fun kv => negb (String.eqb k (fst kv))) m.

Definition map_values (m : jsmap) : list V := List.map snd m.
End JsMap.

(* ================================================================== *)
(** * Queries ([graph/queries.ts]), graph ([graph/context-graph.ts]) *)

Record BlockQuery : Type := {
  q_kinds : option (list BlockKind);
  q_tags : option (list string);
  q_minSensitivity : option SensitivityLevel;
  q_maxSensitivity : option SensitivityLevel;
  q_source : option string;
  q_minCreatedAt : option Z;
  q_maxCreatedAt : option Z;
  q_derivedFromAny : option (list string);
  q_notDerivedFromAny : option (list string);
  q_referencesAny : option (list string);
  q_excludeHashes : option (list string);
  q_maxTokens : option Z
}.

Record ContextGraph : Type := {
  g_blocks : jsmap ContextBlock;
  g_derivedFrom : jsmap (list BlockRef);
  g_references : jsmap (list string)
}.

Definition emptyGraph : ContextGraph :=
  {| g_blocks := []; g_derivedFrom := []; g_references := [] |}.

Definition nonEmpty {A : Type} (l : option (list A)) : option (list A) :=
  match l with
  | Some (x :: l') => Some (x :: l')
  | _ => None
  end.

Definition addBlock (g : ContextGraph) (block : ContextBlock)
    (derivedFrom : option (list BlockRef)) (references : option (list string))
  : ContextGraph :=
  if map_has (g_blocks g) (blockHash block) then g
  else
    {| g_blocks := map_set (g_blocks g) (blockHash block) block;
       g_derivedFrom :=
         match nonEmpty derivedFrom with
         | Some d => map_set (g_derivedFrom g) (blockHash block) d
         | None => g_derivedFrom g
         end;
       g_references :=
         match nonEmpty references with
         | Some r => map_set (g_references g) (blockHash block) r
         | None => g_references g
         end |}.

(** [removeBlock]: the new graph and the returned flag. *)
Definition removeBlock (g : ContextGraph) (h : string) : ContextGraph * bool :=
  ({| g_blocks := map_delete (g_blocks g) h;
      g_derivedFrom := map_delete (g_derivedFrom g) h;
      g_references := map_delete (g_references g) h |},
   map_has (g_blocks g) h).

Definition getAllBlocks (g : ContextGraph) : list ContextBlock :=
  map_values (g_blocks g).

Definition getDerivedFrom (g : ContextGraph) (h : string) : list BlockRef :=
  match map_get (g_derivedFrom g) h with Some l => l | None => [] end.

Definition getReferences (g : ContextGraph) (h : string) : list string :=
  match map_get (g_references g) h with Some l => l | None => [] end.

Definition SENSITIVITY_ORDER (s : SensitivityLevel) : Z :=
  match s with
  | public => 0
  | internal => 1
  | restricted => 2
  end.

Definition compareSensitivity (a b : SensitivityLevel) : Z :=
  SENSITIVITY_ORDER a - SENSITIVITY_ORDER b.

Definition strIn (x : string) (l : list string) : bool :=
  existsb (String.eqb x) l.

Definition kindIn (x : BlockKind) (l : list BlockKind) : bool :=
  existsb (BlockKind_eqb x) l.

Definition optStrEqb (a b : option string) : bool :=
  match a, b with
  | Some x, Some y => String.eqb x y
  | None, None => true
  | _, _ => false
  end.

(** One criterion of [matchesQuery]: [true] when the block is rejected. *)
Definition rejects {A : Type} (criterion : option A) (bad : A -> bool) : bool :=
  match criterion with
  | Some c => bad c
  | None => false
  end.

Definition matchesQuery (block : ContextBlock) (query : BlockQuery)
    (graph : ContextGraph) : bool :=
  let m := meta block in
  let parentHashes := List.map refHash (getDerivedFrom graph (blockHash block)) in
  let refSet := getReferences graph (blockHash block) in
  if rejects (nonEmpty (q_kinds query)) (fun ks => negb (kindIn (kind m) ks))
  then false
  else if rejects (nonEmpty (q_tags query))
            (fun ts =>
               let blockTags := match tags m with Some l => l | None => [] end in
               negb (forallb (fun tag => strIn tag blockTags) ts))
  then false
  else if rejects (q_minSensitivity query)
            (fun s => compareSensitivity (sensitivity m) s <? 0)
  then false
  else if rejects (q_maxSensitivity query)
            (fun s => compareSensitivity (sensitivity m) s >? 0)
  then false
  else if rejects (q_source query)
            (fun s => negb (optStrEqb (source m) (Some s)))
  then false
  else if rejects (q_minCreatedAt query) (fun t => createdAt m <? t)
  then false
  else if rejects (q_maxCreatedAt query) (fun t => createdAt m >? t)
  then false
  else if rejects (nonEmpty (q_derivedFromAny query))
            (fun hs => negb (existsb (fun h => strIn h parentHashes) hs))
  then false
  else if rejects (nonEmpty (q_notDerivedFromAny query))
            (fun hs => existsb (fun h => strIn h parentHashes) hs)
  then false
  else if rejects (nonEmpty (q_referencesAny query))
            (fun hs => negb (existsb (fun h => strIn h refSet) hs))
  then false
  else if rejects (nonEmpty (q_excludeHashes query))
            (fun hs => strIn (blockHash block) hs)
  then false
  else true.

Definition emptyQuery : BlockQuery :=
  {| q_kinds := None; q_tags := None; q_minSensitivity := None;
     q_maxSensitivity := None; q_source := None; q_minCreatedAt := None;
     q_maxCreatedAt := None; q_derivedFromAny := None;
     q_notDerivedFromAny := None; q_referencesAny := None;
     q_excludeHashes := None; q_maxTokens := None |}.

(** [select]: the matching blocks, in the map's order. *)
Definition select (g : ContextGraph) (query : BlockQuery) : list ContextBlock :=
  List.filter (fun block => matchesQuery block query g) (getAllBlocks g).

(** Merge of an optional bound: the first one is taken, a later one
    replaces it when [better later current] holds. *)
Definition mergeBound {A : Type} (better : A -> A -> bool)
    (current later : option A) : option A :=
  match later with
  | Some x =>
      match current with
      | None => Some x
      | Some c => if better x c then Some x else Some c
      end
  | None => current
  end.

(** [[...(merged.f ?? []), ...query.f]] when [query.f] is present. *)
Definition mergeConcat {A : Type} (current later : option (list A))
  : option (list A) :=
  match later with
  | Some l => Some ((match current with Some c => c | None => [] end) ++ l)%list
  | None => current
  end.

(** Two sources that are both set and differ. *)
Definition sourceConflict (current later : option string) : bool :=
  match later, current with
  | Some s, Some ms => negb (String.eqb ms s)
  | _, _ => false
  end.

(** One iteration of the loop of [mergeQueries]. *)
Definition mergeStep (merged query : BlockQuery) : BlockQuery :=
  let kinds1 :=
    match q_kinds query with
    | Some qk =>
        match q_kinds merged with
        | Some mk => Some (List.filter (fun k => kindIn k mk) qk)
        | None => Some qk
        end
    | None => q_kinds merged
    end in
  let conflict := sourceConflict (q_source merged) (q_source query) in
  {| q_kinds := if conflict then Some [] else kinds1;
     q_tags := mergeConcat (q_tags merged) (q_tags query);
     q_minSensitivity :=
       mergeBound (fun x c => compareSensitivity x c >? 0)
         (q_minSensitivity merged) (q_minSensitivity query);
     q_maxSensitivity :=
       mergeBound (fun x c => compareSensitivity x c <? 0)
         (q_maxSensitivity merged) (q_maxSensitivity query);
     q_source :=
       match q_source query with
       | Some s => if conflict then q_source merged else Some s
       | None => q_source merged
       end;
     q_minCreatedAt :=
       mergeBound (fun x c => x >? c)
         (q_minCreatedAt merged) (q_minCreatedAt query);
     q_maxCreatedAt :=
       mergeBound (fun x c => x <? c)
         (q_maxCreatedAt merged) (q_maxCreatedAt query);
     q_derivedFromAny :=
       mergeConcat (q_derivedFromAny merged) (q_derivedFromAny query);
     q_notDerivedFromAny :=
       mergeConcat (q_notDerivedFromAny merged) (q_notDerivedFromAny query);
     q_referencesAny :=
       mergeConcat (q_referencesAny merged) (q_referencesAny query);
     q_excludeHashes :=
       mergeConcat (q_excludeHashes merged) (q_excludeHashes query);
     q_maxTokens :=
       mergeBound (fun x c => x <? c) (q_maxTokens merged) (q_maxTokens query)
  |}.

Definition mergeQueries (queries : list BlockQuery) : BlockQuery :=
  fold_left mergeStep queries emptyQuery.

(* ================================================================== *)
(** * Views ([graph/views.ts]) *)

Inductive Confidence : Type := exact | high | low.

Record TokenEstimate : Type := {
  tokens : Z;
  confidence : Confidence
}.

(** The estimator is awaited call by call; a call is modelled by its
    result. *)
Record TokenEstimator : Type := {
  estimate : list ContextBlock -> TokenEstimate;
  estimateBlock : ContextBlock -> TokenEstimate
}.

Record ViewOptions : Type := {
  o_query : option BlockQuery;
  o_tokenEstimator : option TokenEstimator;
  o_maxTokens : option Z
}.

Record ViewTokenEstimate : Type := {
  v_tokens : Z;
  v_confidence : Confidence;
  truncated : bool
}.

Record ContextView : Type := {
  blocks : list ContextBlock;
  tokenEstimate : option ViewTokenEstimate;
  stablePrefixHash : string;
  v_createdAt : Z
}.

Section Views.
Context `{Host}.

Definition blockCompare (a b : ContextBlock) : result Z :=
  let* kindCmp := compareKinds (kind (meta a)) (kind (meta b)) in
  if negb (kindCmp =? 0) then Ok kindCmp
  else Ok (localeCompare (blockHash a) (blockHash b)).

Definition sortBlocksDeterministic (bs : list ContextBlock)
  : result (list ContextBlock) :=
  sortByM blockCompare bs.

Definition computeStablePrefixHash (bs : list ContextBlock) : string :=
  sha256_hex (joinWith "|" (List.map blockHash bs)).

(** The loop of [applyTokenBudget], from the state reached before the
    blocks [bs] that are still to be visited. *)
Fixpoint budgetLoop (estimator : TokenEstimator) (maxTokens : Z)
    (bs : list ContextBlock) (totalTokens : Z)
    (lowestConfidence : Confidence) (includedBlocks : list ContextBlock)
  : list ContextBlock * ViewTokenEstimate :=
  match bs with
  | [] =>
      (includedBlocks,
       {| v_tokens := totalTokens; v_confidence := lowestConfidence;
          truncated := false |})
  | block :: rest =>
      let blockEstimate := estimateBlock estimator block in
      let projectedTotal := totalTokens + tokens blockEstimate in
      if projectedTotal >? maxTokens then
        (includedBlocks,
         {| v_tokens := totalTokens; v_confidence := lowestConfidence;
            truncated := true |})
      else
        budgetLoop estimator maxTokens rest
          (totalTokens + tokens blockEstimate)
          (match confidence blockEstimate, lowestConfidence with
           | low, _ => low
           | high, exact => high
           | _, c => c
           end)
          (includedBlocks ++ [block])%list
  end.

Definition applyTokenBudget (bs : list ContextBlock)
    (estimator : TokenEstimator) (maxTokens : Z)
  : list ContextBlock * ViewTokenEstimate :=
  budgetLoop estimator maxTokens bs 0 exact [].

(** [createContextView]; [now] is the value of [Date.now()]. *)
Definition createContextView (graph : ContextGraph) (options : ViewOptions)
    (now : Z) : result ContextView :=
  let query := match o_query options with Some q => q | None => emptyQuery end in
  let* selectedBlocks := sortBlocksDeterministic (select graph query) in
  let '(selectedBlocks, tokenEstimate) :=
    match o_tokenEstimator options, o_maxTokens options with
    | Some estimator, Some maxTokens =>
        let r := applyTokenBudget selectedBlocks estimator maxTokens in
        (fst r, Some (snd r))
    | Some estimator, None =>
        let e := estimate estimator selectedBlocks in
        (selectedBlocks,
         Some {| v_tokens := tokens e; v_confidence := confidence e;
                 truncated := false |})
    | None, _ => (selectedBlocks, None)
    end in
  Ok {| blocks := selectedBlocks;
        tokenEstimate := tokenEstimate;
        stablePrefixHash := computeStablePrefixHash selectedBlocks;
        v_createdAt := now / 1000 |}.

(** [ContextGraph.createView] *)
Definition createView := createContextView.
End Views.

(* ================================================================== *)
(** * Built-in codecs used below *)

Definition asArray (v : json) : result (list json) :=
  match v with
  | JArr xs => Ok xs
  | _ => Throw "TypeError: not an array"
  end.

Definition textPart (text : json) : json := JObj [("text", text)].

(** The line feed character, as a string. *)
Definition newline : string := str1 "010"%char.

(** [codecs/redacted-stub.codec.ts] *)
Definition RedactedStubCodec : BlockCodec :=
  {| codec_codecId := "redacted-stub";
     codec_version := "1.0.0";
     canonicalize := fun payload =>
       let* originalBlockHash := prop payload "originalBlockHash" in
       let* reason := prop payload "reason" in
       let* placeholder := prop payload "placeholder" in
       Ok (JObj (sortObjectKeys
                   [ ("originalBlockHash", originalBlockHash);
                     ("reason", reason);
                     ("placeholder", nullish placeholder (JStr "[REDACTED]")) ]));
     renderGemini := fun block =>
       let* placeholder := prop (payload block) "placeholder" in
       let* reason := prop (payload block) "reason" in
       let text :=
         match nullish placeholder (JStr "[REDACTED]"), reason with
         | JStr p, JStr r => JStr (p ++ newline ++ newline ++ "*Reason: " ++ r ++ "*")
         | _, _ => JUndefined
         end in
       Ok (JObj [("role", JStr "user"); ("parts", JArr [textPart text])])
  |}.

(** [codecs/conversation-history.codec.ts] *)
Definition ConversationHistoryCodec : BlockCodec :=
  {| codec_codecId := "conversation-history";
     codec_version := "1.0.0";
     canonicalize := fun payload =>
       let* messages := prop payload "messages" in
       let* msgs := asArray messages in
       let* canonicalMessages :=
         mapM (fun msg =>
                 let* role := prop msg "role" in
                 let* content := prop msg "content" in
                 Ok (JObj [("role", role); ("content", content)])) msgs in
       let* summary := prop payload "summary" in
       Ok (JObj (sortObjectKeys
                   [ ("messages", JArr canonicalMessages);
                     ("summary", nullish summary JNull) ]));
     renderGemini := fun block =>
       let* messages := prop (payload block) "messages" in
       let* summary := prop (payload block) "summary" in
       let* msgs := asArray messages in
       let allMessages :=
         match summary with
         | JStr sm =>
             if truthy summary
             then JObj [("role", JStr "user");
                        ("content",
                         JStr ("**Earlier conversation (summary):**" ++ newline ++ sm))]
                  :: msgs
             else msgs
         | _ => msgs
         end in
       let* rendered :=
         mapM (fun msg =>
                 let* role := prop msg "role" in
                 let* content := prop msg "content" in
                 Ok (JObj
                       [ ("role",
                          match role with
                          | JStr "assistant" => JStr "model"
                          | _ => JStr "user"
                          end);
                         ("parts",
                          match content with
                          | JStr _ => JArr [textPart content]
                          | _ => content
                          end) ])) allMessages in
       Ok (JArr rendered)
  |}.

(** [codecs/tool-output.codec.ts] *)
Definition ToolOutputCodec : BlockCodec :=
  {| codec_codecId := "tool-output";
     codec_version := "1.0.0";
     canonicalize := fun payload =>
       let* toolName := prop payload "toolName" in
       let* toolCallId := prop payload "toolCallId" in
       let* output := prop payload "output" in
       Ok (JObj (sortObjectKeys
                   [ ("toolName", toolName);
                     ("toolCallId", toolCallId);
                     ("output", output) ]));
     renderGemini := fun block =>
       let* toolName := prop (payload block) "toolName" in
       let* output := prop (payload block) "output" in
       let* success := prop output "success" in
       let* response :=
         if truthy success then prop output "result"
         else let* error := prop output "error" in Ok (JObj [("error", error)]) in
       Ok (JObj
             [ ("role", JStr "user");
               ("parts",
                JArr [JObj [("functionResponse",
                             JObj [("name", toolName);
                                   ("response", response)])]]) ])
  |}.

(** The codecs of the library that are modelled here. *)
Definition modelledCodecs : list BlockCodec :=
  [RedactedStubCodec; ConversationHistoryCodec; ToolOutputCodec].

(* ================================================================== *)
(** * Fork ([builder/context-fork.ts]) *)

Record ModelRef : Type := { provider : string; model : string }.

Record ContextForkOptions : Type := {
  agentId : string;
  name : string;
  f_model : ModelRef;
  inheritQuery : option bool;
  includeHistory : option bool;
  includeState : option bool;
  f_maxSensitivity : option SensitivityLevel;
  budgetOverride : option Z
}.

Definition exceedsSensitivityLevel (level maxLevel : SensitivityLevel) : bool :=
  SENSITIVITY_ORDER level >? SENSITIVITY_ORDER maxLevel.

(** [!flag] for an optional boolean. *)
Definition notSet (flag : option bool) : bool :=
  match flag with
  | Some true => false
  | _ => true
  end.

Section Fork.
Context `{Host}.

(** [createRedactedStub]; [now] is the value of [Date.now()]. *)
Definition createRedactedStub (originalBlock : ContextBlock)
    (reason : string) (now : Z) : result ContextBlock :=
  let payload :=
    JObj [ ("originalBlockHash", JStr (blockHash originalBlock));
           ("reason", JStr reason);
           ("placeholder", JStr "[REDACTED - Sensitive content removed]") ] in
  let meta :=
    {| kind := kind (meta originalBlock);
       sensitivity := public;
       codecId := codec_codecId RedactedStubCodec;
       codecVersion := codec_version RedactedStubCodec;
       createdAt := now / 1000;
       source := source (meta originalBlock);
       tags := tags (meta originalBlock) |} in
  let* blockHash :=
    computeBlockHash (FullMeta meta) payload (Some RedactedStubCodec) in
  Ok {| blockHash := blockHash; meta := meta; payload := payload |}.

Definition redactionReason (lvl maxLvl : SensitivityLevel) : string :=
  "Sensitivity level '" ++ sensitivityName lvl ++ "' exceeds maximum '"
    ++ sensitivityName maxLvl ++ "'".

(** [filterBySensitivity]; the clock readings taken while the stubs are
    built are all [now]. *)
Definition filterBySensitivity (view : ContextView)
    (maxSensitivity : SensitivityLevel) (now : Z)
  : result (list ContextBlock) :=
  mapM (fun block =>
          if exceedsSensitivityLevel (sensitivity (meta block)) maxSensitivity
          then createRedactedStub block
                 (redactionReason (sensitivity (meta block)) maxSensitivity)
                 now
          else Ok block)
       (blocks view).

(** [ContextFork.createFork] on the parent view of the fork. *)
Definition createFork (parentView : ContextView)
    (options : ContextForkOptions) (now : Z) : result ContextView :=
  let maxSensitivity :=
    match f_maxSensitivity options with Some s => s | None => public end in
  let* filteredBlocks := filterBySensitivity parentView maxSensitivity now in
  let finalBlocks := filteredBlocks in
  let finalBlocks :=
    if notSet (includeHistory options)
    then List.filter
           (fun block => negb (BlockKind_eqb (kind (meta block)) history))
           finalBlocks
    else finalBlocks in
  let finalBlocks :=
    if notSet (includeState options)
    then List.filter
           (fun block => negb (BlockKind_eqb (kind (meta block)) state))
           finalBlocks
    else finalBlocks in
  Ok {| blocks := finalBlocks;
        stablePrefixHash :=
          sha256_hex (joinWith "|" (List.map blockHash finalBlocks));
        v_createdAt := now / 1000;
        tokenEstimate :=
          match budgetOverride options with
          | Some b =>
              if negb (b =? 0)
              then Some {| v_tokens := b; v_confidence := high;
                           truncated := false |}
              else tokenEstimate parentView
          | None => tokenEstimate parentView
          end |}.
End Fork.

(* ================================================================== *)
(** * Compactor ([pipeline/compactor.ts]) and summarizer
      ([pipeline/summarizer.ts]) *)

(** [arr.slice(start, end)] *)
Definition sliceIndex (len i : Z) : Z :=
  if i <? 0 then Z.max (len + i) 0 else Z.min i len.

Definition slice {A : Type} (arr : list A) (start : Z) (stop : option Z)
  : list A :=
  let len := Z.of_nat (List.length arr) in
  let from := sliceIndex len start in
  let to := match stop with Some e => sliceIndex len e | None => len end in
  firstn (Z.to_nat (to - from)) (skipn (Z.to_nat from) arr).

(** [text.slice(start)], a slice of the code units of the text. *)
Definition strSlice (text : string) (start : Z) : string :=
  fromCodeUnits (slice (codeUnits text) start None).

Definition truncateTail (text : string) (maxChars : Z) : string :=
  if strLength text <=? maxChars then text
  else
    let tail := strSlice text (- maxChars) in
    "... [truncated " ++ Z_to_string (strLength text - maxChars)
      ++ " chars] ..." ++ newline ++ tail.

Record ToolOutputPruningConfig : Type := {
  maxRawTailChars : Z;
  preserveErrorTail : bool;
  maxOutputsPerTool : Z
}.

Definition DEFAULT_TOOL_OUTPUT_PRUNING : ToolOutputPruningConfig :=
  {| maxRawTailChars := 500; preserveErrorTail := true;
     maxOutputsPerTool := 3 |}.

Definition orUnknown (source : option string) : string :=
  match source with Some s => s | None => "unknown" end.

Definition orEmpty {A : Type} (l : option (list A)) : list A :=
  match l with Some x => x | None => [] end.

Section Compactor.
Context `{Host}.

Definition createReplacementBlock (original : ContextBlock)
    (newPayload : json) (method version : string) : result ContextBlock :=
  let* blockHash :=
    computeBlockHash (FullMeta (meta original)) newPayload None in
  Ok {| blockHash := blockHash;
        meta :=
          {| kind := kind (meta original);
             sensitivity := sensitivity (meta original);
             codecId := codecId (meta original);
             codecVersion := codecVersion (meta original);
             createdAt := createdAt (meta original);
             source := Some (orUnknown (source (meta original)) ++ ":compacted");
             tags := Some (orEmpty (tags (meta original))
                             ++ [("compacted:" ++ method)%string])%list |};
        payload := newPayload |}.

(** Grouping of the tool outputs by [codecId], in a [Map]. *)
Definition groupByTool (toolOutputBlocks : list ContextBlock)
  : jsmap (list ContextBlock) :=
  fold_left
    (fun byTool block =>
       let toolId := codecId (meta block) in
       let byTool :=
         if map_has byTool toolId then byTool else map_set byTool toolId [] in
       map_set byTool toolId
         (match map_get byTool toolId with Some l => l | None => [] end
            ++ [block])%list)
    toolOutputBlocks [].

(** The body of the inner loop of [pruneToolOutputs] for one kept block:
    the block pushed to [kept], and whether [block] goes to [replaced]. *)
Definition pruneKept (config : ToolOutputPruningConfig) (block : ContextBlock)
  : result (ContextBlock * bool) :=
  let payload := payload block in
  let* output := prop payload "output" in
  let isLarge :=
    match output with
    | JStr text =>
        truthy output
        && (strLength text >? maxRawTailChars config)
    | _ => false
    end in
  let* error := prop payload "error" in
  let* status := prop payload "status" in
  let isError :=
    truthy error
    || match status with JStr st => String.eqb st "error" | _ => false end in
  if isLarge && (negb isError || negb (preserveErrorTail config)) then
    let truncatedPayload :=
      match payload, output with
      | JObj o, JStr text =>
          JObj (obj_define
                  (obj_define o "output"
                     (JStr (truncateTail text (maxRawTailChars config))))
                  "_truncated" (JBool true))
      | _, _ => payload
      end in
    let* replacementBlock :=
      createReplacementBlock block truncatedPayload
        "tool_output_prune" "1.0.0" in
    Ok (replacementBlock, true)
  else Ok (block, false).

Record PruneResult : Type := {
  p_blocks : list ContextBlock;
  p_removed : list ContextBlock;
  p_replaced : list ContextBlock
}.

Definition isKind (k : BlockKind) (b : ContextBlock) : bool :=
  BlockKind_eqb (kind (meta b)) k.

(** The outer loop of [pruneToolOutputs] over the entries of [byTool]. *)
Fixpoint pruneGroups (config : ToolOutputPruningConfig)
    (groups : jsmap (list ContextBlock))
    (kept removed replaced : list ContextBlock)
  : result (list ContextBlock * list ContextBlock * list ContextBlock) :=
  match groups with
  | [] => Ok (kept, removed, replaced)
  | (_, toolBlocks) :: groups' =>
      let sorted :=
        sortBy (fun a b => createdAt (meta a) - createdAt (meta b))
          toolBlocks in
      let toKeep := slice sorted (- maxOutputsPerTool config) None in
      let toRemove :=
        slice sorted 0 (Some (- maxOutputsPerTool config)) in
      let* results := mapM (pruneKept config) toKeep in
      pruneGroups config groups'
        (kept ++ List.map fst results)%list
        (removed ++ toRemove)%list
        (replaced
           ++ List.map snd
                (List.filter (fun br => snd (fst br))
                   (combine results toKeep)))%list
  end.

Definition pruneToolOutputs (bs : list ContextBlock)
    (config : ToolOutputPruningConfig) : result PruneResult :=
  let toolOutputBlocks := List.filter (isKind tool_output) bs in
  let otherBlocks :=
    List.filter (fun b => negb (isKind tool_output b)) bs in
  let byTool := groupByTool toolOutputBlocks in
  let* r := pruneGroups config byTool [] [] [] in
  let '(kept, removed, replaced) := r in
  Ok {| p_blocks := (otherBlocks ++ kept)%list;
        p_removed := removed;
        p_replaced := replaced |}.

(** [deduplicateBlocks]: the loop, with the set [seen] as a list. *)
Fixpoint dedupLoop (bs : list ContextBlock) (seen : list string)
    (deduplicated removed : list ContextBlock)
  : list ContextBlock * list ContextBlock :=
  match bs with
  | [] => (deduplicated, removed)
  | block :: rest =>
      if strIn (blockHash block) seen
      then dedupLoop rest seen deduplicated (removed ++ [block])%list
      else dedupLoop rest (seen ++ [blockHash block])%list
             (deduplicated ++ [block])%list removed
  end.

Definition deduplicateBlocks (bs : list ContextBlock)
  : list ContextBlock * list ContextBlock :=
  dedupLoop bs [] [] [].

Record HistoryTrimConfig : Type := {
  keepRecentMessages : Z;
  keepErrorMessages : bool
}.

(** [arr.some(f)] for a callback that may throw: the first hit ends the
    visit. *)
Fixpoint someM {A : Type} (f : A -> result bool) (l : list A) : result bool :=
  match l with
  | [] => Ok false
  | x :: l' => let* b := f x in if b then Ok true else someM f l'
  end.

(** [payload.messages?.some((m) => m.error)], as a condition. *)
Definition hasErrorMessage (b : ContextBlock) : result bool :=
  let* messages := prop (payload b) "messages" in
  match messages with
  | JUndefined | JNull => Ok false
  | JArr ms => someM (fun m => let* e := prop m "error" in Ok (truthy e)) ms
  | _ => Throw "TypeError: payload.messages.some is not a function"
  end.

(** [trimHistory].  A block of [old] is in [errorMessages] exactly when
    the callback held of it, so [removed] is [old] without those. *)
Definition trimHistory (bs : list ContextBlock) (config : HistoryTrimConfig)
  : result (list ContextBlock * list ContextBlock) :=
  let historyBlocks := List.filter (isKind history) bs in
  let otherBlocks := List.filter (fun b => negb (isKind history b)) bs in
  match historyBlocks with
  | [] => Ok (bs, [])
  | _ =>
      let sorted :=
        sortBy (fun a b => createdAt (meta a) - createdAt (meta b))
          historyBlocks in
      let recent := slice sorted (- keepRecentMessages config) None in
      let old := slice sorted 0 (Some (- keepRecentMessages config)) in
      let* flags :=
        if keepErrorMessages config then mapM hasErrorMessage old
        else Ok (List.map (fun _ => false) old) in
      let errorMessages :=
        List.map fst (List.filter snd (combine old flags)) in
      let kept := (recent ++ errorMessages)%list in
      let removed :=
        List.map fst (List.filter (fun bf => negb (snd bf)) (combine old flags)) in
      Ok ((otherBlocks ++ kept)%list, removed)
  end.

(** [String(v)], the conversion applied by template literals. *)
Fixpoint jsToString (v : json) : string :=
  match v with
  | JUndefined => "undefined"
  | JNull => "null"
  | JBool true => "true"
  | JBool false => "false"
  | JNum n =>
      match numberToString n with
      | Some t => t
      | None => if n <? 0 then "-Infinity" else "Infinity"
      end
  | JStr s => s
  | JArr xs =>
      joinWith ","
        (List.map
           (fun x =>
              match x with
              | JUndefined | JNull => EmptyString
              | _ => jsToString x
              end) xs)
  | JObj _ => "[object Object]"
  end.

(** [v[0]] *)
Definition firstElement (v : json) : result json :=
  match v with
  | JUndefined | JNull => Throw "TypeError: Cannot read properties"
  | JArr (x :: _) => Ok x
  | JStr s =>
      match codeUnits s with
      | u :: _ => Ok (JStr (fromCodeUnits [u]))
      | [] => Ok JUndefined
      end
  | _ => Ok JUndefined
  end.

(** The Anthropic client: [messages.create] called with a model, a value
    for [max_tokens] and the content of one user message; the call gives
    the reply or is rejected. *)
Record AnthropicClient : Type := {
  messages_create : string -> Z -> string -> result json
}.

(** The text of one block in the request of [summarize]. *)
Definition summaryLines (block : ContextBlock) : result (option string) :=
  let payload := payload block in
  let* messages := prop payload "messages" in
  match messages with
  | JArr ms =>
      let* lines :=
        mapM (fun m =>
                let* role := prop m "role" in
                let* content := prop m "content" in
                Ok (jsToString role ++ ": "
                      ++ match JSON_stringify content with
                         | Some t => t
                         | None => "undefined"
                         end)) ms in
      Ok (Some (joinWith newline lines))
  | _ => Ok (JSON_stringify payload)
  end.

(** [AnthropicSummarizer.summarize]; [now] is the value of [Date.now()]. *)
Definition AnthropicSummarizer_summarize (anthropicClient : AnthropicClient)
    (now : Z) (bs : list ContextBlock) (targetTokens : Z)
  : result ContextBlock :=
  let* messages := mapM summaryLines bs in
  let text :=
    joinWith (newline ++ newline)
      (List.map (fun t => match t with Some x => x | None => EmptyString end)
         messages) in
  let* response :=
    messages_create anthropicClient "claude-haiku-4-5" targetTokens
      ("Summarize the following conversation history concisely, preserving key context and decisions:"
         ++ newline ++ newline ++ text) in
  let* content := prop response "content" in
  let* first := firstElement content in
  let* type := prop first "type" in
  let* summary :=
    match type with
    | JStr "text" => prop first "text"
    | _ => Ok (JStr EmptyString)
    end in
  let summaryPayload :=
    JObj [ ("summary", summary);
           ("originalBlockCount", JNum (Z.of_nat (List.length bs)));
           ("summarizedAt", JNum now) ] in
  match bs with
  | [] => Throw "TypeError: Cannot read properties of undefined"
  | firstBlock :: _ =>
      let m := meta firstBlock in
      let newSource := Some (orUnknown (source m) ++ ":summarized") in
      let* blockHash :=
        computeBlockHash
          (FullMeta
             {| kind := kind m; sensitivity := sensitivity m;
                codecId := codecId m; codecVersion := codecVersion m;
                createdAt := createdAt m; source := newSource;
                tags := tags m |})
          summaryPayload None in
      Ok {| blockHash := blockHash;
            meta :=
              {| kind := history; sensitivity := sensitivity m;
                 codecId := codecId m; codecVersion := codecVersion m;
                 createdAt := now; source := newSource;
                 tags := Some (orEmpty (tags m) ++ ["summarized"])%list |};
            payload := summaryPayload |}
  end.

(** ** [compactView] *)

Inductive CompactionStep : Type :=
| dedupe | tool_output_prune | history_trim | summarize_history.

(** [HistorySummarizer]: the method [summarize(blocks, targetTokens)]. *)
Definition HistorySummarizer : Type :=
  list ContextBlock -> Z -> result ContextBlock.

Record SummarizationConfig : Type := {
  minMessages : Z;
  summarizer : option HistorySummarizer
}.

Record PipelineCompactionConfig : Type := {
  steps : list CompactionStep;
  toolOutputPruning : option ToolOutputPruningConfig;
  historyTrim : option HistoryTrimConfig;
  summarization : option SummarizationConfig
}.

Record StepReport : Type := {
  step : CompactionStep;
  blocksRemoved : Z;
  blocksReplaced : Z;
  tokensSaved : Z;
  lossy : bool;
  description : string
}.

Record CompactionReport : Type := {
  beforeTokens : Z;
  afterTokens : Z;
  savedTokens : Z;
  stepsApplied : list CompactionStep;
  stepReports : list StepReport
}.

Record CompactionResult : Type := {
  c_blocks : list ContextBlock;
  removedBlocks : list ContextBlock;
  report : CompactionReport
}.

Definition lengthZ {A : Type} (l : list A) : Z := Z.of_nat (List.length l).

(** [arr.length > 0 ? (await estimator.estimate(arr)).tokens : 0] *)
Definition tokensOrZero (estimator : TokenEstimator) (l : list ContextBlock)
  : Z :=
  match l with
  | [] => 0
  | _ => tokens (estimate estimator l)
  end.

(** A step that leaves the blocks as they are and only reports. *)
Definition skippedStep (st : CompactionStep) (why : string) : StepReport :=
  {| step := st; blocksRemoved := 0; blocksReplaced := 0; tokensSaved := 0;
     lossy := false; description := why |}.

(** One turn of the loop of [compactView] over [config.steps]: the new
    [blocks], the blocks pushed to [removedBlocks] and the report pushed to
    [stepReports].  The target of a summary is 30 % of the estimate of the
    old blocks, rounded down (the product is exact here). *)
Definition compactStep (config : PipelineCompactionConfig)
    (estimator : TokenEstimator) (bs : list ContextBlock)
    (st : CompactionStep)
  : result (list ContextBlock * list ContextBlock * StepReport) :=
  match st with
  | dedupe =>
      let r := deduplicateBlocks bs in
      Ok (fst r, snd r,
          {| step := st; blocksRemoved := lengthZ (snd r);
             blocksReplaced := 0;
             tokensSaved := tokensOrZero estimator (snd r);
             lossy := false;
             description :=
               "Removed " ++ Z_to_string (lengthZ (snd r))
                 ++ " duplicate blocks" |})
  | tool_output_prune =>
      let pruningConfig :=
        match toolOutputPruning config with
        | Some c => c
        | None => DEFAULT_TOOL_OUTPUT_PRUNING
        end in
      let beforeEstimate :=
        tokensOrZero estimator (List.filter (isKind tool_output) bs) in
      let* r := pruneToolOutputs bs pruningConfig in
      let afterEstimate :=
        tokensOrZero estimator
          (List.filter (isKind tool_output) (p_blocks r)) in
      Ok (p_blocks r, p_removed r,
          {| step := st; blocksRemoved := lengthZ (p_removed r);
             blocksReplaced := lengthZ (p_replaced r);
             tokensSaved := beforeEstimate - afterEstimate;
             lossy := lengthZ (p_replaced r) >? 0;
             description :=
               "Pruned " ++ Z_to_string (lengthZ (p_replaced r))
                 ++ " tool outputs, removed "
                 ++ Z_to_string (lengthZ (p_removed r)) |})
  | history_trim =>
      let trimConfig :=
        match historyTrim config with
        | Some c => c
        | None => {| keepRecentMessages := 20; keepErrorMessages := true |}
        end in
      let* r := trimHistory bs trimConfig in
      Ok (fst r, snd r,
          {| step := st; blocksRemoved := lengthZ (snd r);
             blocksReplaced := 0;
             tokensSaved := tokensOrZero estimator (snd r);
             lossy := lengthZ (snd r) >? 0;
             description :=
               "Trimmed " ++ Z_to_string (lengthZ (snd r))
                 ++ " old history messages" |})
  | summarize_history =>
      match
        match summarization config with
        | Some sc =>
            match summarizer sc with
            | Some sm => Some (sc, sm)
            | None => None
            end
        | None => None
        end
      with
      | None =>
          Ok (bs, [], skippedStep st "Summarizer not configured, skipping")
      | Some (summaryConfig, summarize) =>
          let historyBlocks := List.filter (isKind history) bs in
          if lengthZ historyBlocks <? minMessages summaryConfig then
            Ok (bs, [],
                skippedStep st
                  ("Insufficient history ("
                     ++ Z_to_string (lengthZ historyBlocks) ++ " < "
                     ++ Z_to_string (minMessages summaryConfig) ++ ")"))
          else
            let keepCount := 10 in
            let recent := slice historyBlocks (- keepCount) None in
            let old := slice historyBlocks 0 (Some (- keepCount)) in
            match old with
            | [] => Ok (bs, [], skippedStep st "No old history to summarize")
            | _ =>
                let beforeSummaryEstimate := estimate estimator old in
                let targetTokens := tokens beforeSummaryEstimate * 3 / 10 in
                let* summaryBlock := summarize old targetTokens in
                let afterSummaryEstimate :=
                  estimateBlock estimator summaryBlock in
                let nonHistoryBlocks :=
                  List.filter (fun b => negb (isKind history b)) bs in
                Ok ((nonHistoryBlocks ++ summaryBlock :: recent)%list, old,
                    {| step := st; blocksRemoved := lengthZ old;
                       blocksReplaced := 1;
                       tokensSaved :=
                         tokens beforeSummaryEstimate
                         - tokens afterSummaryEstimate;
                       lossy := true;
                       description :=
                         "Summarized " ++ Z_to_string (lengthZ old)
                           ++ " old messages into 1 summary block" |})
            end
      end
  end.

(** The loop of [compactView] over the steps still to apply. *)
Fixpoint compactLoop (config : PipelineCompactionConfig)
    (estimator : TokenEstimator) (todo : list CompactionStep)
    (bs removedBlocks : list ContextBlock) (stepReports : list StepReport)
  : result (list ContextBlock * list ContextBlock * list StepReport) :=
  match todo with
  | [] => Ok (bs, removedBlocks, stepReports)
  | st :: todo' =>
      let* r := compactStep config estimator bs st in
      let '(bs', removed, rep) := r in
      compactLoop config estimator todo' bs'
        (removedBlocks ++ removed)%list (stepReports ++ [rep])%list
  end.

Definition compactView (view : ContextView) (config : PipelineCompactionConfig)
    (estimator : TokenEstimator) : result CompactionResult :=
  let* r := compactLoop config estimator (steps config) (blocks view) [] [] in
  let '(bs, removedBlocks, stepReports) := r in
  let beforeTokens :=
    match tokenEstimate view with
    | Some e => v_tokens e
    | None => 0
    end in
  let afterTokens := tokensOrZero estimator bs in
  Ok {| c_blocks := bs;
        removedBlocks := removedBlocks;
        report :=
          {| beforeTokens := beforeTokens;
             afterTokens := afterTokens;
             savedTokens := beforeTokens - afterTokens;
             stepsApplied := steps config;
             stepReports := stepReports |} |}.
End Compactor.

(* ================================================================== *)
(** * Gemini compiler ([providers/gemini-compiler.ts]) *)

Inductive Role : Type := user | model_role.

Definition Role_eqb (a b : Role) : bool :=
  match a, b with
  | user, user | model_role, model_role => true
  | _, _ => false
  end.

Record GeminiMessage : Type := {
  role : Role;
  parts : list json
}.

(** The loop of [enforceAlternatingRoles] from a given state. *)
Fixpoint alternateLoop (messages : list GeminiMessage)
    (result : list GeminiMessage) (currentRole : option Role)
    (currentParts : list json)
  : list GeminiMessage * option Role * list json :=
  match messages with
  | [] => (result, currentRole, currentParts)
  | msg :: rest =>
      match currentRole with
      | Some r =>
          if Role_eqb (role msg) r
          then alternateLoop rest result currentRole
                 (currentParts ++ parts msg)%list
          else
            alternateLoop rest
              (match currentParts with
               | [] => result
               | _ => (result ++ [{| role := r; parts := currentParts |}])%list
               end)
              (Some (role msg)) (parts msg)
      | None => alternateLoop rest result (Some (role msg)) (parts msg)
      end
  end.

Definition enforceAlternatingRoles (messages : list GeminiMessage)
  : list GeminiMessage :=
  let '(result, currentRole, currentParts) :=
    alternateLoop messages [] None [] in
  match currentRole, currentParts with
  | Some r, _ :: _ => (result ++ [{| role := r; parts := currentParts |}])%list
  | _, _ => result
  end.

(** A rendered value read as a message of the declared type
    [{ role: 'user' | 'model'; parts: unknown[] }]. *)
Definition asMessage (v : json) : result GeminiMessage :=
  match v with
  | JObj o =>
      match get o "role", get o "parts" with
      | JStr "user", JArr ps => Ok {| role := user; parts := ps |}
      | JStr "model", JArr ps => Ok {| role := model_role; parts := ps |}
      | _, _ => Throw "rendering is not a Gemini message"
      end
  | _ => Throw "rendering is not a Gemini message"
  end.

(** The messages pushed by [compileMessages] for one block whose codec is
    registered.  Renderings of history blocks are taken to have the
    message type the function declares for its array. *)
Definition blockMessages (codec : BlockCodec) (block : ContextBlock)
  : result (list GeminiMessage) :=
  let* geminiContent := renderGemini codec block in
  match kind (meta block) with
  | history =>
      match geminiContent with
      | JArr items => mapM asMessage items
      | _ => let* m := asMessage geminiContent in Ok [m]
      end
  | turn =>
      let* ps := prop geminiContent "parts" in
      let* ps :=
        if truthy ps then asArray ps
        else Ok [textPart geminiContent] in
      Ok [{| role := user; parts := ps |}]
  | _ =>
      let textContent :=
        match geminiContent with
        | JStr _ => geminiContent
        | _ =>
            match JSON_stringify geminiContent with
            | Some t => JStr t
            | None => JUndefined
            end
        end in
      Ok [{| role := user; parts := [textPart textContent] |}]
  end.

Fixpoint collectMessages (codecRegistry : jsmap BlockCodec)
    (bs : list ContextBlock) : result (list GeminiMessage) :=
  match bs with
  | [] => Ok []
  | block :: rest =>
      match map_get codecRegistry (codecId (meta block)) with
      | None => collectMessages codecRegistry rest
      | Some codec =>
          let* ms := blockMessages codec block in
          let* more := collectMessages codecRegistry rest in
          Ok (ms ++ more)%list
      end
  end.

Definition compileMessages (bs : list ContextBlock)
    (codecRegistry : jsmap BlockCodec) : result (list GeminiMessage) :=
  let* messages := collectMessages codecRegistry bs in
  Ok (enforceAlternatingRoles messages).

(** The [messages] field of [compileGeminiContext(blocks, policy, options)]
    for the registry of [options]. *)
Definition compileGeminiMessages (bs : list ContextBlock)
    (codecRegistry : jsmap BlockCodec) : result (list GeminiMessage) :=
  compileMessages
    (List.filter (fun b => negb (isKind pinned b)) bs) codecRegistry.

(* ================================================================== *)
(** * Further operations of the graph, the kind order, the views, the
      Gemini compiler and the builder *)

(** ** [ContextGraph]: lookups and statistics *)

Definition getBlock (g : ContextGraph) (h : string) : option ContextBlock :=
  map_get (g_blocks g) h.

Definition hasBlock (g : ContextGraph) (h : string) : bool :=
  map_has (g_blocks g) h.

Record GraphStats : Type := {
  blockCount : Z;
  derivationEdgeCount : Z;
  referenceEdgeCount : Z
}.

Definition getStats (g : ContextGraph) : GraphStats :=
  {| blockCount := lengthZ (g_blocks g);
     derivationEdgeCount := lengthZ (g_derivedFrom g);
     referenceEdgeCount := lengthZ (g_references g) |}.

(** ** [graph/kind-order.ts]: sorting, validation and grouping *)

Definition sortBlocksByKind (bs : list ContextBlock)
  : result (list ContextBlock) :=
  sortByM (fun a b => compareKinds (kind (meta a)) (kind (meta b))) bs.

(** The loop of [validateBlockOrder] from index [i], with [prev] the block
    at index [i - 1]. *)
Fixpoint validateFrom (prev : ContextBlock) (i : Z) (rest : list ContextBlock)
  : result unit :=
  match rest with
  | [] => Ok tt
  | curr :: rest' =>
      let* comparison := compareKinds (kind (meta prev)) (kind (meta curr)) in
      if comparison >? 0 then
        Throw ("Blocks not sorted by KIND_ORDER: "
                 ++ kindName (kind (meta prev))
                 ++ " (index " ++ Z_to_string (i - 1) ++ ") comes before "
                 ++ kindName (kind (meta curr))
                 ++ " (index " ++ Z_to_string i ++ ")")
      else validateFrom curr (i + 1) rest'
  end.

Definition validateBlockOrder (bs : list ContextBlock) : result unit :=
  match bs with
  | [] => Ok tt
  | first :: rest => validateFrom first 1 rest
  end.

(** [groupBlocksByKind]: a [Map] keyed by the kind, a string. *)
Definition groupBlocksByKind (bs : list ContextBlock)
  : jsmap (list ContextBlock) :=
  fold_left
    (fun groups block =>
       let kind := kindName (kind (meta block)) in
       let groups :=
         if map_has groups kind then groups else map_set groups kind [] in
       map_set groups kind
         (match map_get groups kind with Some l => l | None => [] end
            ++ [block])%list)
    bs [].

(** ** [graph/views.ts]: comparison and merge of views *)


(** The inner loop of [mergeViews] over the blocks of one view. *)
Fixpoint mergeBlocks (bs : list ContextBlock) (seenHashes : list string)
    (mergedBlocks : list ContextBlock) : list string * list ContextBlock :=
  match bs with
  | [] => (seenHashes, mergedBlocks)
  | block :: rest =>
      if negb (strIn (blockHash block) seenHashes)
      then mergeBlocks rest (seenHashes ++ [blockHash block])%list
             (mergedBlocks ++ [block])%list
      else mergeBlocks rest seenHashes mergedBlocks
  end.

Section MergeViews.
Context `{Host}.

(** [mergeViews]; [now] is the value of [Date.now()]. *)
Definition mergeViews (views : list ContextView) (now : Z)
  : result ContextView :=
  let mergedBlocks :=
    snd (fold_left
           (fun st view => mergeBlocks (blocks view) (fst st) (snd st))
           views ([], [])) in
  let* sortedBlocks := sortBlocksDeterministic mergedBlocks in
  Ok {| blocks := sortedBlocks;
        tokenEstimate := None;
        stablePrefixHash := computeStablePrefixHash sortedBlocks;
        v_createdAt := now / 1000 |}.
End MergeViews.

(** ** [providers/gemini-compiler.ts]: validation of a message sequence *)

Inductive DiagnosticLevel : Type := level_error | level_warning.

Record Diagnostic : Type := {
  level : DiagnosticLevel;
  message : string
}.

Definition roleName (r : Role) : string :=
  match r with
  | user => "user"
  | model_role => "model"
  end.

(** The first loop of [validateGeminiMessages], from index [i]. *)
Fixpoint alternationDiagnostics (messages : list GeminiMessage) (i : Z)
    (lastRole : option Role) : list Diagnostic :=
  match messages with
  | [] => []
  | msg :: rest =>
      ((match lastRole with
        | Some r =>
            if Role_eqb (role msg) r
            then [ {| level := level_error;
                      message :=
                        "Consecutive " ++ roleName (role msg)
                          ++ " messages at index " ++ Z_to_string i
                          ++ " (Gemini requires strict alternation)" |} ]
            else []
        | None => []
        end)
       ++ alternationDiagnostics rest (i + 1) (Some (role msg)))%list
  end.

(** The second loop, from index [i]. *)
Fixpoint emptyPartsDiagnostics (messages : list GeminiMessage) (i : Z)
  : list Diagnostic :=
  match messages with
  | [] => []
  | msg :: rest =>
      ((match parts msg with
        | [] => [ {| level := level_error;
                     message :=
                       "Empty parts array at index " ++ Z_to_string i |} ]
        | _ => []
        end)
       ++ emptyPartsDiagnostics rest (i + 1))%list
  end.

Definition validateGeminiMessages (messages : list GeminiMessage)
  : list Diagnostic :=
  match messages with
  | [] => [ {| level := level_error; message := "Message array is empty" |} ]
  | _ =>
      (alternationDiagnostics messages 0 None
         ++ emptyPartsDiagnostics messages 0)%list
  end.

(** ** [ContextBuilder.fork] *)

Record ForkOptions : Type := {
  fo_maxSensitivity : option SensitivityLevel;
  fo_includeKinds : option (list BlockKind);
  fo_excludeKinds : option (list BlockKind);
  fo_tags : option (list string)
}.

Record ContextBuilder : Type := {
  b_graph : ContextGraph;
  blockCounter : Z
}.

Definition newContextBuilder : ContextBuilder :=
  {| b_graph := emptyGraph; blockCounter := 0 |}.

(** The value of [include] at the end of one turn of the loop of [fork]. *)
Definition forkIncludes (options : ForkOptions) (block : ContextBlock)
  : bool :=
  let include := true in
  let include :=
    match fo_maxSensitivity options with
    | Some maxSensitivity =>
        if SENSITIVITY_ORDER (sensitivity (meta block))
           >? SENSITIVITY_ORDER maxSensitivity
        then false else include
    | None => include
    end in
  let include :=
    match fo_includeKinds options with
    | Some ks => if negb (kindIn (kind (meta block)) ks) then false else include
    | None => include
    end in
  let include :=
    match fo_excludeKinds options with
    | Some ks => if kindIn (kind (meta block)) ks then false else include
    | None => include
    end in
  let include :=
    match nonEmpty (fo_tags options) with
    | Some ts =>
        let blockTags := orEmpty (tags (meta block)) in
        let hasMatchingTag := existsb (fun tag => strIn tag blockTags) ts in
        if negb hasMatchingTag then false else include
    | None => include
    end in
  include.

Definition fork (this : ContextBuilder) (options : ForkOptions)
  : ContextBuilder :=
  let forked := newContextBuilder in
  let allBlocks := getAllBlocks (b_graph this) in
  fold_left
    (fun forked block =>
       if forkIncludes options block then
         {| b_graph :=
              addBlock (b_graph forked) block
                (Some (getDerivedFrom (b_graph this) (blockHash block)))
                (Some (getReferences (b_graph this) (blockHash block)));
            blockCounter := blockCounter forked |}
       else forked)
    allBlocks forked.

(* ================================================================== *)
(** * Vocabulary of the statements *)

(** The graphs that [addBlock] and [removeBlock] build from the empty
    graph. *)
Inductive Reachable : ContextGraph -> Prop :=
| reach_empty : Reachable emptyGraph
| reach_add g b d r : Reachable g -> Reachable (addBlock g b d r)
| reach_remove g h : Reachable g -> Reachable (fst (removeBlock g h)).

(** A map of blocks in which every block is stored once, under its hash. *)
Definition keyedByHash (m : jsmap ContextBlock) : Prop :=
  NoDup (List.map fst m)
  /\ Forall (fun kv => fst kv = blockHash (snd kv)) m.

(** The comparator of [sortBlocksDeterministic] never throws. *)
Definition blockCmp `{Host} (a b : ContextBlock) : Z :=
  let k := getKindIndex (kind (meta a)) - getKindIndex (kind (meta b)) in
  if negb (k =? 0) then k else localeCompare (blockHash a) (blockHash b).

(** The same comparison with the hashes compared by code units. *)
Definition kindThenHash (a b : ContextBlock) : Z :=
  let k := getKindIndex (kind (meta a)) - getKindIndex (kind (meta b)) in
  if negb (k =? 0) then k else codeUnitCompare (blockHash a) (blockHash b).

(** Sum of the per-block estimates of a list of blocks. *)
Definition sumTokens (est : TokenEstimator) (bs : list ContextBlock) : Z :=
  fold_right (fun b acc => tokens (estimateBlock est b) + acc) 0 bs.

(** The query of a view: [options.query ?? {}]. *)
Definition queryOf (o : ViewOptions) : BlockQuery :=
  match o_query o with
  | Some q => q
  | None => emptyQuery
  end.

(** The sensitivity bound of a fork: [options.maxSensitivity ?? 'public']. *)
Definition maxSensitivityOf (o : ContextForkOptions) : SensitivityLevel :=
  match f_maxSensitivity o with
  | Some lvl => lvl
  | None => public
  end.

(** The kinds a fork keeps: history unless [includeHistory] is false or
    missing, state unless [includeState] is false or missing. *)
Definition keptKind (o : ContextForkOptions) (k : BlockKind) : bool :=
  negb (notSet (includeHistory o) && BlockKind_eqb k history)
  && negb (notSet (includeState o) && BlockKind_eqb k state).

(** No two neighbours of a list of roles are equal. *)
Fixpoint alternating (rs : list Role) : Prop :=
  match rs with
  | a :: (b :: _) as rest => a <> b /\ alternating rest
  | _ => True
  end.

(** [s.endsWith(suffix)], for a suffix in the ASCII range: the string
    ends with the code units of the suffix when it ends with its bytes. *)
Definition endsWith (s suffix : string) : bool :=
  let n := String.length s in
  let m := String.length suffix in
  (m <=? n)%nat && String.eqb (substring (n - m) m s) suffix.


(** Two values that differ at most in the order of the keys of objects
    reached through objects only; arrays are compared as they are. *)
Inductive keyOrderEq : json -> json -> Prop :=
| koe_same (v : json) : keyOrderEq v v
| koe_obj (o1 o2 : jobject) :
    NoDup (keys o1) -> NoDup (keys o2) ->
    (forall k, In k (keys o1) <-> In k (keys o2)) ->
    (forall k, In k (keys o1) -> keyOrderEq (get o1 k) (get o2 k)) ->
    keyOrderEq (JObj o1) (JObj o2).

(* ================================================================== *)
(** * Sample data *)

Definition sampleMeta (k : BlockKind) (sens : SensitivityLevel) : BlockMeta :=
  {| kind := k; sensitivity := sens; codecId := "test";
     codecVersion := "1.0.0"; createdAt := 1000; source := None;
     tags := None |}.

Definition sampleBlock (h : string) (k : BlockKind) (sens : SensitivityLevel)
  : ContextBlock :=
  {| blockHash := h; meta := sampleMeta k sens; payload := JStr "content" |}.

Definition hashA : string :=
  "ba7816bf8f01cfea414140de5dae2223b00361a396177a9cb410ff61f20015ad".
Definition hashB : string :=
  "e3b0c44298fc1c149afbf4c8996fb92427ae41e4649b934ca495991b7852b855".
Definition hashC : string :=
  "248d6a61d20638b8e5c026930c3e6039a33ce45964ff2167f6ecedd419db06c1".

(** Three blocks added in the order history, pinned, memory. *)
Definition sampleGraph : ContextGraph :=
  addBlock
    (addBlock
       (addBlock emptyGraph (sampleBlock hashA history public) None None)
       (sampleBlock hashB pinned public) None None)
    (sampleBlock hashC memory internal) None None.

Definition hashD : string :=
  "2c26b46b68ffc68ff99b453c1d30413413422d706483bfa0f98a5e886266e7ae".
Definition hashE : string :=
  "fcde2b2edba56bf408601fb721fe9b5c338d10ee429ea04fae5511b68fbf8fb9".

(** Five blocks with digests as hashes: two pinned blocks, two memory
    blocks and a history block, each pair added with the greater hash
    first. *)
Definition fiveBlockGraph : ContextGraph :=
  fold_left (fun g b => addBlock g b None None)
    [ sampleBlock hashA history public;
      sampleBlock hashD memory public;
      sampleBlock hashC memory public;
      sampleBlock hashE pinned public;
      sampleBlock hashB pinned public ]
    emptyGraph.

(** Three memory blocks whose hashes are not digests. *)
Definition collationGraph : ContextGraph :=
  fold_left (fun g b => addBlock g b None None)
    [ sampleBlock "B" memory public;
      sampleBlock "a" memory public;
      sampleBlock "_" memory public ]
    emptyGraph.

(** An estimator in the manner of the heuristic one: three tokens for ten
    characters of the serialised payload, rounded up, confidence [low]. *)
Definition sampleEstimateBlock (b : ContextBlock) : TokenEstimate :=
  {| tokens :=
       (3 * strLength (serialize (payload b)) + 9) / 10;
     confidence := low |}.

Definition sampleEstimator : TokenEstimator :=
  {| estimate := fun bs =>
       {| tokens :=
            fold_right (fun b acc => tokens (sampleEstimateBlock b) + acc) 0 bs;
          confidence := low |};
     estimateBlock := sampleEstimateBlock |}.

Definition budgetOptions (maxTokens : Z) : ViewOptions :=
  {| o_query := None; o_tokenEstimator := Some sampleEstimator;
     o_maxTokens := Some maxTokens |}.

Definition forkOptions (hist st : option bool)
    (maxS : option SensitivityLevel) : ContextForkOptions :=
  {| agentId := "agent-1"; name := "sub-agent";
     f_model := {| provider := "anthropic"; model := "claude-haiku-4-5" |};
     inheritQuery := None; includeHistory := hist; includeState := st;
     f_maxSensitivity := maxS; budgetOverride := None |}.

Definition allBlocks : ViewOptions :=
  {| o_query := None; o_tokenEstimator := None; o_maxTokens := None |}.

(** A public state block and a restricted turn block. *)
Definition stateTurnGraph : ContextGraph :=
  addBlock
    (addBlock emptyGraph (sampleBlock hashA turn restricted) None None)
    (sampleBlock hashB state public) None None.

Definition sourceQuery (src : string) : BlockQuery :=
  {| q_kinds := None; q_tags := None; q_minSensitivity := None;
     q_maxSensitivity := None; q_source := Some src; q_minCreatedAt := None;
     q_maxCreatedAt := None; q_derivedFromAny := None;
     q_notDerivedFromAny := None; q_referencesAny := None;
     q_excludeHashes := None; q_maxTokens := None |}.

(** A block whose source is [source1]. *)
Definition source1Block : ContextBlock :=
  {| blockHash := hashA;
     meta := {| kind := memory; sensitivity := public; codecId := "test";
                codecVersion := "1.0.0"; createdAt := 1000;
                source := Some "source1"; tags := None |};
     payload := JStr "content" |}.

Definition source1Graph : ContextGraph :=
  addBlock emptyGraph source1Block None None.

(** A history block of three messages, the second with an empty
    structured content. *)
Definition emptyContentHistory : ContextBlock :=
  {| blockHash := hashA;
     meta := {| kind := history; sensitivity := public;
                codecId := "conversation-history"; codecVersion := "1.0.0";
                createdAt := 1000; source := None; tags := None |};
     payload :=
       JObj [("messages",
              JArr [ JObj [("role", JStr "user"); ("content", JStr "a")];
                     JObj [("role", JStr "assistant"); ("content", JArr [])];
                     JObj [("role", JStr "user"); ("content", JStr "b")] ])] |}.

Definition historyRegistry : jsmap BlockCodec :=
  [("conversation-history", ConversationHistoryCodec)].

(** A tool output of forty characters. *)
Definition longToolOutput : ContextBlock :=
  {| blockHash := hashC;
     meta := {| kind := tool_output; sensitivity := public;
                codecId := "tool-bash"; codecVersion := "1.0.0";
                createdAt := 1000; source := Some "session-7";
                tags := Some ["shell"] |};
     payload :=
       JObj [ ("toolName", JStr "bash");
              ("output", JStr "0123456789012345678901234567890123456789") ] |}.

Definition tailOfTen : ToolOutputPruningConfig :=
  {| maxRawTailChars := 10; preserveErrorTail := true;
     maxOutputsPerTool := 3 |}.

(** Eleven history blocks created at 1, ..., 11. *)
Definition historyBlockAt (i : nat) : ContextBlock :=
  {| blockHash := SHA256.digestHex (Z_to_string (Z.of_nat i));
     meta := {| kind := history; sensitivity := public;
                codecId := "conversation-history"; codecVersion := "1.0.0";
                createdAt := Z.of_nat i; source := None; tags := None |};
     payload :=
       JObj [("messages",
              JArr [JObj [("role", JStr "user");
                          ("content", JStr (Z_to_string (Z.of_nat i)))]])] |}.

Definition elevenHistoryBlocks : list ContextBlock :=
  List.map historyBlockAt (seq 1 11).

(** A client whose model always replies with the same text. *)
Definition fixedReplyClient : AnthropicClient :=
  {| messages_create := fun _ _ _ =>
       Ok (JObj [("content",
                  JArr [JObj [ ("type", JStr "text");
                               ("text", JStr "They greeted each other.") ]])])
  |}.

Definition fixedReplySummarizer `{Host} : HistorySummarizer :=
  AnthropicSummarizer_summarize fixedReplyClient 1700000000000.

Definition summarizeConfig `{Host} : PipelineCompactionConfig :=
  {| steps := [summarize_history]; toolOutputPruning := None;
     historyTrim := None;
     summarization :=
       Some {| minMessages := 5; summarizer := Some fixedReplySummarizer |} |}.

Definition pruneConfig : PipelineCompactionConfig :=
  {| steps := [dedupe; tool_output_prune; history_trim; summarize_history];
     toolOutputPruning := Some tailOfTen; historyTrim := None;
     summarization := None |}.

Definition elevenHistoryGraph : ContextGraph :=
  fold_left (fun g b => addBlock g b None None) elevenHistoryBlocks emptyGraph.

Definition toolOutputGraph : ContextGraph :=
  addBlock (addBlock emptyGraph longToolOutput None None)
    (sampleBlock hashB pinned public) None None.



(** Two histories of one message whose structured content is one object,
    written with its two keys in either order. *)
Definition structuredHistory (part : jobject) : json :=
  JObj [("messages",
         JArr [JObj [("role", JStr "user"); ("content", JArr [JObj part])]])].

Definition structuredHistory1 : json :=
  structuredHistory [("type", JStr "text"); ("text", JStr "hi")].


Definition historyMeta (created : Z) (src : option string)
    (tgs : option (list string)) : BlockMeta :=
  {| kind := history; sensitivity := public;
     codecId := "conversation-history"; codecVersion := "1.0.0";
     createdAt := created; source := src; tags := tgs |}.

(* ================================================================== *)
(** * Vocabulary and sample data of the further properties *)

(** The keys of the two edge maps of a graph are hashes of stored blocks,
    each once. *)
Definition edgesWithinBlocks (g : ContextGraph) : Prop :=
  NoDup (List.map fst (g_derivedFrom g))
  /\ NoDup (List.map fst (g_references g))
  /\ incl (List.map fst (g_derivedFrom g)) (List.map fst (g_blocks g))
  /\ incl (List.map fst (g_references g)) (List.map fst (g_blocks g)).

(** The order of two blocks by the index of their kinds in [KIND_ORDER]. *)
Definition kindLe (a b : ContextBlock) : Prop :=
  getKindIndex (kind (meta a)) <= getKindIndex (kind (meta b)).

(** The comparator of [sortBlocksByKind] never throws. *)
Definition kindCmp (a b : ContextBlock) : Z :=
  getKindIndex (kind (meta a)) - getKindIndex (kind (meta b)).

(** The criteria of a query that [mergeQueries] combines as a
    conjunction: tags, the sensitivity and time bounds, the excluded
    ancestors and the excluded hashes. *)
Definition conjunctivePart (q : BlockQuery) : BlockQuery :=
  {| q_kinds := None; q_tags := q_tags q;
     q_minSensitivity := q_minSensitivity q;
     q_maxSensitivity := q_maxSensitivity q; q_source := None;
     q_minCreatedAt := q_minCreatedAt q; q_maxCreatedAt := q_maxCreatedAt q;
     q_derivedFromAny := None;
     q_notDerivedFromAny := q_notDerivedFromAny q;
     q_referencesAny := None; q_excludeHashes := q_excludeHashes q;
     q_maxTokens := q_maxTokens q |}.

(** The line that [truncateTail] puts in front of the tail it keeps,
    for [n] characters left out. *)
Definition truncationMarker (n : Z) : string :=
  "... [truncated " ++ Z_to_string n ++ " chars] ..." ++ newline.

(** The sum of a count over the step reports of a compaction. *)
Definition sumOver (f : StepReport -> Z) (reports : list StepReport) : Z :=
  fold_right (fun rep acc => f rep + acc) 0 reports.

(** The blocks a step adds to the view: the summary block of a
    summarization that took place. *)
Definition blocksAdded (rep : StepReport) : Z :=
  match step rep with
  | summarize_history => blocksReplaced rep
  | _ => 0
  end.

(** Values whose objects, as far as they are reached through objects, own
    every key once: the values of JavaScript. *)
Inductive uniqueKeys : json -> Prop :=
| uk_object (o : jobject) :
    NoDup (keys o) ->
    (forall k, In k (keys o) -> uniqueKeys (get o k)) ->
    uniqueKeys (JObj o)
| uk_other (v : json) :
    (forall o, v <> JObj o) -> uniqueKeys v.

(** A memory block derived from, and referring to, a pinned block. *)
Definition derivedGraph : ContextGraph :=
  addBlock
    (addBlock emptyGraph (sampleBlock hashB pinned public) None None)
    (sampleBlock hashC memory internal)
    (Some [ {| refHash := hashB |} ]) (Some [hashB]).

Definition sampleBuilder : ContextBuilder :=
  {| b_graph := derivedGraph; blockCounter := 2 |}.

Definition publicOnly : ForkOptions :=
  {| fo_maxSensitivity := Some public; fo_includeKinds := None;
     fo_excludeKinds := None; fo_tags := None |}.

(** A query for blocks that carry the tags [ts] and are at least as
    sensitive as [minS]. *)
Definition taggedQuery (ts : list string) (minS : SensitivityLevel)
  : BlockQuery :=
  {| q_kinds := None; q_tags := Some ts; q_minSensitivity := Some minS;
     q_maxSensitivity := None; q_source := None; q_minCreatedAt := None;
     q_maxCreatedAt := None; q_derivedFromAny := None;
     q_notDerivedFromAny := None; q_referencesAny := None;
     q_excludeHashes := None; q_maxTokens := None |}.

Definition taggedBlock : ContextBlock :=
  {| blockHash := hashA;
     meta := {| kind := memory; sensitivity := internal; codecId := "test";
                codecVersion := "1.0.0"; createdAt := 1000;
                source := Some "source1"; tags := Some ["a"; "b"] |};
     payload := JStr "content" |}.

(** Two blocks with the same hash around a third one. *)
Definition duplicatedBlocks : list ContextBlock :=
  [ sampleBlock hashA history public; sampleBlock hashB pinned public;
    sampleBlock hashA history public ].

Definition keepOne : HistoryTrimConfig :=
  {| keepRecentMessages := 1; keepErrorMessages := false |}.

Definition trimOnly : PipelineCompactionConfig :=
  {| steps := [dedupe; history_trim]; toolOutputPruning := None;
     historyTrim := Some keepOne; summarization := None |}.

Definition duplicatedView : ContextView :=
  {| blocks := duplicatedBlocks; tokenEstimate := None;
     stablePrefixHash := EmptyString; v_createdAt := 0 |}.

(** Two user messages followed by a model message. *)
Definition threeMessages : list GeminiMessage :=
  [ {| role := user; parts := [textPart (JStr "a")] |};
    {| role := user; parts := [textPart (JStr "b")] |};
    {| role := model_role; parts := [textPart (JStr "c")] |} ].

(** A redacted-stub payload without a placeholder, keys out of order. *)
Definition stubPayload : json :=
  JObj [ ("reason", JStr "too sensitive");
         ("originalBlockHash", JStr hashA) ].

(** An object with an object and an array of objects inside. *)
Definition nestedObject : jobject :=
  [ ("b", JObj [("z", JNum 1); ("a", JNum 2)]);
    ("a", JArr [JObj [("y", JNull); ("x", JNull)]]) ].

(* ================================================================== *)
(** * Properties *)

(** ** Test vectors of the executable digest *)

Example sha256_abc :
  SHA256.digestHex "abc"
  = "ba7816bf8f01cfea414140de5dae2223b00361a396177a9cb410ff61f20015ad".
Proof. vm_compute. reflexivity. Qed.

Example sha256_empty :
  SHA256.digestHex EmptyString
  = "e3b0c44298fc1c149afbf4c8996fb92427ae41e4649b934ca495991b7852b855".
Proof. vm_compute. reflexivity. Qed.

Example sha256_two_blocks :
  SHA256.digestHex
    "abcdbcdecdefdefgefghfghighijhijkijkljklmklmnlmnomnopnopq"
  = "248d6a61d20638b8e5c026930c3e6039a33ce45964ff2167f6ecedd419db06c1".
Proof. vm_compute. reflexivity. Qed.

(** ** Sorting *)

Section SortFacts.
Variable A : Type.

Lemma insertBy_perm (cmp : A -> A -> Z) (x : A) (l : list A) :
  Permutation (insertBy cmp x l) (x :: l).
Proof.
  induction l as [|y l IH]; simpl; [reflexivity|].
  destruct (cmp x y <=? 0); [reflexivity|].
  rewrite IH. apply perm_swap.
Qed.

Lemma sortBy_perm (cmp : A -> A -> Z) (l : list A) :
  Permutation (sortBy cmp l) l.
Proof.
  induction l as [|x l IH]; simpl; [reflexivity|].
  rewrite insertBy_perm. now constructor.
Qed.

Lemma sortBy_In (cmp : A -> A -> Z) (l : list A) (x : A) :
  In x (sortBy cmp l) <-> In x l.
Proof.
  split; apply Permutation_in;
    [apply sortBy_perm | apply Permutation_sym, sortBy_perm].
Qed.

(** Only the signs of the comparisons between members matter. *)
Lemma insertBy_ext (c1 c2 : A -> A -> Z) (x : A) (l : list A) :
  (forall y, In y l -> (c1 x y <=? 0) = (c2 x y <=? 0)) ->
  insertBy c1 x l = insertBy c2 x l.
Proof.
  induction l as [|y l IH]; simpl; intros E; [reflexivity|].
  rewrite (E y) by now left.
  destruct (c2 x y <=? 0); [reflexivity|].
  f_equal. apply IH. intros z Hz. apply E. now right.
Qed.

Lemma sortBy_ext (c1 c2 : A -> A -> Z) (l : list A) :
  (forall x y, In x l -> In y l -> (c1 x y <=? 0) = (c2 x y <=? 0)) ->
  sortBy c1 l = sortBy c2 l.
Proof.
  induction l as [|x l IH]; simpl; intros E; [reflexivity|].
  rewrite IH by (intros; apply E; now right).
  apply insertBy_ext. intros y Hy. apply E; [now left|].
  right. now apply (sortBy_In c2).
Qed.

Lemma sortByM_pure (cmpM : A -> A -> result Z) (cmp : A -> A -> Z)
    (l : list A) :
  (forall x y, cmpM x y = Ok (cmp x y)) ->
  sortByM cmpM l = Ok (sortBy cmp l).
Proof.
  intros E.
  assert (I : forall x l', insertByM cmpM x l' = Ok (insertBy cmp x l')).
  { intros x l'. induction l' as [|y l' IH]; simpl; [reflexivity|].
    rewrite E. simpl. destruct (cmp x y <=? 0); [reflexivity|].
    rewrite IH. reflexivity. }
  induction l as [|x l IH]; simpl; [reflexivity|].
  rewrite IH. simpl. apply I.
Qed.

(** A total comparator gives a sorted array. *)
Lemma insertBy_sorted (cmp : A -> A -> Z) (x : A) (l : list A) :
  (forall a b, 0 < cmp a b -> cmp b a <= 0) ->
  Sorted (fun a b => cmp a b <= 0) l ->
  Sorted (fun a b => cmp a b <= 0) (insertBy cmp x l).
Proof.
  intros T. induction l as [|y l IH]; simpl; intros S.
  - repeat constructor.
  - destruct (Z.leb_spec (cmp x y) 0) as [L|G].
    + constructor; [assumption|]. constructor. exact L.
    + inversion S as [|? ? S' Hd]; subst.
      constructor; [now apply IH|].
      destruct l as [|z l]; simpl.
      * constructor. now apply T.
      * destruct (Z.leb_spec (cmp x z) 0).
        -- constructor. now apply T.
        -- inversion Hd; subst. now constructor.
Qed.

Lemma sortBy_sorted (cmp : A -> A -> Z) (l : list A) :
  (forall a b, 0 < cmp a b -> cmp b a <= 0) ->
  Sorted (fun a b => cmp a b <= 0) (sortBy cmp l).
Proof.
  intros T. induction l as [|x l IH]; simpl.
  - constructor.
  - now apply insertBy_sorted.
Qed.

Lemma Sorted_app_l (R : A -> A -> Prop) (l1 l2 : list A) :
  Sorted R (l1 ++ l2) -> Sorted R l1.
Proof.
  induction l1 as [|x l1 IH]; simpl; intros S; [constructor|].
  inversion S as [|? ? S' Hd]; subst.
  constructor; [now apply IH|].
  destruct l1; simpl in *; [constructor|].
  inversion Hd; subst. now constructor.
Qed.

(** Adjacent members of a sorted list are related. *)
Lemma Sorted_adjacent (R : A -> A -> Prop) (l : list A) (i : nat) (a b : A) :
  Sorted R l ->
  nth_error l i = Some a -> nth_error l (S i) = Some b -> R a b.
Proof.
  intros S. revert i. induction S as [|x l S IH Hd]; intros i Ha Hb.
  - destruct i; discriminate.
  - destruct i as [|i]; simpl in *.
    + injection Ha as <-. destruct l as [|y l]; [discriminate|].
      simpl in Hb. injection Hb as <-. now inversion Hd.
    + eapply IH; eassumption.
Qed.
End SortFacts.

(** ** Strings *)

Lemma byte_range (c : ascii) : 0 <= byte c < 256.
Proof. unfold byte. pose proof (nat_ascii_bounded c). lia. Qed.

Lemma byte_char (n : Z) : 0 <= n < 256 -> byte (char n) = n.
Proof.
  intros R. unfold byte, char. rewrite nat_ascii_embedding by lia. lia.
Qed.

Ltac bytes :=
  repeat (rewrite byte_char by (try lia; Z.div_mod_to_equations; lia)).

Lemma codePoints_utf8 (cp : Z) (s : string) :
  0 <= cp < 1114112 -> codePoints (utf8 cp ++ s) = cp :: codePoints s.
Proof.
  intros R. unfold utf8.
  destruct (Z.ltb_spec cp 128) as [L1|L1].
  { cbn [append codePoints]. cbn zeta. bytes.
    destruct (Z.ltb_spec cp 128); [reflexivity|lia]. }
  destruct (Z.ltb_spec cp 2048) as [L2|L2].
  { cbn [append codePoints]. cbn zeta. bytes.
    destruct (Z.ltb_spec (192 + cp / 64) 128);
      [Z.div_mod_to_equations; lia|].
    destruct (Z.ltb_spec (192 + cp / 64) 224);
      [|Z.div_mod_to_equations; lia].
    f_equal. Z.div_mod_to_equations; lia. }
  destruct (Z.ltb_spec cp 65536) as [L3|L3].
  { cbn [append codePoints]. cbn zeta. bytes.
    destruct (Z.ltb_spec (224 + cp / 4096) 128);
      [Z.div_mod_to_equations; lia|].
    destruct (Z.ltb_spec (224 + cp / 4096) 224);
      [Z.div_mod_to_equations; lia|].
    destruct (Z.ltb_spec (224 + cp / 4096) 240);
      [|Z.div_mod_to_equations; lia].
    f_equal. Z.div_mod_to_equations; lia. }
  cbn [append codePoints]. cbn zeta. bytes.
  destruct (Z.ltb_spec (240 + cp / 262144) 128);
    [Z.div_mod_to_equations; lia|].
  destruct (Z.ltb_spec (240 + cp / 262144) 224);
    [Z.div_mod_to_equations; lia|].
  destruct (Z.ltb_spec (240 + cp / 262144) 240);
    [Z.div_mod_to_equations; lia|].
  f_equal. Z.div_mod_to_equations; lia.
Qed.

Lemma utf16_pair (u v : Z) :
  55296 <= u < 56320 -> 56320 <= v < 57344 ->
  utf16 (65536 + (u - 55296) * 1024 + (v - 56320)) = [u; v].
Proof.
  intros Ru Rv. unfold utf16.
  destruct (Z.ltb_spec (65536 + (u - 55296) * 1024 + (v - 56320)) 65536);
    [lia|].
  f_equal; [|f_equal]; Z.div_mod_to_equations; lia.
Qed.

Lemma codeUnits_utf8 (cp : Z) (s : string) :
  0 <= cp < 1114112 -> codeUnits (utf8 cp ++ s) = (utf16 cp ++ codeUnits s)%list.
Proof.
  intros R. unfold codeUnits. now rewrite codePoints_utf8.
Qed.

Lemma append_empty (s : string) : s ++ EmptyString = s.
Proof. induction s as [|c s IH]; simpl; [reflexivity|now rewrite IH]. Qed.

Lemma fromCodeUnits_cons (u v : Z) (us : list Z) :
  fromCodeUnits (u :: v :: us)
  = if isHighSurrogate u && isLowSurrogate v
    then utf8 (65536 + (u - 55296) * 1024 + (v - 56320)) ++ fromCodeUnits us
    else utf8 u ++ fromCodeUnits (v :: us).
Proof. reflexivity. Qed.

(** Encoding a sequence of code units and reading the code units back
    gives the sequence. *)
Lemma codeUnits_fromCodeUnits (us : list Z) :
  Forall (fun u => 0 <= u < 65536) us -> codeUnits (fromCodeUnits us) = us.
Proof.
  assert (G : forall us,
             (Forall (fun u => 0 <= u < 65536) us ->
              codeUnits (fromCodeUnits us) = us)
             /\ forall u, 0 <= u < 65536 ->
                          Forall (fun u => 0 <= u < 65536) us ->
                          codeUnits (fromCodeUnits (u :: us)) = u :: us).
  { induction us0 as [|v us0 [IH1 IH2]].
    - split; [reflexivity|]. intros u R _. cbn [fromCodeUnits].
      rewrite <- (append_empty (utf8 u)), codeUnits_utf8 by lia.
      unfold utf16. destruct (Z.ltb_spec u 65536); [reflexivity|lia].
    - split.
      + intros F. inversion F; subst. now apply IH2.
      + intros u R F. inversion F as [|? ? Rv F']; subst.
        rewrite fromCodeUnits_cons. unfold isHighSurrogate, isLowSurrogate.
        destruct (Z.leb_spec 55296 u), (Z.ltb_spec u 56320),
                 (Z.leb_spec 56320 v), (Z.ltb_spec v 57344);
          cbn [andb];
          try (rewrite codeUnits_utf8 by lia; rewrite (IH2 v Rv F');
               unfold utf16; destruct (Z.ltb_spec u 65536); [reflexivity|lia]).
        rewrite codeUnits_utf8 by lia. rewrite utf16_pair by lia.
        now rewrite (IH1 F'). }
  apply G.
Qed.

Lemma utf16_range (cp : Z) :
  0 <= cp < 2097152 -> Forall (fun u => 0 <= u < 65536) (utf16 cp).
Proof.
  intros R. unfold utf16. destruct (Z.ltb_spec cp 65536).
  - repeat constructor; lia.
  - repeat constructor; Z.div_mod_to_equations; lia.
Qed.

Lemma codePoints_range (s : string) :
  Forall (fun cp => 0 <= cp < 2097152) (codePoints s).
Proof.
  assert (G : forall n s, (String.length s <= n)%nat ->
                          Forall (fun cp => 0 <= cp < 2097152) (codePoints s)).
  { induction n as [|n IH]; intros s0 L.
    - destruct s0; [constructor|simpl in L; lia].
    - destruct s0 as [|c0 s0]; [constructor|]. cbn [codePoints]. cbn zeta.
      pose proof (byte_range c0) as R0. simpl in L.
      destruct (Z.ltb_spec (byte c0) 128).
      { constructor; [lia|]. apply IH. lia. }
      destruct s0 as [|c1 s1]; [repeat constructor; lia|].
      pose proof (byte_range c1) as R1. simpl in L.
      destruct (Z.ltb_spec (byte c0) 224).
      { constructor; [Z.div_mod_to_equations; lia|]. apply IH. lia. }
      destruct s1 as [|c2 s2]; [repeat constructor; lia|].
      pose proof (byte_range c2) as R2. simpl in L.
      destruct (Z.ltb_spec (byte c0) 240).
      { constructor; [Z.div_mod_to_equations; lia|]. apply IH. lia. }
      destruct s2 as [|c3 s3]; [repeat constructor; lia|].
      pose proof (byte_range c3) as R3. simpl in L.
      constructor; [Z.div_mod_to_equations; lia|]. apply IH. lia. }
  apply (G (String.length s)). lia.
Qed.

Lemma codeUnits_range (s : string) :
  Forall (fun u => 0 <= u < 65536) (codeUnits s).
Proof.
  unfold codeUnits. pose proof (codePoints_range s) as F.
  induction F as [|cp l R F IH]; cbn [flat_map]; [constructor|].
  apply Forall_app. split; [now apply utf16_range|exact IH].
Qed.

Lemma isAscii_app (a b : string) :
  isAscii (a ++ b) = isAscii a && isAscii b.
Proof.
  unfold isAscii. induction a as [|c a IH]; cbn; [reflexivity|].
  now rewrite IH, andb_assoc.
Qed.

Lemma codePoints_ascii_app (a b : string) :
  isAscii a = true ->
  codePoints (a ++ b)
  = (List.map byte (list_ascii_of_string a) ++ codePoints b)%list.
Proof.
  unfold isAscii. induction a as [|c a IH]; cbn [append list_ascii_of_string
    forallb List.map app]; intros A; [reflexivity|].
  apply andb_prop in A as [A1 A2]. cbn [codePoints]. cbn zeta.
  rewrite A1. now rewrite IH.
Qed.

Lemma codeUnits_ascii_app (a b : string) :
  isAscii a = true -> codeUnits (a ++ b) = (codeUnits a ++ codeUnits b)%list.
Proof.
  intros A. unfold codeUnits.
  rewrite (@codePoints_ascii_app a b A), flat_map_app.
  rewrite <- (append_empty a) at 2.
  rewrite (@codePoints_ascii_app a EmptyString A). cbn [codePoints].
  now rewrite app_nil_r.
Qed.

Lemma codeUnits_ascii (a : string) :
  isAscii a = true -> codeUnits a = List.map byte (list_ascii_of_string a).
Proof.
  intros A. unfold codeUnits. rewrite <- (append_empty a) at 1.
  rewrite (@codePoints_ascii_app a EmptyString A). cbn [codePoints].
  rewrite app_nil_r. unfold isAscii in A.
  induction (list_ascii_of_string a) as [|c l IH]; [reflexivity|].
  cbn in A. apply andb_prop in A as [A1 A2]. cbn [List.map flat_map].
  unfold utf16 at 1. pose proof (byte_range c).
  destruct (Z.ltb_spec (byte c) 65536); [|lia]. cbn [app]. now rewrite IH.
Qed.

Lemma codePoints_nonempty (s : string) :
  s <> EmptyString -> codePoints s <> [].
Proof.
  destruct s as [|c0 s0]; [congruence|]. intros _. cbn [codePoints]. cbn zeta.
  destruct (byte c0 <? 128); [discriminate|].
  destruct s0 as [|c1 s1]; [discriminate|].
  destruct (byte c0 <? 224); [discriminate|].
  destruct s1 as [|c2 s2]; [discriminate|].
  destruct (byte c0 <? 240); [discriminate|].
  destruct s2 as [|c3 s3]; discriminate.
Qed.

(** ** Order of strings by code units, and the collation *)

Lemma lexCompare_refl (a : list Z) : lexCompare a a = Eq.
Proof.
  induction a as [|x a IH]; cbn [lexCompare]; [reflexivity|].
  now rewrite Z.compare_refl.
Qed.

Lemma lexCompare_antisym (a b : list Z) :
  lexCompare b a = CompOpp (lexCompare a b).
Proof.
  revert b. induction a as [|x a IH]; intros [|y b]; cbn [lexCompare];
    try reflexivity.
  rewrite (Z.compare_antisym x y).
  destruct (x ?= y); cbn [CompOpp]; [apply IH|reflexivity|reflexivity].
Qed.

Lemma lexCompare_eq (a b : list Z) : lexCompare a b = Eq -> a = b.
Proof.
  revert b. induction a as [|x a IH]; intros [|y b]; cbn [lexCompare];
    try discriminate; [reflexivity|].
  destruct (x ?= y) eqn:E; try discriminate.
  apply Z.compare_eq in E. subst. intros L. now rewrite (IH _ L).
Qed.

Lemma lexCompare_lt_trans (a b c : list Z) :
  lexCompare a b = Lt -> lexCompare b c = Lt -> lexCompare a c = Lt.
Proof.
  revert b c. induction a as [|x a IH]; intros [|y b] [|z c];
    cbn [lexCompare]; try discriminate; try reflexivity.
  destruct (x ?= y) eqn:Exy; try discriminate;
  destruct (y ?= z) eqn:Eyz; try discriminate; intros L1 L2.
  - apply Z.compare_eq in Exy, Eyz. subst. rewrite Z.compare_refl.
    eapply IH; eassumption.
  - apply Z.compare_eq in Exy. subst. now rewrite Eyz.
  - apply Z.compare_eq in Eyz. subst. now rewrite Exy.
  - rewrite Z.compare_lt_iff in Exy, Eyz.
    assert (T : x < z) by lia. apply Z.compare_lt_iff in T. now rewrite T.
Qed.

Lemma ascii_compare_lt_trans (a b c : ascii) :
  Ascii.compare a b = Lt -> Ascii.compare b c = Lt -> Ascii.compare a c = Lt.
Proof.
  unfold Ascii.compare. rewrite !N.compare_lt_iff. apply N.lt_trans.
Qed.

Lemma string_compare_lt_trans (a b c : string) :
  String.compare a b = Lt -> String.compare b c = Lt ->
  String.compare a c = Lt.
Proof.
  revert b c. induction a as [|x a IH]; intros [|y b] [|z c];
    simpl; try congruence.
  destruct (Ascii.compare x y) eqn:Exy; try discriminate;
    destruct (Ascii.compare y z) eqn:Eyz; try discriminate; intros H1 H2.
  - apply Ascii.compare_eq_iff in Exy, Eyz. subst.
    assert (R : Ascii.compare z z = Eq).
    { unfold Ascii.compare. apply N.compare_refl. }
    rewrite R. eapply IH; eassumption.
  - apply Ascii.compare_eq_iff in Exy. subst. now rewrite Eyz.
  - apply Ascii.compare_eq_iff in Eyz. subst. now rewrite Exy.
  - now rewrite (ascii_compare_lt_trans _ _ _ Exy Eyz).
Qed.

Lemma string_compare_refl (a : string) : String.compare a a = Eq.
Proof.
  induction a as [|c a IH]; simpl; [reflexivity|].
  unfold Ascii.compare. now rewrite N.compare_refl.
Qed.

Lemma codeUnitOrder_refl (a : string) : codeUnitOrder a a = Eq.
Proof.
  unfold codeUnitOrder. rewrite lexCompare_refl. apply string_compare_refl.
Qed.

Lemma codeUnitOrder_antisym (a b : string) :
  codeUnitOrder b a = CompOpp (codeUnitOrder a b).
Proof.
  unfold codeUnitOrder. rewrite (lexCompare_antisym (codeUnits a) (codeUnits b)).
  destruct (lexCompare (codeUnits a) (codeUnits b)); cbn [CompOpp];
    [apply String.compare_antisym|reflexivity|reflexivity].
Qed.

Lemma codeUnitOrder_eq (a b : string) : codeUnitOrder a b = Eq -> a = b.
Proof.
  unfold codeUnitOrder.
  destruct (lexCompare (codeUnits a) (codeUnits b)); try discriminate.
  apply String.compare_eq_iff.
Qed.

Lemma codeUnitOrder_lt_trans (a b c : string) :
  codeUnitOrder a b = Lt -> codeUnitOrder b c = Lt -> codeUnitOrder a c = Lt.
Proof.
  unfold codeUnitOrder.
  destruct (lexCompare (codeUnits a) (codeUnits b)) eqn:Eab; try discriminate;
  destruct (lexCompare (codeUnits b) (codeUnits c)) eqn:Ebc; try discriminate;
    intros L1 L2.
  - apply lexCompare_eq in Eab, Ebc. rewrite Eab, Ebc, lexCompare_refl.
    eapply string_compare_lt_trans; eassumption.
  - apply lexCompare_eq in Eab. now rewrite Eab, Ebc.
  - apply lexCompare_eq in Ebc. now rewrite <- Ebc, Eab.
  - now rewrite (lexCompare_lt_trans _ _ _ Eab Ebc).
Qed.

Lemma codeUnitCompare_total (a b : string) :
  0 < codeUnitCompare a b -> codeUnitCompare b a <= 0.
Proof.
  unfold codeUnitCompare. rewrite (codeUnitOrder_antisym a b).
  destruct (codeUnitOrder a b); simpl; lia.
Qed.

Lemma codeUnitCompare_sgn (a b : string) :
  Z.sgn (codeUnitCompare a b) = codeUnitCompare a b.
Proof. unfold codeUnitCompare. now destruct (codeUnitOrder a b). Qed.

Lemma codeUnitCompare_le_cases (a b : string) :
  codeUnitCompare a b <= 0 <-> a = b \/ codeUnitOrder a b = Lt.
Proof.
  unfold codeUnitCompare. split.
  - destruct (codeUnitOrder a b) eqn:E; intros L.
    + left. now apply codeUnitOrder_eq.
    + now right.
    + simpl in L. lia.
  - intros [-> | ->]; [rewrite codeUnitOrder_refl|]; simpl; lia.
Qed.

Lemma codeUnitCompare_trans (a b c : string) :
  codeUnitCompare a b <= 0 -> codeUnitCompare b c <= 0 ->
  codeUnitCompare a c <= 0.
Proof.
  rewrite !codeUnitCompare_le_cases.
  intros [->|L1] [->|L2]; auto.
  right. eapply codeUnitOrder_lt_trans; eassumption.
Qed.

Lemma codeUnitCompare_antisym (a b : string) :
  codeUnitCompare a b <= 0 -> codeUnitCompare b a <= 0 -> a = b.
Proof.
  rewrite !codeUnitCompare_le_cases.
  intros [->|L1] [E|L2]; auto.
  rewrite codeUnitOrder_antisym, L1 in L2. discriminate.
Qed.

(** On ASCII strings the code units are the bytes. *)
Lemma string_compare_bytes (a b : string) :
  String.compare a b
  = lexCompare (List.map byte (list_ascii_of_string a))
      (List.map byte (list_ascii_of_string b)).
Proof.
  revert b. induction a as [|x a IH]; intros [|y b];
    cbn [String.compare list_ascii_of_string List.map lexCompare];
    try reflexivity.
  rewrite IH. unfold Ascii.compare, byte, nat_of_ascii.
  now rewrite !N_nat_Z, <- N2Z.inj_compare.
Qed.

Lemma codeUnitOrder_ascii (a b : string) :
  isAscii a = true -> isAscii b = true ->
  codeUnitOrder a b = String.compare a b.
Proof.
  intros A B. unfold codeUnitOrder.
  rewrite (@codeUnits_ascii a A), (@codeUnits_ascii b B), <- string_compare_bytes.
  now destruct (String.compare a b).
Qed.

Lemma codeUnitCompare_le_0 (a b : string) :
  isAscii a = true -> isAscii b = true ->
  codeUnitCompare a b <= 0 -> a <> b -> String.compare a b = Lt.
Proof.
  intros A B. unfold codeUnitCompare.
  rewrite (@codeUnitOrder_ascii a b A B). intros L N.
  destruct (String.compare a b) eqn:E; [|reflexivity|simpl in L; lia].
  now apply String.compare_eq_iff in E.
Qed.

Lemma isLowerHex_byte (c : ascii) :
  isLowerHex c = true -> 48 <= byte c <= 57 \/ 97 <= byte c <= 102.
Proof.
  unfold isLowerHex, byte. intros E. apply orb_prop in E as [E|E];
    apply andb_prop in E as [E1 E2];
    apply Nat.leb_le in E1, E2; lia.
Qed.

Lemma isHexDigest_hex (s : string) :
  isHexDigest s = true ->
  Forall (fun x => 48 <= x <= 57 \/ 97 <= x <= 102)
    (List.map byte (list_ascii_of_string s)).
Proof.
  unfold isHexDigest. intros E. apply andb_prop in E as [_ E].
  induction (list_ascii_of_string s) as [|c l IH]; [constructor|].
  cbn in E. apply andb_prop in E as [E1 E2]. cbn [List.map].
  constructor; [now apply isLowerHex_byte|now apply IH].
Qed.

Lemma hex_isAscii (s : string) :
  Forall (fun x => 48 <= x <= 57 \/ 97 <= x <= 102)
    (List.map byte (list_ascii_of_string s)) ->
  isAscii s = true.
Proof.
  unfold isAscii. induction (list_ascii_of_string s) as [|c l IH];
    [reflexivity|].
  cbn [List.map forallb]. intros F. inversion F as [|? ? R F']; subst.
  rewrite (IH F'), andb_true_r. apply Z.ltb_lt. lia.
Qed.

Lemma isHexDigest_isAscii (s : string) :
  isHexDigest s = true -> isAscii s = true.
Proof. intros E. now apply hex_isAscii, isHexDigest_hex. Qed.

Lemma hex_cases (x : Z) :
  48 <= x <= 57 \/ 97 <= x <= 102 ->
  In x [48; 49; 50; 51; 52; 53; 54; 55; 56; 57; 97; 98; 99; 100; 101; 102].
Proof. intros R. cbn [In]. lia. Qed.

Lemma primaryWeight_hex (x y : Z) :
  48 <= x <= 57 \/ 97 <= x <= 102 ->
  48 <= y <= 57 \/ 97 <= y <= 102 ->
  exists wx wy,
    primaryWeight x = Some wx /\ primaryWeight y = Some wy
    /\ (wx ?= wy) = (x ?= y).
Proof.
  intros Rx Ry. apply hex_cases in Rx, Ry.
  cbn [In] in Rx, Ry.
  repeat (destruct Rx as [<-|Rx]; [|]); try contradiction;
  repeat (destruct Ry as [<-|Ry]; [|]); try contradiction;
  eexists; eexists; (split; [reflexivity|split; reflexivity]).
Qed.

Lemma codePoints_ascii (a : string) :
  isAscii a = true -> codePoints a = List.map byte (list_ascii_of_string a).
Proof.
  intros A. rewrite <- (append_empty a) at 1.
  rewrite (@codePoints_ascii_app a EmptyString A). apply app_nil_r.
Qed.


Lemma lexCompare_primary_hex (l1 l2 : list Z) :
  Forall (fun x => 48 <= x <= 57 \/ 97 <= x <= 102) l1 ->
  Forall (fun x => 48 <= x <= 57 \/ 97 <= x <= 102) l2 ->
  List.filter
    (fun cp => match primaryWeight cp with Some _ => true | None => false end)
    l1 = l1
  /\ lexCompare
       (List.map
          (fun cp => match primaryWeight cp with Some w => w | None => 0 end) l1)
       (List.map
          (fun cp => match primaryWeight cp with Some w => w | None => 0 end) l2)
     = lexCompare l1 l2.
Proof.
  intros F1. revert l2. induction F1 as [|x l1 Rx F1 IH]; intros l2 F2.
  - split; [reflexivity|]. now destruct l2.
  - destruct (primaryWeight_hex Rx Rx) as (wx & _ & Ex & _).
    split.
    + cbn [List.filter]. rewrite Ex. f_equal.
      exact (proj1 (IH [] (Forall_nil _))).
    + destruct F2 as [|y l2 Ry F2]; [reflexivity|].
      cbn [List.map lexCompare].
      destruct (primaryWeight_hex Rx Ry) as (w1 & w2 & E1 & E2 & C).
      rewrite E1, E2, C. now rewrite (proj2 (IH l2 F2)).
Qed.

(** On digests the collation and the order by code units agree. *)
Lemma collationCompare_hex (a b : string) :
  isHexDigest a = true -> isHexDigest b = true ->
  Z.sgn (collationCompare a b) = codeUnitCompare a b.
Proof.
  intros Ha Hb.
  pose proof (isHexDigest_hex _ Ha) as Fa.
  pose proof (isHexDigest_hex _ Hb) as Fb.
  pose proof (hex_isAscii _ Fa) as Aa. pose proof (hex_isAscii _ Fb) as Ab.
  unfold codeUnitCompare. rewrite (@codeUnitOrder_ascii a b Aa Ab).
  unfold collationCompare, primaryKey, tertiaryKey, weighted.
  rewrite (@codePoints_ascii a Aa), (@codePoints_ascii b Ab).
  rewrite (proj1 (@lexCompare_primary_hex _ _ Fa Fb)),
          (proj1 (@lexCompare_primary_hex _ _ Fb Fa)),
          (proj2 (@lexCompare_primary_hex _ _ Fa Fb)),
          <- string_compare_bytes.
  destruct (String.compare a b) eqn:E; [|reflexivity|reflexivity].
  apply String.compare_eq_iff in E. subst. now rewrite lexCompare_refl.
Qed.

(** ** Kind order *)

Lemma getKindIndex_range (k : BlockKind) : 0 <= getKindIndex k <= 6.
Proof. destruct k; vm_compute; split; discriminate. Qed.

Lemma getKindIndex_inj (a b : BlockKind) :
  getKindIndex a = getKindIndex b -> a = b.
Proof. destruct a, b; vm_compute; congruence. Qed.

Lemma compareKinds_ok (a b : BlockKind) :
  compareKinds a b = Ok (getKindIndex a - getKindIndex b).
Proof. destruct a, b; reflexivity. Qed.

(** ** The graph as a map keyed by hash *)



Lemma map_get_none_notin (V : Type) (m : jsmap V) (k : string) :
  map_get m k = None -> ~ In k (List.map fst m).
Proof.
  induction m as [|[k' v] m IH]; simpl; intros E; [tauto|].
  destruct (String.eqb_spec k k') as [->|N]; [discriminate|].
  intros [->|I]; [congruence|]. now apply IH.
Qed.

Lemma map_set_fresh (V : Type) (m : jsmap V) (k : string) (v : V) :
  map_get m k = None -> map_set m k v = (m ++ [(k, v)])%list.
Proof.
  induction m as [|[k' v'] m IH]; simpl; intros E; [reflexivity|].
  destruct (String.eqb k k'); [discriminate|]. now rewrite IH.
Qed.

Lemma NoDup_map_filter (X Y : Type) (f : X -> Y) (p : X -> bool) (l : list X) :
  NoDup (List.map f l) -> NoDup (List.map f (List.filter p l)).
Proof.
  induction l as [|x l IH]; simpl; intros N; [constructor|].
  inversion N as [|? ? Nin N']; subst.
  destruct (p x); simpl; [constructor|]; auto.
  intros I. apply Nin. apply in_map_iff in I as (y & E & I).
  apply in_map_iff. exists y. split; [assumption|].
  now apply filter_In in I.
Qed.

Lemma Reachable_keyed (g : ContextGraph) :
  Reachable g -> keyedByHash (g_blocks g).
Proof.
  induction 1 as [|g b d r R [N F]|g h R [N F]].
  - split; constructor.
  - unfold addBlock, map_has.
    destruct (map_get (g_blocks g) (blockHash b)) eqn:E; [now split|].
    simpl. rewrite map_set_fresh by exact E. split.
    + rewrite map_app. simpl.
      apply NoDup_app; [assumption|repeat constructor; simpl; tauto|].
      intros x Ix [<-|[]]. now apply (map_get_none_notin _ _ E) in Ix.
    + apply Forall_app. split; [assumption|]. now repeat constructor.
  - simpl. unfold map_delete. split.
    + now apply NoDup_map_filter.
    + apply Forall_forall. intros x Hx. apply filter_In in Hx as [Hx _].
      now apply (proj1 (Forall_forall _ _) F).
Qed.

Lemma Reachable_NoDup_hashes (g : ContextGraph) :
  Reachable g -> NoDup (List.map blockHash (getAllBlocks g)).
Proof.
  intros R. destruct (Reachable_keyed R) as [N F].
  unfold getAllBlocks, map_values. rewrite map_map.
  erewrite map_ext_in; [exact N|].
  intros kv I. symmetry. now apply (proj1 (Forall_forall _ _) F).
Qed.

(** ** Views *)

Section ViewFacts.
Context `{Host}.



Lemma blockCompare_ok (a b : ContextBlock) :
  blockCompare a b = Ok (blockCmp a b).
Proof.
  unfold blockCompare, blockCmp. rewrite compareKinds_ok. simpl.
  now destruct (negb _).
Qed.

Lemma sortBlocksDeterministic_ok (bs : list ContextBlock) :
  sortBlocksDeterministic bs = Ok (sortBy blockCmp bs).
Proof. apply sortByM_pure, blockCompare_ok. Qed.

Lemma kindThenHash_total (a b : ContextBlock) :
  0 < kindThenHash a b -> kindThenHash b a <= 0.
Proof.
  unfold kindThenHash.
  destruct (Z.eqb_spec
              (getKindIndex (kind (meta a)) - getKindIndex (kind (meta b))) 0)
    as [E|N];
  destruct (Z.eqb_spec
              (getKindIndex (kind (meta b)) - getKindIndex (kind (meta a))) 0)
    as [E'|N']; simpl; try lia.
  apply codeUnitCompare_total.
Qed.

Lemma budgetLoop_prefix (est : TokenEstimator) (maxTokens : Z)
    (bs : list ContextBlock) (tot : Z) (conf : Confidence)
    (inc : list ContextBlock) :
  exists n,
    fst (budgetLoop est maxTokens bs tot conf inc) = (inc ++ firstn n bs)%list.
Proof.
  revert tot conf inc.
  induction bs as [|b bs IH]; intros tot conf inc; simpl.
  - exists 0%nat. now rewrite app_nil_r.
  - destruct (tot + tokens (estimateBlock est b) >? maxTokens).
    + exists 0%nat. simpl. now rewrite app_nil_r.
    + destruct (IH (tot + tokens (estimateBlock est b))
                  (match confidence (estimateBlock est b), conf with
                   | low, _ => low
                   | high, exact => high
                   | _, c => c
                   end) (inc ++ [b])%list) as [n E].
      exists (S n). rewrite E. simpl. now rewrite <- app_assoc.
Qed.

(** A view always exists, and its blocks are a prefix of the sorted
    selection. *)
Lemma createContextView_blocks (g : ContextGraph) (o : ViewOptions) (now : Z) :
  exists view n,
    createContextView g o now = Ok view
    /\ blocks view
       = firstn n
           (sortBy blockCmp
              (select g (match o_query o with
                         | Some q => q
                         | None => emptyQuery
                         end))).
Proof.
  unfold createContextView. rewrite sortBlocksDeterministic_ok. simpl.
  set (sorted := sortBy blockCmp _).
  destruct (o_tokenEstimator o) as [est|]; [destruct (o_maxTokens o) as [m|]|].
  - destruct (budgetLoop_prefix est m sorted 0 exact []) as [n E].
    eexists. exists n. split; [reflexivity|]. simpl. exact E.
  - eexists. exists (List.length sorted). split; [reflexivity|].
    simpl. now rewrite firstn_all.
  - eexists. exists (List.length sorted). split; [reflexivity|].
    simpl. now rewrite firstn_all.
Qed.
End ViewFacts.

Lemma NoDup_map_nth_error (X Y : Type) (f : X -> Y) (l : list X)
    (i j : nat) (a b : X) :
  NoDup (List.map f l) ->
  nth_error l i = Some a -> nth_error l j = Some b -> f a = f b -> i = j.
Proof.
  intros N Ha Hb E.
  apply (proj1 (NoDup_nth_error (List.map f l)) N).
  - rewrite length_map. apply nth_error_Some. congruence.
  - rewrite !nth_error_map, Ha, Hb. simpl. now rewrite E.
Qed.

Lemma NoDup_map_firstn (X Y : Type) (f : X -> Y) (l : list X) (n : nat) :
  NoDup (List.map f l) -> NoDup (List.map f (firstn n l)).
Proof.
  intros N. rewrite <- (firstn_skipn n l), map_app in N.
  now apply NoDup_app_remove_r in N.
Qed.

(** C3, as amended (views are sorted by kind order, then by hash).  For a
    graph built by [addBlock] and [removeBlock] whose block hashes are
    digests, 64 lower-case hexadecimal digits, every view made by
    [createView] lists its blocks by non-decreasing kind index, and two
    neighbours of the same kind have strictly increasing hashes in the
    order by code units; [localeCompare] is only required to order digests
    as the code units do, which the root collation does. *)
Theorem view_sorted_by_kind_then_hash `{Host}
    (g : ContextGraph) (o : ViewOptions) (now : Z) :
  Reachable g ->
  (forall b, In b (getAllBlocks g) -> isHexDigest (blockHash b) = true) ->
  (forall a b, isHexDigest a = true -> isHexDigest b = true ->
               Z.sgn (localeCompare a b) = codeUnitCompare a b) ->
  exists view,
    createView g o now = Ok view
    /\ forall i a b,
         nth_error (blocks view) i = Some a ->
         nth_error (blocks view) (S i) = Some b ->
         getKindIndex (kind (meta a)) <= getKindIndex (kind (meta b))
         /\ (kind (meta a) = kind (meta b) ->
             String.compare (blockHash a) (blockHash b) = Lt).
Proof.
  intros R Hex Loc.
  destruct (createContextView_blocks g o now) as (view & n & E & B).
  exists view. split; [exact E|].
  set (sel := select g _) in B.
  assert (InSel : forall x, In x sel -> isHexDigest (blockHash x) = true).
  { intros x Hx. apply Hex. unfold sel, select in Hx.
    now apply filter_In in Hx. }
  assert (Same : sortBy blockCmp sel = sortBy kindThenHash sel).
  { apply sortBy_ext. intros x y Hx Hy. unfold blockCmp, kindThenHash.
    destruct (negb _); [reflexivity|].
    rewrite <- (Loc _ _ (InSel x Hx) (InSel y Hy)).
    destruct (localeCompare (blockHash x) (blockHash y)); reflexivity. }
  rewrite Same in B.
  assert (InView : forall x, In x (blocks view) ->
                             isHexDigest (blockHash x) = true).
  { intros x Ix. apply InSel. apply (sortBy_In kindThenHash).
    rewrite <- (firstn_skipn n (sortBy kindThenHash sel)).
    apply in_or_app. left. now rewrite <- B. }
  assert (S1 : Sorted (fun a b => kindThenHash a b <= 0) (blocks view)).
  { rewrite B. apply Sorted_app_l with (l2 := skipn n (sortBy kindThenHash sel)).
    rewrite firstn_skipn. apply sortBy_sorted, kindThenHash_total. }
  assert (N1 : NoDup (List.map blockHash (blocks view))).
  { rewrite B. apply NoDup_map_firstn.
    apply (Permutation_NoDup (l := List.map blockHash sel)).
    - apply Permutation_map, Permutation_sym, sortBy_perm.
    - apply NoDup_map_filter, Reachable_NoDup_hashes, R. }
  intros i a b Ha Hb.
  pose proof (@Sorted_adjacent _ _ _ i a b S1 Ha Hb) as L. simpl in L.
  assert (D : blockHash a <> blockHash b).
  { intros Eq.
    pose proof (@NoDup_map_nth_error _ _ blockHash _ i (S i) a b N1 Ha Hb Eq).
    lia. }
  unfold kindThenHash in L.
  destruct (Z.eqb_spec
              (getKindIndex (kind (meta a)) - getKindIndex (kind (meta b))) 0)
    as [Z0|NZ]; simpl in L.
  - split; [lia|]. intros _.
    apply codeUnitCompare_le_0; [| |exact L|exact D];
      apply isHexDigest_isAscii, InView; eapply nth_error_In; eassumption.
  - split; [lia|]. intros K. rewrite K in NZ. lia.
Qed.

Lemma view_sorted_by_kind_then_hash_witness :
  Reachable fiveBlockGraph
  /\ (forall b, In b (getAllBlocks fiveBlockGraph) ->
                isHexDigest (blockHash b) = true)
  /\ exists view,
       createView (H := NodeHost) fiveBlockGraph allBlocks 0 = Ok view
       /\ List.map blockHash (blocks view)
          = [hashB; hashE; hashC; hashD; hashA]
       /\ forall i a b,
            nth_error (blocks view) i = Some a ->
            nth_error (blocks view) (S i) = Some b ->
            getKindIndex (kind (meta a)) <= getKindIndex (kind (meta b))
            /\ (kind (meta a) = kind (meta b) ->
                String.compare (blockHash a) (blockHash b) = Lt).
Proof.
  assert (R : Reachable fiveBlockGraph) by (repeat constructor).
  assert (D : forall b, In b (getAllBlocks fiveBlockGraph) ->
                        isHexDigest (blockHash b) = true).
  { intros b [<-|[<-|[<-|[<-|[<-|[]]]]]]; reflexivity. }
  split; [exact R|]. split; [exact D|].
  destruct (view_sorted_by_kind_then_hash (H := NodeHost)
              (g := fiveBlockGraph) allBlocks 0 R D
              (fun a b => @collationCompare_hex a b))
    as (view & E & P).
  exists view. split; [exact E|]. split; [|exact P].
  vm_compute in E. injection E as <-. reflexivity.
Defined.

(** C3, as stated, fails for hashes that are not digests: [addBlock]
    takes the hash of a block as it is given, and [sortBlocksDeterministic]
    orders the hashes of one kind with [localeCompare].  Of three memory
    blocks with the hashes [B], [a] and [_] the view lists [_], [a], [B],
    the order of the collation, while by code units [B] comes before [_]
    and [a]. *)
Lemma view_order_follows_collation :
  Reachable collationGraph
  /\ exists view a b,
       createView (H := NodeHost) collationGraph allBlocks 0 = Ok view
       /\ List.map blockHash (blocks view) = ["_"; "a"; "B"]
       /\ nth_error (blocks view) 1 = Some a
       /\ nth_error (blocks view) 2 = Some b
       /\ kind (meta a) = kind (meta b)
       /\ String.compare (blockHash a) (blockHash b) = Gt
       /\ codeUnitCompare (blockHash a) (blockHash b) = 1.
Proof.
  split; [repeat constructor|].
  eexists. eexists. eexists.
  split; [vm_compute; reflexivity|].
  split; [reflexivity|].
  split; [reflexivity|].
  split; [reflexivity|].
  repeat split.
Qed.

(** ** Token budget *)

Lemma sumTokens_app (est : TokenEstimator) (l1 l2 : list ContextBlock) :
  sumTokens est (l1 ++ l2) = sumTokens est l1 + sumTokens est l2.
Proof.
  unfold sumTokens. induction l1 as [|x l1 IH]; simpl; [reflexivity|].
  rewrite IH. lia.
Qed.

Section BudgetFacts.
Context `{Host}.

(** What the loop of [applyTokenBudget] returns from any state: it adds
    the longest prefix of the remaining blocks all of whose running totals
    stay within the budget. *)
Lemma budgetLoop_spec (est : TokenEstimator) (maxTokens : Z)
    (bs : list ContextBlock) (tot : Z) (conf : Confidence)
    (inc : list ContextBlock) :
  exists n,
    (n <= List.length bs)%nat
    /\ fst (budgetLoop est maxTokens bs tot conf inc)
       = (inc ++ firstn n bs)%list
    /\ v_tokens (snd (budgetLoop est maxTokens bs tot conf inc))
       = tot + sumTokens est (firstn n bs)
    /\ (forall k, (1 <= k <= n)%nat ->
                  tot + sumTokens est (firstn k bs) <= maxTokens)
    /\ truncated (snd (budgetLoop est maxTokens bs tot conf inc))
       = (n <? List.length bs)%nat
    /\ (forall b, nth_error bs n = Some b ->
                  maxTokens
                  < tot + sumTokens est (firstn n bs)
                    + tokens (estimateBlock est b)).
Proof.
  revert tot conf inc.
  induction bs as [|b bs IH]; intros tot conf inc.
  - exists 0%nat. cbn [budgetLoop fst snd v_tokens truncated firstn List.length].
    rewrite app_nil_r. unfold sumTokens. simpl.
    split; [lia|]. split; [reflexivity|]. split; [lia|].
    split; [intros k K; lia|]. split; [reflexivity|].
    intros b E. discriminate.
  - cbn [budgetLoop].
    destruct (Z.gtb_spec (tot + tokens (estimateBlock est b)) maxTokens)
      as [G|L].
    + exists 0%nat. cbn [fst snd v_tokens truncated firstn List.length].
      rewrite app_nil_r. unfold sumTokens. simpl.
      split; [lia|]. split; [reflexivity|]. split; [lia|].
      split; [intros k K; lia|]. split; [reflexivity|].
      intros b' E. injection E as <-. lia.
    + destruct (IH (tot + tokens (estimateBlock est b))
                  (match confidence (estimateBlock est b), conf with
                   | low, _ => low
                   | high, exact => high
                   | _, c => c
                   end) (inc ++ [b])%list)
        as (n & Ln & Eb & Et & Ek & Etr & Ex).
      exists (S n). rewrite Eb, Et, Etr, <- app_assoc.
      cbn [firstn List.length nth_error app].
      change (sumTokens est (b :: firstn n bs))
        with (tokens (estimateBlock est b) + sumTokens est (firstn n bs)).
      split; [lia|]. split; [reflexivity|]. split; [lia|].
      split; [|split; [reflexivity|]].
      * intros k K. destruct k as [|k]; [lia|]. cbn [firstn].
        change (sumTokens est (b :: firstn k bs))
          with (tokens (estimateBlock est b) + sumTokens est (firstn k bs)).
        destruct k as [|k].
        -- unfold sumTokens. simpl. lia.
        -- specialize (Ek (S k)). lia.
      * intros b' E. specialize (Ex b' E). lia.
Qed.
End BudgetFacts.

(** C4, as amended (greedy token budget).  With an estimator and a
    [maxTokens] that is not negative, the view holds a prefix of the
    sorted selection: every
    included block kept the running total within the budget, the recorded
    total is the sum of the included estimates and is at most [maxTokens],
    the first excluded block would push the sum over [maxTokens], and
    [truncated] is set exactly when some block was excluded. *)
Theorem token_budget_greedy `{Host}
    (g : ContextGraph) (o : ViewOptions) (now : Z)
    (est : TokenEstimator) (maxTokens : Z) :
  o_tokenEstimator o = Some est ->
  o_maxTokens o = Some maxTokens ->
  0 <= maxTokens ->
  exists sorted view ve n,
    sortBlocksDeterministic (select g (queryOf o)) = Ok sorted
    /\ createView g o now = Ok view
    /\ tokenEstimate view = Some ve
    /\ (n <= List.length sorted)%nat
    /\ blocks view = firstn n sorted
    /\ v_tokens ve = sumTokens est (blocks view)
    /\ (forall k, (1 <= k <= n)%nat ->
                  sumTokens est (firstn k sorted) <= maxTokens)
    /\ sumTokens est (blocks view) <= maxTokens
    /\ (truncated ve = true <-> (n < List.length sorted)%nat)
    /\ (forall b, nth_error sorted n = Some b ->
                  maxTokens
                  < sumTokens est (blocks view) + tokens (estimateBlock est b)).
Proof.
  intros Eest Emax Pos.
  unfold createView, createContextView. fold (queryOf o).
  rewrite sortBlocksDeterministic_ok, Eest, Emax.
  set (sorted := sortBy blockCmp (select g (queryOf o))).
  cbn [bind]. unfold applyTokenBudget.
  destruct (budgetLoop_spec est maxTokens sorted 0 exact [])
    as (n & Ln & Eb & Et & Ek & Etr & Ex).
  cbn [app] in Eb.
  exists sorted. eexists. eexists. exists n.
  split; [reflexivity|]. split; [reflexivity|].
  cbn [tokenEstimate blocks].
  split; [reflexivity|]. split; [exact Ln|]. split; [exact Eb|].
  rewrite Eb, Et, Etr.
  split; [lia|].
  split; [intros k K; specialize (Ek k K); lia|].
  split.
  { destruct n as [|n]; [unfold sumTokens; simpl; lia|].
    specialize (Ek (S n)). lia. }
  split.
  { rewrite Nat.ltb_lt. tauto. }
  intros b E. specialize (Ex b E). lia.
Qed.

Lemma token_budget_greedy_witness :
  0 <= 5
  /\ exists sorted view ve n,
       sortBlocksDeterministic (H := NodeHost)
         (select sampleGraph (queryOf (budgetOptions 5))) = Ok sorted
       /\ createView (H := NodeHost) sampleGraph (budgetOptions 5) 0 = Ok view
       /\ tokenEstimate view = Some ve
       /\ (n <= List.length sorted)%nat
       /\ blocks view = firstn n sorted
       /\ v_tokens ve = sumTokens sampleEstimator (blocks view)
       /\ (forall k, (1 <= k <= n)%nat ->
                     sumTokens sampleEstimator (firstn k sorted) <= 5)
       /\ sumTokens sampleEstimator (blocks view) <= 5
       /\ (truncated ve = true <-> (n < List.length sorted)%nat)
       /\ (forall b, nth_error sorted n = Some b ->
                     5 < sumTokens sampleEstimator (blocks view)
                         + tokens (estimateBlock sampleEstimator b)).
Proof.
  split; [lia|].
  apply (token_budget_greedy (H := NodeHost) sampleGraph (budgetOptions 5) 0
           (est := sampleEstimator) (maxTokens := 5));
    [reflexivity|reflexivity|lia].
Defined.

(** C4, as stated, fails for a negative [maxTokens]: the first block is
    excluded, and the sum of the included estimates, which is 0, is above
    the budget. *)
Lemma negative_budget_sum_above :
  exists view ve,
    createView (H := NodeHost) sampleGraph (budgetOptions (-1)) 0 = Ok view
    /\ blocks view = []
    /\ tokenEstimate view = Some ve
    /\ v_tokens ve = 0
    /\ truncated ve = true
    /\ sumTokens sampleEstimator (blocks view) = 0
    /\ ~ (sumTokens sampleEstimator (blocks view) <= -1).
Proof.
  eexists. eexists.
  split; [vm_compute; reflexivity|].
  split; [reflexivity|].
  split; [reflexivity|].
  split; [reflexivity|].
  split; [reflexivity|].
  split; [reflexivity|].
  cbn. lia.
Qed.

(** C9, as amended (zero budget).  With an estimator, [maxTokens = 0] and
    a positive estimate for every selected block, the view is empty, its
    recorded total is 0, and [truncated] is set exactly when the selection
    is not empty. *)
Theorem zero_budget_view `{Host}
    (g : ContextGraph) (o : ViewOptions) (now : Z) (est : TokenEstimator) :
  o_tokenEstimator o = Some est ->
  o_maxTokens o = Some 0 ->
  (forall b, In b (select g (queryOf o)) -> 0 < tokens (estimateBlock est b)) ->
  exists view ve,
    createView g o now = Ok view
    /\ blocks view = []
    /\ tokenEstimate view = Some ve
    /\ v_tokens ve = 0
    /\ truncated ve
       = match select g (queryOf o) with [] => false | _ :: _ => true end.
Proof.
  intros Eest Emax Pos.
  unfold createView, createContextView. fold (queryOf o).
  rewrite sortBlocksDeterministic_ok, Eest, Emax. cbn [bind].
  assert (P' : forall b, In b (sortBy blockCmp (select g (queryOf o))) ->
                         0 < tokens (estimateBlock est b)).
  { intros b I. apply Pos. now apply (sortBy_In blockCmp). }
  assert (Em : sortBy blockCmp (select g (queryOf o)) = [] <->
               select g (queryOf o) = []).
  { split; intros E.
    - destruct (select g (queryOf o)) as [|x l]; [reflexivity|].
      assert (I : In x (sortBy blockCmp (x :: l)))
        by (apply sortBy_In; now left).
      rewrite E in I. destruct I.
    - now rewrite E. }
  destruct (sortBy blockCmp (select g (queryOf o))) as [|b sorted].
  - eexists. eexists. split; [reflexivity|]. cbn.
    rewrite (proj1 Em eq_refl). repeat split.
  - unfold applyTokenBudget. cbn [budgetLoop].
    assert (G : (0 + tokens (estimateBlock est b) >? 0) = true).
    { apply Z.gtb_lt. specialize (P' b (or_introl eq_refl)). lia. }
    rewrite G. eexists. eexists. split; [reflexivity|]. cbn.
    destruct (select g (queryOf o)) as [|x l].
    + destruct Em as [_ Em]. discriminate (Em eq_refl).
    + repeat split.
Qed.

Lemma zero_budget_view_witness :
  (forall b, In b (select sampleGraph (queryOf (budgetOptions 0))) ->
             0 < tokens (estimateBlock sampleEstimator b))
  /\ exists view ve,
       createView (H := NodeHost) sampleGraph (budgetOptions 0) 0 = Ok view
       /\ blocks view = []
       /\ tokenEstimate view = Some ve
       /\ v_tokens ve = 0
       /\ truncated ve
          = match select sampleGraph (queryOf (budgetOptions 0)) with
            | [] => false
            | _ :: _ => true
            end.
Proof.
  assert (P : forall b, In b (select sampleGraph (queryOf (budgetOptions 0))) ->
                        0 < tokens (estimateBlock sampleEstimator b)).
  { intros b [<-|[<-|[<-|[]]]]; reflexivity. }
  split; [exact P|].
  apply (zero_budget_view (H := NodeHost) sampleGraph (budgetOptions 0) 0
           (est := sampleEstimator)); [reflexivity|reflexivity|exact P].
Defined.

(** C9, as stated, fails on the empty graph: nothing is excluded, so
    [truncated] stays [false]. *)
Lemma zero_budget_empty_graph_not_truncated :
  ~ (exists view ve,
       createView (H := NodeHost) emptyGraph (budgetOptions 0) 0 = Ok view
       /\ blocks view = []
       /\ tokenEstimate view = Some ve
       /\ truncated ve = true).
Proof.
  intros (view & ve & E & _ & T & Tr).
  vm_compute in E. injection E as <-.
  cbn in T. injection T as <-. discriminate Tr.
Qed.

(** ** Exceptions over lists *)

Lemma mapM_Forall2 (X Y : Type) (f : X -> result Y) (l : list X)
    (ys : list Y) :
  mapM f l = Ok ys -> Forall2 (fun x y => f x = Ok y) l ys.
Proof.
  revert ys. induction l as [|x l IH]; simpl; intros ys E.
  - injection E as <-. constructor.
  - destruct (f x) as [y|] eqn:Fx; simpl in E; [|discriminate].
    destruct (mapM f l) as [ys'|]; simpl in E; [|discriminate].
    injection E as <-. constructor; auto.
Qed.

Lemma mapM_total (X Y : Type) (f : X -> result Y) (l : list X) :
  (forall x, In x l -> exists y, f x = Ok y) ->
  exists ys, mapM f l = Ok ys.
Proof.
  induction l as [|x l IH]; simpl; intros T.
  - now exists [].
  - destruct (T x (or_introl eq_refl)) as [y ->].
    destruct IH as [ys ->]; [intros; apply T; now right|].
    now exists (y :: ys).
Qed.

Lemma Forall2_nth_error_l (X Y : Type) (R : X -> Y -> Prop)
    (l : list X) (ys : list Y) (i : nat) (x : X) :
  Forall2 R l ys -> nth_error l i = Some x ->
  exists y, nth_error ys i = Some y /\ R x y.
Proof.
  intros F. revert i. induction F as [|a b l ys Rab F IH]; intros i E.
  - destruct i; discriminate.
  - destruct i as [|i]; simpl in *.
    + injection E as <-. now exists b.
    + now apply IH.
Qed.

Lemma Forall2_In_r (X Y : Type) (R : X -> Y -> Prop)
    (l : list X) (ys : list Y) (y : Y) :
  Forall2 R l ys -> In y ys -> exists x, In x l /\ R x y.
Proof.
  induction 1 as [|a b l ys Rab F IH]; intros I; [destruct I|].
  destruct I as [<-|I].
  - exists a. split; [now left|assumption].
  - destruct (IH I) as (x & Ix & Rx). exists x. split; [now right|assumption].
Qed.

(** ** Fork *)

Section ForkFacts.
Context `{Host}.

(** [createRedactedStub] always returns, and returns this block. *)
Lemma createRedactedStub_ok (b : ContextBlock) (reason : string) (now : Z) :
  exists h,
    createRedactedStub b reason now
    = Ok {| blockHash := h;
            meta := {| kind := kind (meta b);
                       sensitivity := public;
                       codecId := "redacted-stub";
                       codecVersion := "1.0.0";
                       createdAt := now / 1000;
                       source := source (meta b);
                       tags := tags (meta b) |};
            payload :=
              JObj [ ("originalBlockHash", JStr (blockHash b));
                     ("reason", JStr reason);
                     ("placeholder",
                      JStr "[REDACTED - Sensitive content removed]") ] |}.
Proof. eexists. reflexivity. Qed.

Lemma filterBySensitivity_total (view : ContextView)
    (maxSensitivity : SensitivityLevel) (now : Z) :
  exists out, filterBySensitivity view maxSensitivity now = Ok out.
Proof.
  apply mapM_total. intros b _.
  destruct (exceedsSensitivityLevel _ _).
  - destruct (createRedactedStub_ok b
                (redactionReason (sensitivity (meta b)) maxSensitivity) now)
      as [h E].
    rewrite E. eexists. reflexivity.
  - eexists. reflexivity.
Qed.
End ForkFacts.

Section ForkTheorems.
Context `{Host}.

Lemma filter_twice (X : Type) (p q : X -> bool) (l : list X) :
  List.filter q (List.filter p l) = List.filter (fun x => p x && q x) l.
Proof.
  induction l as [|x l IH]; simpl; [reflexivity|].
  destruct (p x); simpl; [destruct (q x)|]; now rewrite IH.
Qed.

Lemma filter_all (X : Type) (p : X -> bool) (l : list X) :
  (forall x, p x = true) -> List.filter p l = l.
Proof.
  intros T. induction l as [|x l IH]; simpl; [reflexivity|].
  now rewrite T, IH.
Qed.

(** What [createFork] returns in terms of [filterBySensitivity]. *)
Lemma createFork_blocks (parentView : ContextView)
    (options : ContextForkOptions) (now : Z) :
  exists out fork,
    filterBySensitivity parentView (maxSensitivityOf options) now = Ok out
    /\ createFork parentView options now = Ok fork
    /\ blocks fork
       = List.filter (fun b => keptKind options (kind (meta b))) out.
Proof.
  destruct (filterBySensitivity_total parentView (maxSensitivityOf options) now)
    as [out E].
  exists out. unfold createFork. fold (maxSensitivityOf options).
  rewrite E. cbn [bind]. eexists. split; [reflexivity|].
  split; [reflexivity|]. cbn [blocks]. unfold keptKind.
  destruct (notSet (includeHistory options)),
           (notSet (includeState options)); cbn [andb negb].
  - rewrite filter_twice. reflexivity.
  - apply filter_ext. intros b. now rewrite andb_true_r.
  - reflexivity.
  - symmetry. now apply filter_all.
Qed.

(** C5, as amended (fork redaction).  [filterBySensitivity] returns a
    list of the length of the parent view; it puts at the index of every
    block above the bound (by default [public]) a [redacted-stub] block,
    public, whose payload names the hash of the block and the reason
    "Sensitivity level '<lvl>' exceeds maximum '<max>'", and passes the
    other blocks through unchanged; [createFork] keeps of this list the
    blocks whose kind it includes, so the indices are those of the parent
    view when history and state are included. *)
Theorem fork_redaction (parentView : ContextView)
    (options : ContextForkOptions) (now : Z) :
  exists out fork,
    filterBySensitivity parentView (maxSensitivityOf options) now = Ok out
    /\ List.length out = List.length (blocks parentView)
    /\ createFork parentView options now = Ok fork
    /\ blocks fork
       = List.filter (fun b => keptKind options (kind (meta b))) out
    /\ (includeHistory options = Some true ->
        includeState options = Some true -> blocks fork = out)
    /\ forall i b,
         nth_error (blocks parentView) i = Some b ->
         exists e,
           nth_error out i = Some e
           /\ if exceedsSensitivityLevel (sensitivity (meta b))
                   (maxSensitivityOf options)
              then codecId (meta e) = "redacted-stub"
                   /\ sensitivity (meta e) = public
                   /\ payload e
                      = JObj
                          [ ("originalBlockHash", JStr (blockHash b));
                            ("reason",
                             JStr ("Sensitivity level '"
                                   ++ sensitivityName (sensitivity (meta b))
                                   ++ "' exceeds maximum '"
                                   ++ sensitivityName (maxSensitivityOf options)
                                   ++ "'"));
                            ("placeholder",
                             JStr "[REDACTED - Sensitive content removed]") ]
              else e = b.
Proof.
  destruct (createFork_blocks parentView options now)
    as (out & fork & Eout & Efork & Eb).
  exists out, fork. split; [exact Eout|].
  split; [symmetry; exact (Forall2_length (mapM_Forall2 _ _ Eout))|].
  split; [exact Efork|].
  split; [exact Eb|]. split.
  - intros Hh Hs. rewrite Eb. apply filter_all. intros b.
    unfold keptKind. now rewrite Hh, Hs.
  - intros i b Hb.
    destruct (Forall2_nth_error_l i (mapM_Forall2 _ _ Eout) Hb) as (e & He & Fe).
    exists e. split; [exact He|]. cbn beta in Fe.
    destruct (exceedsSensitivityLevel _ _).
    + destruct (createRedactedStub_ok b
                  (redactionReason (sensitivity (meta b))
                     (maxSensitivityOf options)) now) as [h Eh].
      rewrite Eh in Fe. injection Fe as <-. cbn. repeat split.
    + now injection Fe as <-.
Qed.

(** C10 (what a redacted stub keeps).  Every block of a fork is either a
    block of the parent view or a stub of one: the stub has the kind,
    source and tags of the block it replaces, is public, carries the codec
    [redacted-stub] 1.0.0 and the creation time read from the clock, and
    its payload has the three properties [originalBlockHash], [reason] and
    [placeholder] and no other.  The kinds of the fork are therefore the
    kinds of the parent view, in order, without those the fork leaves out. *)
Theorem redacted_stub_frame (parentView : ContextView)
    (options : ContextForkOptions) (now : Z) :
  exists fork,
    createFork parentView options now = Ok fork
    /\ List.map (fun b => kind (meta b)) (blocks fork)
       = List.filter (keptKind options)
           (List.map (fun b => kind (meta b)) (blocks parentView))
    /\ forall s,
         In s (blocks fork) ->
         (In s (blocks parentView)
          /\ exceedsSensitivityLevel (sensitivity (meta s))
               (maxSensitivityOf options) = false)
         \/ exists b,
              In b (blocks parentView)
              /\ exceedsSensitivityLevel (sensitivity (meta b))
                   (maxSensitivityOf options) = true
              /\ kind (meta s) = kind (meta b)
              /\ source (meta s) = source (meta b)
              /\ tags (meta s) = tags (meta b)
              /\ sensitivity (meta s) = public
              /\ codecId (meta s) = "redacted-stub"
              /\ codecVersion (meta s) = "1.0.0"
              /\ createdAt (meta s) = now / 1000
              /\ (exists reason,
                    payload s
                    = JObj
                        [ ("originalBlockHash", JStr (blockHash b));
                          ("reason", JStr reason);
                          ("placeholder",
                           JStr "[REDACTED - Sensitive content removed]") ]).
Proof.
  destruct (createFork_blocks parentView options now)
    as (out & fork & Eout & Efork & Eb).
  exists fork. split; [exact Efork|].
  pose proof (mapM_Forall2 _ _ Eout) as F.
  assert (K : forall b e,
             (if exceedsSensitivityLevel (sensitivity (meta b))
                   (maxSensitivityOf options)
              then createRedactedStub b
                     (redactionReason (sensitivity (meta b))
                        (maxSensitivityOf options)) now
              else Ok b) = Ok e ->
             kind (meta e) = kind (meta b)).
  { intros b e Fe. destruct (exceedsSensitivityLevel _ _).
    - destruct (createRedactedStub_ok b
                  (redactionReason (sensitivity (meta b))
                     (maxSensitivityOf options)) now) as [h Eh].
      rewrite Eh in Fe. now injection Fe as <-.
    - now injection Fe as <-. }
  split.
  - rewrite Eb. clear Eb Eout Efork.
    induction F as [|b e l out' Fe F IH]; [reflexivity|].
    cbn [List.map List.filter]. rewrite (K b e Fe).
    destruct (keptKind options (kind (meta b))); cbn [List.map];
      rewrite ?(K b e Fe), IH; reflexivity.
  - intros s Is. rewrite Eb in Is. apply filter_In in Is as [Is _].
    destruct (@Forall2_In_r _ _ _ _ _ s F Is) as (b & Ib & Fe). cbn beta in Fe.
    destruct (exceedsSensitivityLevel (sensitivity (meta b))
                (maxSensitivityOf options)) eqn:Ex.
    + right. exists b.
      destruct (createRedactedStub_ok b
                  (redactionReason (sensitivity (meta b))
                     (maxSensitivityOf options)) now) as [h Eh].
      rewrite Eh in Fe. injection Fe as <-. cbn.
      repeat split; try assumption. eexists. reflexivity.
    + left. injection Fe as <-. now split.
Qed.
End ForkTheorems.

(** C5, as stated, fails for [createFork] with the default options: the
    public state block at index 0 is dropped, so the stub of the
    restricted block at index 1 of the parent view sits at index 0 and
    index 1 of the fork is empty. *)
Lemma createFork_shifts_indices :
  exists pv fork b,
    createView (H := NodeHost) stateTurnGraph allBlocks 0 = Ok pv
    /\ createFork (H := NodeHost) pv (forkOptions None None None) 0 = Ok fork
    /\ nth_error (blocks pv) 1 = Some b
    /\ exceedsSensitivityLevel (sensitivity (meta b)) public = true
    /\ nth_error (blocks fork) 1 = None.
Proof.
  eexists. eexists. eexists.
  split; [vm_compute; reflexivity|].
  split; [vm_compute; reflexivity|].
  split; [reflexivity|]. split; reflexivity.
Qed.

(** ** Query merging *)

Lemma mergeStep_first_source (q : BlockQuery) :
  q_source (mergeStep emptyQuery q) = q_source q.
Proof. unfold mergeStep. cbn. now destruct (q_source q). Qed.

Lemma mergeStep_conflict (merged q : BlockQuery) (s1 s2 : string) :
  q_source merged = Some s1 -> q_source q = Some s2 -> s1 <> s2 ->
  q_kinds (mergeStep merged q) = Some []
  /\ q_source (mergeStep merged q) = Some s1.
Proof.
  intros E1 E2 N. unfold mergeStep. cbn [q_kinds q_source].
  rewrite E1, E2. cbn [sourceConflict].
  destruct (String.eqb_spec s1 s2) as [->|_]; [contradiction|].
  cbn. now split.
Qed.

(** Two queries with different sources merge into a query whose [kinds]
    is the empty array and whose source is the first one. *)
Lemma mergeQueries_conflict (q1 q2 : BlockQuery) (s1 s2 : string) :
  q_source q1 = Some s1 -> q_source q2 = Some s2 -> s1 <> s2 ->
  q_kinds (mergeQueries [q1; q2]) = Some []
  /\ q_source (mergeQueries [q1; q2]) = Some s1.
Proof.
  intros E1 E2 N. unfold mergeQueries. cbn [fold_left].
  apply mergeStep_conflict with (s2 := s2); [|exact E2|exact N].
  now rewrite mergeStep_first_source.
Qed.

(** [matchesQuery] reads an empty [kinds] as no constraint on the kind. *)
Lemma matchesQuery_empty_kinds (b : ContextBlock) (q : BlockQuery)
    (g : ContextGraph) :
  q_kinds q = Some [] ->
  matchesQuery b q g
  = matchesQuery b
      {| q_kinds := None; q_tags := q_tags q;
         q_minSensitivity := q_minSensitivity q;
         q_maxSensitivity := q_maxSensitivity q; q_source := q_source q;
         q_minCreatedAt := q_minCreatedAt q;
         q_maxCreatedAt := q_maxCreatedAt q;
         q_derivedFromAny := q_derivedFromAny q;
         q_notDerivedFromAny := q_notDerivedFromAny q;
         q_referencesAny := q_referencesAny q;
         q_excludeHashes := q_excludeHashes q; q_maxTokens := q_maxTokens q |}
      g.
Proof. intros E. unfold matchesQuery. cbn. rewrite E. reflexivity. Qed.

(** C6 at the failing input: the queries [{source: 'source1'}] and
    [{source: 'source2'}] merge into a query with [kinds = []], and
    selecting with it returns the block whose source is [source1]. *)
Lemma merged_conflicting_sources_select :
  q_kinds (mergeQueries [sourceQuery "source1"; sourceQuery "source2"])
  = Some []
  /\ select source1Graph
       (mergeQueries [sourceQuery "source1"; sourceQuery "source2"])
     = [source1Block].
Proof. split; reflexivity. Qed.

(** ** Gemini role alternation *)

Lemma alternating_snoc (rs : list Role) (a b : Role) :
  alternating (rs ++ [a]) -> a <> b -> alternating (rs ++ [a; b]).
Proof.
  induction rs as [|x rs IH]; intros A N.
  - simpl. tauto.
  - destruct rs as [|y rs].
    + simpl in *. tauto.
    + change (x <> y /\ alternating ((y :: rs) ++ [a; b])).
      change (x <> y /\ alternating ((y :: rs) ++ [a])) in A.
      split; [tauto|]. apply IH; tauto.
Qed.

Lemma Role_eqb_spec (a b : Role) : reflect (a = b) (Role_eqb a b).
Proof. destruct a, b; constructor; congruence. Qed.

(** From a state whose pending message has parts, messages with parts
    leave the loop in such a state, with alternating roles. *)
Lemma alternateLoop_alternating (messages : list GeminiMessage) :
  (forall m, In m messages -> parts m <> []) ->
  forall res r ps,
    ps <> [] ->
    alternating (List.map role res ++ [r]) ->
    exists res' r' ps',
      alternateLoop messages res (Some r) ps = (res', Some r', ps')
      /\ ps' <> []
      /\ alternating (List.map role res' ++ [r']).
Proof.
  induction messages as [|msg rest IH]; intros NE res r ps Pne A.
  - exists res, r, ps. now repeat split.
  - cbn [alternateLoop].
    destruct (Role_eqb_spec (role msg) r) as [E|N].
    + apply IH; [intros; apply NE; now right| |exact A].
      intros C. apply app_eq_nil in C. tauto.
    + destruct ps as [|p ps]; [contradiction|].
      apply IH; [intros; apply NE; now right|apply NE; now left|].
      rewrite map_app, <- app_assoc. cbn [List.map role app].
      apply alternating_snoc; [exact A|congruence].
Qed.

(** When every message has at least one part, the result has no two
    consecutive messages of the same role. *)
Lemma enforceAlternatingRoles_alternating (messages : list GeminiMessage) :
  (forall m, In m messages -> parts m <> []) ->
  alternating (List.map role (enforceAlternatingRoles messages)).
Proof.
  intros NE. unfold enforceAlternatingRoles.
  destruct messages as [|msg rest]; [exact I|].
  cbn [alternateLoop].
  destruct (alternateLoop_alternating rest
              (fun m Hm => NE m (or_intror Hm)) [] (role msg)
              (NE msg (or_introl eq_refl)) I)
    as (res' & r' & ps' & E & Pne & A).
  rewrite E. destruct ps' as [|p ps']; [contradiction|].
  rewrite map_app. exact A.
Qed.

(** The parts of the result are the parts of the input, in order. *)
Lemma alternateLoop_parts (messages : list GeminiMessage) :
  forall res r ps,
    (r = None -> ps = []) ->
    match alternateLoop messages res r ps with
    | (res', r', ps') =>
        (r' = None -> ps' = [])
        /\ (List.concat (List.map parts res') ++ ps')%list
           = (List.concat (List.map parts res) ++ ps
              ++ List.concat (List.map parts messages))%list
    end.
Proof.
  induction messages as [|msg rest IH]; intros res r ps P.
  - cbn. now rewrite app_nil_r.
  - cbn [alternateLoop List.map List.concat].
    destruct r as [r|].
    + destruct (Role_eqb (role msg) r).
      * specialize (IH res (Some r) (ps ++ parts msg)%list).
        destruct (alternateLoop rest res (Some r) (ps ++ parts msg)%list)
          as [[res' r'] ps'].
        destruct IH as [IH1 IH2]; [discriminate|]. split; [exact IH1|].
        rewrite IH2. now rewrite <- !app_assoc.
      * destruct ps as [|p ps].
        -- specialize (IH res (Some (role msg)) (parts msg)).
           destruct (alternateLoop rest res (Some (role msg)) (parts msg))
             as [[res' r'] ps'].
           destruct IH as [IH1 IH2]; [discriminate|]. split; [exact IH1|].
           rewrite IH2. reflexivity.
        -- specialize (IH (res ++ [{| role := r; parts := p :: ps |}])%list
                         (Some (role msg)) (parts msg)).
           destruct (alternateLoop rest
                       (res ++ [{| role := r; parts := p :: ps |}])%list
                       (Some (role msg)) (parts msg))
             as [[res' r'] ps'].
           destruct IH as [IH1 IH2]; [discriminate|]. split; [exact IH1|].
           rewrite IH2, map_app, concat_app. cbn [List.map List.concat parts].
           now rewrite app_nil_r, <- !app_assoc.
    + rewrite (P eq_refl).
      specialize (IH res (Some (role msg)) (parts msg)).
      destruct (alternateLoop rest res (Some (role msg)) (parts msg))
        as [[res' r'] ps'].
      destruct IH as [IH1 IH2]; [discriminate|]. split; [exact IH1|].
      rewrite IH2. reflexivity.
Qed.

Lemma enforceAlternatingRoles_parts (messages : list GeminiMessage) :
  List.concat (List.map parts (enforceAlternatingRoles messages))
  = List.concat (List.map parts messages).
Proof.
  unfold enforceAlternatingRoles.
  pose proof (@alternateLoop_parts messages [] None [] (fun _ => eq_refl))
    as L.
  destruct (alternateLoop messages [] None []) as [[res r] ps].
  destruct L as [L1 L2]. cbn [List.map List.concat app] in L2.
  destruct r as [r|].
  - destruct ps as [|p ps].
    + now rewrite app_nil_r in L2.
    + rewrite map_app, concat_app. cbn [List.map List.concat parts].
      now rewrite app_nil_r.
  - rewrite (L1 eq_refl), app_nil_r in L2. exact L2.
Qed.

(** C8 at the failing input: a message without parts between two user
    messages is dropped and the two user messages stay apart; the
    conversation-history codec renders such a message for an empty
    structured content. *)
Lemma gemini_same_role_neighbours :
  enforceAlternatingRoles
    [ {| role := user; parts := [textPart (JStr "a")] |};
      {| role := model_role; parts := [] |};
      {| role := user; parts := [textPart (JStr "b")] |} ]
  = [ {| role := user; parts := [textPart (JStr "a")] |};
      {| role := user; parts := [textPart (JStr "b")] |} ]
  /\ compileGeminiMessages [emptyContentHistory] historyRegistry
     = Ok [ {| role := user; parts := [textPart (JStr "a")] |};
            {| role := user; parts := [textPart (JStr "b")] |} ].
Proof. split; reflexivity. Qed.

(** ** Compaction provenance *)

Lemma string_length_append (a b : string) :
  String.length (a ++ b) = (String.length a + String.length b)%nat.
Proof. induction a as [|c a IH]; simpl; [reflexivity|now rewrite IH]. Qed.

Lemma substring_whole (a : string) : substring 0 (String.length a) a = a.
Proof. induction a as [|c a IH]; simpl; [reflexivity|now rewrite IH]. Qed.

Lemma substring_after (a b : string) :
  substring (String.length a) (String.length b) (a ++ b) = b.
Proof. induction a as [|c a IH]; simpl; [apply substring_whole|exact IH]. Qed.

Lemma endsWith_append (a suffix : string) : endsWith (a ++ suffix) suffix = true.
Proof.
  unfold endsWith. rewrite string_length_append.
  replace (String.length a + String.length suffix - String.length suffix)%nat
    with (String.length a) by lia.
  rewrite substring_after, String.eqb_refl, andb_true_r.
  apply Nat.leb_le. lia.
Qed.

Lemma map_set_In (V : Type) (m : jsmap V) (k : string) (v : V)
    (kv : string * V) :
  In kv (map_set m k v) -> kv = (k, v) \/ In kv m.
Proof.
  induction m as [|[k' v'] m IH]; simpl.
  - intros [<-|[]]. now left.
  - destruct (String.eqb k k'); simpl.
    + intros [<-|I]; [now left|right; now right].
    + intros [<-|I]; [right; now left|].
      destruct (IH I) as [->|I']; [now left|right; now right].
Qed.

Lemma map_get_In (V : Type) (m : jsmap V) (k : string) (v : V) :
  map_get m k = Some v -> In (k, v) m.
Proof.
  induction m as [|[k' v'] m IH]; simpl; [discriminate|].
  destruct (String.eqb_spec k k') as [->|N].
  - intros E. injection E as <-. now left.
  - intros E. right. now apply IH.
Qed.

Lemma In_firstn (X : Type) (n : nat) (l : list X) (x : X) :
  In x (firstn n l) -> In x l.
Proof.
  intros I. rewrite <- (firstn_skipn n l). apply in_or_app. now left.
Qed.

Lemma In_skipn (X : Type) (n : nat) (l : list X) (x : X) :
  In x (skipn n l) -> In x l.
Proof.
  intros I. rewrite <- (firstn_skipn n l). apply in_or_app. now right.
Qed.

Lemma slice_In (X : Type) (l : list X) (start : Z) (stop : option Z) (x : X) :
  In x (slice l start stop) -> In x l.
Proof.
  unfold slice. intros I. apply In_firstn in I. now apply In_skipn in I.
Qed.

Section CompactorFacts.
Context `{Host}.

Lemma createReplacementBlock_ok (original : ContextBlock) (newPayload : json)
    (method version : string) :
  createReplacementBlock original newPayload method version
  = Ok {| blockHash :=
            sha256_hex
              (serialize
                 (JObj [ ("meta",
                          JObj (extractStableMetaSubset (meta original)));
                         ("payload", newPayload) ]));
          meta :=
            {| kind := kind (meta original);
               sensitivity := sensitivity (meta original);
               codecId := codecId (meta original);
               codecVersion := codecVersion (meta original);
               createdAt := createdAt (meta original);
               source :=
                 Some (orUnknown (source (meta original)) ++ ":compacted");
               tags :=
                 Some (orEmpty (tags (meta original))
                         ++ [("compacted:" ++ method)%string])%list |};
          payload := newPayload |}.
Proof. reflexivity. Qed.

(** A kept block is pushed as it is, or replaced by
    [createReplacementBlock] with the method [tool_output_prune]. *)
Lemma pruneKept_cases (config : ToolOutputPruningConfig)
    (b e : ContextBlock) (flag : bool) :
  pruneKept config b = Ok (e, flag) ->
  e = b
  \/ exists newPayload,
       createReplacementBlock b newPayload "tool_output_prune" "1.0.0" = Ok e.
Proof.
  unfold pruneKept. intros E.
  destruct (prop (payload b) "output") as [output|]; [|discriminate].
  cbn [bind] in E.
  destruct (prop (payload b) "error") as [error|]; [|discriminate].
  cbn [bind] in E.
  destruct (prop (payload b) "status") as [status|]; [|discriminate].
  cbn [bind] in E.
  match type of E with
  | (if ?c then _ else _) = _ => destruct c
  end.
  - right.
    match type of E with
    | context [createReplacementBlock b ?np _ _] =>
        exists np;
        destruct (createReplacementBlock b np "tool_output_prune" "1.0.0")
          as [rb|]; [|discriminate]
    end.
    cbn [bind] in E. now injection E as <- _.
  - left. now injection E as <- _.
Qed.

Lemma groupByTool_members (tbs : list ContextBlock) (k : string)
    (l : list ContextBlock) (x : ContextBlock) :
  In (k, l) (groupByTool tbs) -> In x l -> In x tbs.
Proof.
  unfold groupByTool.
  assert (G : forall acc : jsmap (list ContextBlock),
             (forall k l x, In (k, l) acc -> In x l -> False) ->
             forall k l x,
               In (k, l)
                 (fold_left
                    (fun byTool block =>
                       let toolId := codecId (meta block) in
                       let byTool :=
                         if map_has byTool toolId then byTool
                         else map_set byTool toolId [] in
                       map_set byTool toolId
                         (match map_get byTool toolId with
                          | Some l => l
                          | None => []
                          end ++ [block])%list) tbs acc) ->
               In x l -> In x tbs).
  { induction tbs as [|b tbs IH] using rev_ind; intros acc A k0 l0 x0.
    - simpl. intros I1 I2. exfalso. eapply A; eassumption.
    - rewrite fold_left_app. cbn [fold_left].
      set (m := fold_left _ tbs acc).
      assert (M : forall k l x, In (k, l) m -> In x l -> In x tbs)
        by (intros; eapply IH; eassumption).
      clearbody m. intros I1 I2. apply in_or_app.
      set (m' := if map_has m (codecId (meta b)) then m
                 else map_set m (codecId (meta b)) []) in I1.
      assert (M' : forall k l x, In (k, l) m' -> In x l -> In x tbs).
      { subst m'. destruct (map_has m (codecId (meta b))); [exact M|].
        intros k1 l1 x1 I3 I4. apply map_set_In in I3 as [E|I3].
        - injection E as _ ->. destruct I4.
        - eapply M; eassumption. }
      apply map_set_In in I1 as [E|I1].
      + injection E as _ ->. apply in_app_or in I2 as [I2|[<-|[]]].
        * left. destruct (map_get m' (codecId (meta b))) as [l1|] eqn:Eg.
          -- apply map_get_In in Eg. eapply M'; eassumption.
          -- destruct I2.
        * right. now left.
      + left. eapply M'; eassumption. }
  apply G. intros ? ? ? [].
Qed.

Lemma pruneGroups_kept (config : ToolOutputPruningConfig)
    (groups : jsmap (list ContextBlock)) :
  forall kept removed replaced kept' removed' replaced',
    pruneGroups config groups kept removed replaced
    = Ok (kept', removed', replaced') ->
    forall e,
      In e kept' ->
      In e kept
      \/ exists k l b flag,
           In (k, l) groups /\ In b l /\ pruneKept config b = Ok (e, flag).
Proof.
  induction groups as [|[k l] groups IH];
    intros kept removed replaced kept' removed' replaced' E e Ie.
  - simpl in E. injection E as <- _ _. now left.
  - cbn [pruneGroups] in E.
    destruct (mapM (pruneKept config)
                (slice
                   (sortBy (fun a b => createdAt (meta a) - createdAt (meta b)) l)
                   (- maxOutputsPerTool config) None)) as [results|] eqn:Em;
      [|discriminate].
    cbn [bind] in E.
    destruct (IH _ _ _ _ _ _ E e Ie) as [I|(k1 & l1 & b & flag & I1 & I2 & P)].
    + apply in_app_or in I as [I|I]; [now left|]. right.
      apply in_map_iff in I as ([e' flag] & Ee & I). simpl in Ee. subst e'.
      destruct (@Forall2_In_r _ _ _ _ _ (e, flag) (mapM_Forall2 _ _ Em) I)
        as (b & Ib & Pb).
      exists k, l, b, flag. split; [now left|]. split; [|exact Pb].
      apply slice_In in Ib. now apply (sortBy_In _ l) in Ib.
    + right. exists k1, l1, b, flag. split; [now right|]. now split.
Qed.

(** Every block returned by [pruneToolOutputs] is a block of the input or
    the replacement of one. *)
Lemma pruneToolOutputs_blocks (bs : list ContextBlock)
    (config : ToolOutputPruningConfig) (r : PruneResult) :
  pruneToolOutputs bs config = Ok r ->
  forall s,
    In s (p_blocks r) ->
    In s bs
    \/ exists original newPayload,
         In original bs
         /\ createReplacementBlock original newPayload
              "tool_output_prune" "1.0.0" = Ok s.
Proof.
  unfold pruneToolOutputs. intros E s Is.
  destruct (pruneGroups config _ [] [] []) as [[[kept removed] replaced]|] eqn:Eg;
    [|discriminate].
  cbn [bind] in E. injection E as <-. cbn [p_blocks] in Is.
  apply in_app_or in Is as [Is|Is].
  - left. now apply filter_In in Is.
  - destruct (pruneGroups_kept _ _ _ _ _ Eg s Is)
      as [[]|(k & l & b & flag & I1 & I2 & P)].
    assert (Ib : In b bs).
    { apply (groupByTool_members _ _ _ _ I1) in I2.
      now apply filter_In in I2. }
    destruct (pruneKept_cases _ _ P) as [->|[np Er]].
    + now left.
    + right. now exists b, np.
Qed.
End CompactorFacts.

Section CompactorTheorems.
Context `{Host}.

Lemma dedupLoop_blocks (bs : list ContextBlock) :
  forall seen deduplicated removed s,
    In s (fst (dedupLoop bs seen deduplicated removed)) ->
    In s deduplicated \/ In s bs.
Proof.
  induction bs as [|b bs IH]; intros seen deduplicated removed s; simpl.
  - now left.
  - destruct (strIn (blockHash b) seen); intros I.
    + destruct (IH _ _ _ _ I); [now left|right; now right].
    + destruct (IH _ _ _ _ I) as [I'|I']; [|right; now right].
      apply in_app_or in I' as [I'|[<-|[]]]; [now left|right; now left].
Qed.

Lemma trimHistory_blocks (bs : list ContextBlock) (config : HistoryTrimConfig)
    (r : list ContextBlock * list ContextBlock) :
  trimHistory bs config = Ok r -> forall s, In s (fst r) -> In s bs.
Proof.
  unfold trimHistory. intros E s Is.
  assert (Ih : forall b, In b (List.filter (isKind history) bs) -> In b bs).
  { intros b Ib. now apply filter_In in Ib. }
  destruct (List.filter (isKind history) bs) as [|h0 hist'].
  { injection E as <-. exact Is. }
  cbn zeta in E.
  match type of E with
  | bind ?m _ = _ => destruct m as [flags|]; [|discriminate]
  end.
  cbn [bind] in E. injection E as <-. cbn [fst] in Is.
  apply in_app_or in Is as [Is|Is].
  - now apply filter_In in Is.
  - apply Ih. apply in_app_or in Is as [Is|Is].
    + apply slice_In in Is. now apply (sortBy_In _ (h0 :: hist')) in Is.
    + apply in_map_iff in Is as ([b f] & <- & Ib).
      apply filter_In in Ib as [Ib _]. apply in_combine_l in Ib.
      apply slice_In in Ib. now apply (sortBy_In _ (h0 :: hist')) in Ib.
Qed.

(** The blocks after one step are blocks that were there before, tool
    output replacements, or the block returned by the summarizer. *)
Lemma compactStep_blocks (config : PipelineCompactionConfig)
    (estimator : TokenEstimator) (bs bs' removed : list ContextBlock)
    (st : CompactionStep) (rep : StepReport) :
  compactStep config estimator bs st = Ok (bs', removed, rep) ->
  forall s,
    In s bs' ->
    In s bs
    \/ (exists original newPayload,
          In original bs
          /\ createReplacementBlock original newPayload
               "tool_output_prune" "1.0.0" = Ok s)
    \/ (exists sc summarize old target,
          summarization config = Some sc
          /\ summarizer sc = Some summarize
          /\ summarize old target = Ok s).
Proof.
  destruct st; cbn [compactStep]; intros E s Is.
  - injection E as <- _ _. left.
    destruct (dedupLoop_blocks bs [] [] [] s Is) as [[]|I]. exact I.
  - destruct (pruneToolOutputs bs _) as [r|] eqn:Ep; [|discriminate].
    cbn [bind] in E. injection E as <- _ _.
    destruct (pruneToolOutputs_blocks _ _ Ep s Is) as [I|I];
      [now left|right; now left].
  - destruct (trimHistory bs _) as [r|] eqn:Et; [|discriminate].
    cbn [bind] in E. injection E as <- _ _. left.
    eapply trimHistory_blocks; eassumption.
  - destruct (summarization config) as [sc|]; [|injection E as <- _ _; now left].
    destruct (summarizer sc) as [sm|] eqn:Esm;
      [|injection E as <- _ _; now left].
    destruct (_ <? _); [injection E as <- _ _; now left|].
    cbn zeta in E.
    set (hist := List.filter (isKind history) bs) in E.
    set (olds := slice hist 0 (Some (Z.opp 10))) in E.
    destruct olds as [|o old] eqn:Eo; [injection E as <- _ _; now left|].
    destruct (sm (o :: old) _) as [sb|] eqn:Es; [|discriminate].
    cbn [bind] in E. injection E as <- _ _.
    apply in_app_or in Is as [Is|[<-|Is]].
    + left. now apply filter_In in Is.
    + right. right. exists sc, sm. eexists. eexists.
      split; [reflexivity|]. split; [exact Esm|exact Es].
    + left. apply slice_In in Is. now apply filter_In in Is.
Qed.

(** What [AnthropicSummarizer.summarize] returns, when it returns. *)
Lemma AnthropicSummarizer_block (client : AnthropicClient) (now : Z)
    (bs : list ContextBlock) (targetTokens : Z) (sb : ContextBlock) :
  AnthropicSummarizer_summarize client now bs targetTokens = Ok sb ->
  exists first rest summary,
    bs = first :: rest
    /\ kind (meta sb) = history
    /\ tags (meta sb) = Some (orEmpty (tags (meta first)) ++ ["summarized"])%list
    /\ source (meta sb)
       = Some (orUnknown (source (meta first)) ++ ":summarized")
    /\ payload sb
       = JObj [ ("summary", summary);
                ("originalBlockCount", JNum (Z.of_nat (List.length bs)));
                ("summarizedAt", JNum now) ]
    /\ computeBlockHash (FullMeta (meta first)) (payload sb) None
       = Ok (blockHash sb).
Proof.
  unfold AnthropicSummarizer_summarize. intros E.
  destruct (mapM summaryLines bs) as [msgs|]; [|discriminate].
  cbn [bind] in E.
  destruct (messages_create client _ _ _) as [response|]; [|discriminate].
  cbn [bind] in E.
  destruct (prop response "content") as [content|]; [|discriminate].
  cbn [bind] in E.
  destruct (firstElement content) as [first|]; [|discriminate].
  cbn [bind] in E.
  destruct (prop first "type") as [type|]; [|discriminate].
  cbn [bind] in E.
  match type of E with
  | bind ?m _ = _ => destruct m as [summary|]; [|discriminate]
  end.
  cbn [bind] in E.
  destruct bs as [|b rest]; [discriminate|].
  unfold computeBlockHash, hashedObject in E. cbn [bind] in E.
  injection E as <-.
  exists b, rest, summary. cbn [meta tags source payload kind blockHash].
  repeat split.
Qed.

(** C7, as amended (provenance of successor blocks).  Every block of the
    result of [compactView] is a block of the view, a replacement made by
    the tool output pruning, or the block returned by the configured
    summarizer.  A replacement has the tag [compacted:tool_output_prune],
    a source ending with [:compacted], and the hash [computeBlockHash]
    gives for its metadata and new payload.  The block returned by
    [AnthropicSummarizer.summarize] has the tags of the first summarized
    block followed by [summarized], as source the source of the first
    summarized block, or [unknown] when it has none, followed by
    [:summarized], the summary payload, and the hash computed from that
    payload. *)
Theorem compaction_provenance (view : ContextView)
    (config : PipelineCompactionConfig) (estimator : TokenEstimator)
    (res : CompactionResult) :
  compactView view config estimator = Ok res ->
  (forall s,
     In s (c_blocks res) ->
     In s (blocks view)
     \/ ((exists ts, tags (meta s) = Some ts
                     /\ In "compacted:tool_output_prune" ts)
         /\ (exists src, source (meta s) = Some src
                         /\ endsWith src ":compacted" = true)
         /\ computeBlockHash (FullMeta (meta s)) (payload s) None
            = Ok (blockHash s))
     \/ (exists sc summarize old target,
           summarization config = Some sc
           /\ summarizer sc = Some summarize
           /\ summarize old target = Ok s))
  /\ (forall client now bs target sb,
        AnthropicSummarizer_summarize client now bs target = Ok sb ->
        exists first rest,
          bs = first :: rest
          /\ (exists ts, tags (meta sb) = Some ts /\ In "summarized" ts)
          /\ tags (meta sb)
             = Some (orEmpty (tags (meta first)) ++ ["summarized"])%list
          /\ (exists src, source (meta sb) = Some src
                          /\ endsWith src ":summarized" = true)
          /\ source (meta sb)
             = Some (match source (meta first) with
                     | Some src => src
                     | None => "unknown"
                     end ++ ":summarized")
          /\ (exists summary,
                payload sb
                = JObj [ ("summary", summary);
                         ("originalBlockCount",
                          JNum (Z.of_nat (List.length bs)));
                         ("summarizedAt", JNum now) ])
          /\ computeBlockHash (FullMeta (meta first)) (payload sb) None
             = Ok (blockHash sb)).
Proof.
  intros E. split.
  - unfold compactView in E.
    destruct (compactLoop config estimator (steps config) (blocks view) [] [])
      as [[[bs rm] reps]|] eqn:El; [|discriminate].
    cbn [bind] in E. injection E as <-. cbn [c_blocks].
    set (Q := fun s : ContextBlock =>
                In s (blocks view)
                \/ ((exists ts, tags (meta s) = Some ts
                                /\ In "compacted:tool_output_prune" ts)
                    /\ (exists src, source (meta s) = Some src
                                    /\ endsWith src ":compacted" = true)
                    /\ computeBlockHash (FullMeta (meta s)) (payload s) None
                       = Ok (blockHash s))
                \/ (exists sc summarize old target,
                      summarization config = Some sc
                      /\ summarizer sc = Some summarize
                      /\ summarize old target = Ok s)).
    assert (G : forall todo cur rm0 reps0 bs1 rm1 reps1,
               compactLoop config estimator todo cur rm0 reps0
               = Ok (bs1, rm1, reps1) ->
               (forall s, In s cur -> Q s) ->
               forall s, In s bs1 -> Q s).
    { induction todo as [|st todo IH];
        intros cur rm0 reps0 bs1 rm1 reps1 L Hc s Is.
      - cbn in L. injection L as <- _ _. now apply Hc.
      - cbn [compactLoop] in L.
        destruct (compactStep config estimator cur st)
          as [[[bs' removed] rp]|] eqn:Es; [|discriminate].
        cbn [bind] in L.
        apply (IH _ _ _ _ _ _ L); [|exact Is].
        intros s' Is'.
        destruct (compactStep_blocks _ _ _ _ Es s' Is')
          as [I|[(o & np & Io & Er)|S]].
        + now apply Hc.
        + right. left. rewrite createReplacementBlock_ok in Er.
          injection Er as <-. cbn [meta tags source payload blockHash].
          split.
          { eexists. split; [reflexivity|]. apply in_or_app. right. now left. }
          split.
          { eexists. split; [reflexivity|]. apply endsWith_append. }
          reflexivity.
        + right. right. exact S. }
    intros s Is. apply (G _ _ _ _ _ _ _ El); [|exact Is].
    intros s' I'. now left.
  - intros client now bs target sb Es.
    destruct (AnthropicSummarizer_block _ _ _ _ Es)
      as (first & rest & summary & Eb & _ & Et & Esrc & Ep & Eh).
    exists first, rest. split; [exact Eb|]. split.
    { eexists. split; [exact Et|]. apply in_or_app. right. now left. }
    split; [exact Et|]. split.
    { eexists. split; [exact Esrc|]. apply endsWith_append. }
    split; [exact Esrc|]. split; [|exact Eh].
    exists summary. exact Ep.
Qed.
End CompactorTheorems.

Lemma compaction_provenance_witness :
  exists view res,
    createView (H := NodeHost) toolOutputGraph allBlocks 0 = Ok view
    /\ compactView (H := NodeHost) view pruneConfig sampleEstimator = Ok res
    /\ (forall s,
          In s (c_blocks res) ->
          In s (blocks view)
          \/ ((exists ts, tags (meta s) = Some ts
                          /\ In "compacted:tool_output_prune" ts)
              /\ (exists src, source (meta s) = Some src
                              /\ endsWith src ":compacted" = true)
              /\ computeBlockHash (H := NodeHost) (FullMeta (meta s))
                   (payload s) None
                 = Ok (blockHash s))
          \/ (exists sc summarize old target,
                summarization pruneConfig = Some sc
                /\ summarizer sc = Some summarize
                /\ summarize old target = Ok s)).
Proof.
  eexists. eexists.
  split; [vm_compute; reflexivity|].
  split; [vm_compute; reflexivity|].
  refine (proj1 (@compaction_provenance NodeHost _ pruneConfig
                   sampleEstimator _ _)).
  vm_compute. reflexivity.
Defined.

(** C7, as stated, fails for the summary block: with the Anthropic
    summarizer the [summarize_history] step puts in front of the ten most
    recent history blocks of the view a new block tagged [summarized]
    only, whose source ends with [:summarized]. *)
Lemma summary_block_not_marked_compacted :
  exists view res sb,
    createView (H := NodeHost) elevenHistoryGraph allBlocks 0 = Ok view
    /\ compactView (H := NodeHost) view (summarizeConfig (H := NodeHost))
         sampleEstimator = Ok res
    /\ nth_error (c_blocks res) 0 = Some sb
    /\ existsb (fun b => String.eqb (blockHash b) (blockHash sb))
         (blocks view) = false
    /\ List.length (removedBlocks res) = 1%nat
    /\ tags (meta sb) = Some ["summarized"]
    /\ strIn "compacted:summarize_history" ["summarized"] = false
    /\ source (meta sb) = Some "unknown:summarized"
    /\ endsWith "unknown:summarized" ":compacted" = false.
Proof.
  eexists. eexists. eexists.
  split; [vm_compute; reflexivity|].
  split; [vm_compute; reflexivity|].
  split; [reflexivity|].
  split; [vm_compute; reflexivity|].
  repeat split.
Qed.

(** ** Sorted lists *)

(** Sorted lists with the same members are equal. *)
Lemma sorted_perm_eq (X : Type) (le : X -> X -> Prop) (l1 l2 : list X) :
  (forall a b, le a b -> le b a -> a = b) ->
  StronglySorted le l1 -> StronglySorted le l2 -> Permutation l1 l2 ->
  l1 = l2.
Proof.
  intros Anti S1. revert l2.
  induction S1 as [|x l1 S1 IH F1]; intros l2 S2 P.
  - apply Permutation_nil in P. now subst.
  - destruct l2 as [|y l2].
    { apply Permutation_sym, Permutation_nil in P. discriminate. }
    apply StronglySorted_inv in S2 as [S2 F2].
    assert (E : x = y).
    { assert (Ix : In x (y :: l2))
        by (eapply Permutation_in; [exact P|now left]).
      assert (Iy : In y (x :: l1))
        by (eapply Permutation_in; [exact (Permutation_sym P)|now left]).
      destruct Ix as [->|Ix]; [reflexivity|].
      destruct Iy as [->|Iy]; [reflexivity|].
      apply Anti.
      - now apply (proj1 (Forall_forall _ _) F1).
      - now apply (proj1 (Forall_forall _ _) F2). }
    subst y. f_equal. apply IH; [exact S2|].
    eapply Permutation_cons_inv; exact P.
Qed.

Lemma sortedKeys_perm (l1 l2 : list string) :
  Permutation l1 l2 ->
  sortBy codeUnitCompare l1 = sortBy codeUnitCompare l2.
Proof.
  intros P.
  assert (SS : forall l, StronglySorted (fun a b => codeUnitCompare a b <= 0)
                           (sortBy codeUnitCompare l)).
  { intros l. apply Sorted_StronglySorted.
    - intros a b c. apply codeUnitCompare_trans.
    - apply sortBy_sorted, codeUnitCompare_total. }
  apply sorted_perm_eq with (le := fun a b => codeUnitCompare a b <= 0).
  - apply codeUnitCompare_antisym.
  - apply SS.
  - apply SS.
  - rewrite !sortBy_perm. exact P.
Qed.

(** ** Key order and [sortObjectKeys] *)

Lemma keys_map_values (f : json -> json) (o : jobject) :
  keys (List.map (fun kv => (fst kv, f (snd kv))) o) = keys o.
Proof. unfold keys. rewrite map_map. reflexivity. Qed.

Lemma get_map_values (f : json -> json) (o : jobject) (k : string) :
  f JUndefined = JUndefined ->
  get (List.map (fun kv => (fst kv, f (snd kv))) o) k = f (get o k).
Proof.
  intros U. induction o as [|[k' v] o IH]; simpl; [now rewrite U|].
  now destruct (String.eqb k k').
Qed.

Lemma get_notin (o : jobject) (k : string) :
  ~ In k (keys o) -> get o k = JUndefined.
Proof.
  induction o as [|[k' v] o IH]; simpl; intros N; [reflexivity|].
  destruct (String.eqb_spec k k') as [->|_]; [tauto|].
  apply IH. tauto.
Qed.

Lemma fold_left_ext_in (X Y : Type) (f g : X -> Y -> X) (l : list Y) (a : X) :
  (forall x y, In y l -> f x y = g x y) ->
  fold_left f l a = fold_left g l a.
Proof.
  revert a. induction l as [|y l IH]; simpl; intros a E; [reflexivity|].
  rewrite E by now left. apply IH. intros; apply E; now right.
Qed.

(** The object built by the loop depends on the set of keys and on the
    value of each key, not on the order of the properties. *)
Lemma assignSorted_ext (v1 v2 : jobject) :
  NoDup (keys v1) -> NoDup (keys v2) ->
  (forall k, In k (keys v1) <-> In k (keys v2)) ->
  (forall k, In k (keys v1) -> get v1 k = get v2 k) ->
  assignSorted v1 = assignSorted v2.
Proof.
  intros N1 N2 M G. unfold assignSorted, sortedKeys.
  rewrite <- (sortedKeys_perm (NoDup_Permutation N1 N2 M)).
  apply fold_left_ext_in. intros sorted key I.
  rewrite G; [reflexivity|]. now apply (sortBy_In codeUnitCompare).
Qed.

(** [sortObjectKeys] does not see the key order of the object it is given,
    nor that of the objects nested in it through objects. *)
Lemma sortNested_keyOrderEq (v1 v2 : json) :
  keyOrderEq v1 v2 -> sortNested v1 = sortNested v2.
Proof.
  induction 1 as [v|o1 o2 N1 N2 M K IH]; [reflexivity|].
  cbn [sortNested]. f_equal. apply assignSorted_ext.
  - now rewrite keys_map_values.
  - now rewrite keys_map_values.
  - intros k. now rewrite !keys_map_values.
  - intros k I. rewrite keys_map_values in I.
    rewrite !(get_map_values sortNested) by reflexivity. now apply IH.
Qed.

Lemma sortObjectKeys_keyOrderEq (o1 o2 : jobject) :
  keyOrderEq (JObj o1) (JObj o2) -> sortObjectKeys o1 = sortObjectKeys o2.
Proof.
  intros K. apply sortNested_keyOrderEq in K. cbn [sortNested] in K.
  now injection K.
Qed.






(** ** Block hash *)

(** C2 (volatile fields).  Two metadata records with the same kind,
    sensitivity, codec id and codec version give the same block hash for
    the same payload and codec, whatever their [createdAt], [source] and
    [tags]. *)
Theorem volatile_fields_invariance `{Host} (m1 m2 : BlockMeta) (p : json)
    (codec : option BlockCodec) :
  kind m1 = kind m2 ->
  sensitivity m1 = sensitivity m2 ->
  codecId m1 = codecId m2 ->
  codecVersion m1 = codecVersion m2 ->
  computeBlockHash (FullMeta m1) p codec
  = computeBlockHash (FullMeta m2) p codec.
Proof.
  intros K S I V. unfold computeBlockHash, hashedObject, stableMetaOf,
    extractStableMetaSubset.
  now rewrite K, S, I, V.
Qed.

Lemma volatile_fields_invariance_witness :
  computeBlockHash (H := NodeHost)
    (FullMeta (historyMeta 1000 None (Some ["tag1"]))) structuredHistory1
    (Some ConversationHistoryCodec)
  = computeBlockHash (H := NodeHost)
      (FullMeta (historyMeta 2000 (Some "session-7") (Some ["tag2"])))
      structuredHistory1 (Some ConversationHistoryCodec).
Proof.
  apply (volatile_fields_invariance (H := NodeHost)); reflexivity.
Defined.





(* ================================================================== *)
(** * Further properties *)

(** ** Insertion-ordered maps *)

Lemma map_get_set_same (V : Type) (m : jsmap V) (k : string) (v : V) :
  map_get (map_set m k v) k = Some v.
Proof.
  induction m as [|[k' v'] m IH]; simpl.
  - now rewrite String.eqb_refl.
  - destruct (String.eqb k k') eqn:E; simpl.
    + now rewrite String.eqb_refl.
    + now rewrite E.
Qed.

Lemma map_get_set_other (V : Type) (m : jsmap V) (k k' : string) (v : V) :
  k' <> k -> map_get (map_set m k v) k' = map_get m k'.
Proof.
  intros N. induction m as [|[k0 v0] m IH]; simpl.
  - destruct (String.eqb_spec k' k); [contradiction|reflexivity].
  - destruct (String.eqb_spec k k0) as [->|N0]; simpl.
    + destruct (String.eqb_spec k' k0); [contradiction|reflexivity].
    + destruct (String.eqb k' k0); [reflexivity|exact IH].
Qed.

Lemma map_get_delete_same (V : Type) (m : jsmap V) (k : string) :
  map_get (map_delete m k) k = None.
Proof.
  unfold map_delete. induction m as [|[k' v'] m IH]; simpl; [reflexivity|].
  destruct (String.eqb k k') eqn:E; simpl; [exact IH|].
  now rewrite E.
Qed.

Lemma map_get_delete_other (V : Type) (m : jsmap V) (k k' : string) :
  k' <> k -> map_get (map_delete m k) k' = map_get m k'.
Proof.
  intros N. unfold map_delete.
  induction m as [|[k0 v0] m IH]; simpl; [reflexivity|].
  destruct (String.eqb_spec k k0) as [->|N0]; simpl.
  - destruct (String.eqb_spec k' k0); [contradiction|exact IH].
  - destruct (String.eqb k' k0); [reflexivity|exact IH].
Qed.

Lemma map_get_some_in (V : Type) (m : jsmap V) (k : string) (v : V) :
  map_get m k = Some v -> In k (List.map fst m).
Proof.
  induction m as [|[k' v'] m IH]; simpl; [discriminate|].
  destruct (String.eqb_spec k k') as [->|N]; [now left|].
  intros E. right. now apply IH.
Qed.

Lemma map_get_notin_none (V : Type) (m : jsmap V) (k : string) :
  ~ In k (List.map fst m) -> map_get m k = None.
Proof.
  intros N. destruct (map_get m k) eqn:E; [|reflexivity].
  now apply map_get_some_in in E.
Qed.

Lemma map_set_keys (V : Type) (m : jsmap V) (k : string) (v : V) :
  List.map fst (map_set m k v)
  = if map_has m k then List.map fst m else (List.map fst m ++ [k])%list.
Proof.
  unfold map_has. induction m as [|[k' v'] m IH]; simpl; [reflexivity|].
  destruct (String.eqb_spec k k') as [->|N]; simpl; [reflexivity|].
  rewrite IH. now destruct (map_get m k).
Qed.

Lemma NoDup_snoc (X : Type) (l : list X) (x : X) :
  NoDup l -> ~ In x l -> NoDup (l ++ [x]).
Proof.
  intros N Nin. apply NoDup_app; [assumption|repeat constructor; simpl; tauto|].
  intros y Iy [<-|[]]. contradiction.
Qed.

Lemma map_set_NoDup (V : Type) (m : jsmap V) (k : string) (v : V) :
  NoDup (List.map fst m) -> NoDup (List.map fst (map_set m k v)).
Proof.
  intros N. rewrite map_set_keys. unfold map_has.
  destruct (map_get m k) eqn:E; [assumption|].
  apply NoDup_snoc; [assumption|]. now apply map_get_none_notin.
Qed.

Lemma map_delete_keys (V : Type) (m : jsmap V) (k : string) :
  List.map fst (map_delete m k)
  = List.filter (fun k' => negb (String.eqb k k')) (List.map fst m).
Proof.
  unfold map_delete. induction m as [|[k' v'] m IH]; simpl; [reflexivity|].
  destruct (String.eqb k k'); simpl; now rewrite IH.
Qed.

(** ** Graph *)

Lemma Reachable_edges (g : ContextGraph) :
  Reachable g -> edgesWithinBlocks g.
Proof.
  induction 1 as [|g b d r R (N1 & N2 & I1 & I2)|g h R (N1 & N2 & I1 & I2)].
  - repeat split; simpl; try constructor; intros x [].
  - unfold addBlock. destruct (map_has (g_blocks g) (blockHash b)) eqn:E;
      [now repeat split|].
    unfold edgesWithinBlocks. simpl.
    rewrite (map_set_keys (g_blocks g)), E.
    repeat split.
    + destruct (nonEmpty d); [now apply map_set_NoDup|assumption].
    + destruct (nonEmpty r); [now apply map_set_NoDup|assumption].
    + destruct (nonEmpty d); intros x Ix.
      * rewrite map_set_keys in Ix. apply in_or_app.
        destruct (map_has (g_derivedFrom g) (blockHash b)).
        -- left. now apply I1.
        -- apply in_app_or in Ix as [Ix|Ix]; [left; now apply I1|now right].
      * apply in_or_app. left. now apply I1.
    + destruct (nonEmpty r); intros x Ix.
      * rewrite map_set_keys in Ix. apply in_or_app.
        destruct (map_has (g_references g) (blockHash b)).
        -- left. now apply I2.
        -- apply in_app_or in Ix as [Ix|Ix]; [left; now apply I2|now right].
      * apply in_or_app. left. now apply I2.
  - unfold edgesWithinBlocks. simpl. rewrite !map_delete_keys.
    repeat split.
    + now apply NoDup_filter.
    + now apply NoDup_filter.
    + intros x Ix. apply filter_In in Ix as [Ix Px]. apply filter_In.
      split; [now apply I1|assumption].
    + intros x Ix. apply filter_In in Ix as [Ix Px]. apply filter_In.
      split; [now apply I2|assumption].
Qed.

Lemma Reachable_no_dangling (g : ContextGraph) (h : string) :
  Reachable g -> hasBlock g h = false ->
  map_get (g_derivedFrom g) h = None /\ map_get (g_references g) h = None.
Proof.
  intros R E. destruct (Reachable_edges R) as (_ & _ & I1 & I2).
  unfold hasBlock, map_has in E.
  destruct (map_get (g_blocks g) h) eqn:Eb; [discriminate|].
  apply map_get_none_notin in Eb.
  split; apply map_get_notin_none; intros I; apply Eb; auto.
Qed.

Lemma addBlock_fresh (g : ContextGraph) (b : ContextBlock)
    (d : option (list BlockRef)) (r : option (list string)) :
  Reachable g -> hasBlock g (blockHash b) = false ->
  getAllBlocks (addBlock g b d r) = (getAllBlocks g ++ [b])%list
  /\ getDerivedFrom (addBlock g b d r) (blockHash b) = orEmpty d
  /\ getReferences (addBlock g b d r) (blockHash b) = orEmpty r.
Proof.
  intros R E. destruct (Reachable_no_dangling _ R E) as [E1 E2].
  unfold hasBlock in E. unfold getAllBlocks, getDerivedFrom, getReferences,
    addBlock.
  rewrite E. cbn [g_blocks g_derivedFrom g_references].
  unfold map_has in E.
  destruct (map_get (g_blocks g) (blockHash b)) eqn:Eb; [discriminate|].
  rewrite map_set_fresh by exact Eb. unfold map_values. rewrite map_app.
  split; [reflexivity|]. split.
  - destruct d as [[|x d]|]; cbn [nonEmpty orEmpty];
      rewrite ?map_get_set_same, ?E1; reflexivity.
  - destruct r as [[|x r]|]; cbn [nonEmpty orEmpty];
      rewrite ?map_get_set_same, ?E2; reflexivity.
Qed.

Lemma addBlock_other (g : ContextGraph) (b : ContextBlock)
    (d : option (list BlockRef)) (r : option (list string)) (h : string) :
  h <> blockHash b ->
  hasBlock (addBlock g b d r) h = hasBlock g h
  /\ getDerivedFrom (addBlock g b d r) h = getDerivedFrom g h
  /\ getReferences (addBlock g b d r) h = getReferences g h.
Proof.
  intros N. unfold hasBlock, getDerivedFrom, getReferences, addBlock, map_has.
  destruct (map_get (g_blocks g) (blockHash b)); [now repeat split|].
  cbn [g_blocks g_derivedFrom g_references].
  rewrite map_get_set_other by exact N. repeat split.
  - destruct (nonEmpty d); [now rewrite map_get_set_other|reflexivity].
  - destruct (nonEmpty r); [now rewrite map_get_set_other|reflexivity].
Qed.

(** X1.  After [addBlock], looking the block's hash up gives the block
    that was already stored under this hash when there was one (the new
    block is then ignored) and the new block otherwise; every other hash
    is looked up as before. *)
Theorem addBlock_then_getBlock (g : ContextGraph) (b : ContextBlock)
    (d : option (list BlockRef)) (r : option (list string)) :
  getBlock (addBlock g b d r) (blockHash b)
  = Some (match getBlock g (blockHash b) with
          | Some stored => stored
          | None => b
          end)
  /\ hasBlock (addBlock g b d r) (blockHash b) = true
  /\ forall h, h <> blockHash b ->
               getBlock (addBlock g b d r) h = getBlock g h.
Proof.
  unfold getBlock, hasBlock, addBlock, map_has.
  destruct (map_get (g_blocks g) (blockHash b)) eqn:E.
  - rewrite E. repeat split; reflexivity.
  - simpl. rewrite map_get_set_same. repeat split.
    intros h N. now apply map_get_set_other.
Qed.

(** X2.  In a graph built by [addBlock] and [removeBlock], adding a block
    whose hash is not stored yet records exactly the edges given with it:
    [getDerivedFrom] and [getReferences] return the given lists (the empty
    list when none is given), and the edges of every other hash are
    unchanged.  When the hash is already stored the given edges are
    dropped. *)
Theorem addBlock_records_edges (g : ContextGraph) (b : ContextBlock)
    (d : option (list BlockRef)) (r : option (list string)) :
  Reachable g ->
  (hasBlock g (blockHash b) = false ->
   getDerivedFrom (addBlock g b d r) (blockHash b) = orEmpty d
   /\ getReferences (addBlock g b d r) (blockHash b) = orEmpty r)
  /\ (hasBlock g (blockHash b) = true ->
      getDerivedFrom (addBlock g b d r) (blockHash b)
      = getDerivedFrom g (blockHash b)
      /\ getReferences (addBlock g b d r) (blockHash b)
         = getReferences g (blockHash b))
  /\ forall h, h <> blockHash b ->
       getDerivedFrom (addBlock g b d r) h = getDerivedFrom g h
       /\ getReferences (addBlock g b d r) h = getReferences g h.
Proof.
  intros R. split; [|split].
  - intros E. now destruct (addBlock_fresh b d r R E) as (_ & E1 & E2).
  - intros E. unfold hasBlock in E. unfold addBlock. now rewrite E.
  - intros h N. now destruct (@addBlock_other g b d r h N) as (_ & E1 & E2).
Qed.

Lemma addBlock_records_edges_witness :
  Reachable (addBlock emptyGraph (sampleBlock hashB pinned public) None None)
  /\ getDerivedFrom derivedGraph hashC = [ {| refHash := hashB |} ]
  /\ getReferences derivedGraph hashC = [hashB].
Proof.
  assert (R : Reachable
                (addBlock emptyGraph (sampleBlock hashB pinned public)
                   None None)) by (repeat constructor).
  split; [exact R|].
  exact (proj1 (@addBlock_records_edges _ (sampleBlock hashC memory internal)
                  (Some [ {| refHash := hashB |} ]) (Some [hashB]) R)
           eq_refl).
Defined.

(** X3.  [removeBlock] returns whether the hash was stored; afterwards the
    hash is not stored and has neither derivation nor reference edges,
    and the block and the edges of every other hash are as before. *)
Theorem removeBlock_clears_block_and_edges (g : ContextGraph) (h : string) :
  snd (removeBlock g h) = hasBlock g h
  /\ hasBlock (fst (removeBlock g h)) h = false
  /\ getBlock (fst (removeBlock g h)) h = None
  /\ getDerivedFrom (fst (removeBlock g h)) h = []
  /\ getReferences (fst (removeBlock g h)) h = []
  /\ forall h', h' <> h ->
       getBlock (fst (removeBlock g h)) h' = getBlock g h'
       /\ getDerivedFrom (fst (removeBlock g h)) h' = getDerivedFrom g h'
       /\ getReferences (fst (removeBlock g h)) h' = getReferences g h'.
Proof.
  unfold hasBlock, getBlock, getDerivedFrom, getReferences, map_has. simpl.
  rewrite !map_get_delete_same. repeat split; try reflexivity;
    now rewrite map_get_delete_other.
Qed.

(** X4.  In a graph built by [addBlock] and [removeBlock] only stored
    blocks have edges: a hash that is not stored has no derivation and no
    reference edges, and [getStats] never counts more entries of either
    kind of edge than blocks. *)
Theorem edges_only_for_stored_blocks (g : ContextGraph) :
  Reachable g ->
  (forall h, hasBlock g h = false ->
             getDerivedFrom g h = [] /\ getReferences g h = [])
  /\ derivationEdgeCount (getStats g) <= blockCount (getStats g)
  /\ referenceEdgeCount (getStats g) <= blockCount (getStats g).
Proof.
  intros R. split.
  - intros h E. destruct (Reachable_no_dangling _ R E) as [E1 E2].
    unfold getDerivedFrom, getReferences. now rewrite E1, E2.
  - destruct (Reachable_edges R) as (N1 & N2 & I1 & I2).
    unfold getStats, lengthZ. simpl.
    apply (NoDup_incl_length N1) in I1. apply (NoDup_incl_length N2) in I2.
    rewrite !length_map in I1, I2. lia.
Qed.

Lemma edges_only_for_stored_blocks_witness :
  Reachable derivedGraph
  /\ (forall h, hasBlock derivedGraph h = false ->
                getDerivedFrom derivedGraph h = []
                /\ getReferences derivedGraph h = [])
  /\ derivationEdgeCount (getStats derivedGraph)
     <= blockCount (getStats derivedGraph)
  /\ referenceEdgeCount (getStats derivedGraph)
     <= blockCount (getStats derivedGraph).
Proof.
  assert (R : Reachable derivedGraph) by (repeat constructor).
  split; [exact R|]. exact (edges_only_for_stored_blocks R).
Defined.

(** ** Kind order *)

Lemma sortBlocksByKind_ok (bs : list ContextBlock) :
  sortBlocksByKind bs = Ok (sortBy kindCmp bs).
Proof.
  unfold sortBlocksByKind. apply sortByM_pure.
  intros x y. apply compareKinds_ok.
Qed.

Lemma isKind_true (k : BlockKind) (b : ContextBlock) :
  isKind k b = true <-> kind (meta b) = k.
Proof.
  unfold isKind. destruct (kind (meta b)), k; simpl; split;
    congruence.
Qed.

Lemma insertBy_filter_kind (k : BlockKind) (x : ContextBlock)
    (l : list ContextBlock) :
  List.filter (isKind k) (insertBy kindCmp x l)
  = List.filter (isKind k) (x :: l).
Proof.
  induction l as [|y l IH]; [reflexivity|].
  cbn [insertBy]. destruct (kindCmp x y <=? 0) eqn:C; [reflexivity|].
  cbn [List.filter] in *. rewrite IH.
  destruct (isKind k x) eqn:Kx, (isKind k y) eqn:Ky; try reflexivity.
  apply isKind_true in Kx, Ky. unfold kindCmp in C.
  rewrite Kx, Ky in C. lia.
Qed.

Lemma sortBy_filter_kind (k : BlockKind) (l : list ContextBlock) :
  List.filter (isKind k) (sortBy kindCmp l) = List.filter (isKind k) l.
Proof.
  induction l as [|x l IH]; [reflexivity|].
  cbn [sortBy]. rewrite insertBy_filter_kind. cbn [List.filter].
  now rewrite IH.
Qed.

Lemma validateFrom_ok (prev : ContextBlock) (i : Z) (rest : list ContextBlock) :
  validateFrom prev i rest = Ok tt <-> Sorted kindLe (prev :: rest).
Proof.
  revert prev i. induction rest as [|curr rest IH]; intros prev i.
  - simpl. split; [repeat constructor|reflexivity].
  - cbn [validateFrom]. rewrite compareKinds_ok. cbn [bind].
    destruct (getKindIndex (kind (meta prev))
              - getKindIndex (kind (meta curr)) >? 0) eqn:C.
    + split; [discriminate|]. intros S.
      inversion S as [|? ? _ Hd]; subst. inversion Hd as [|? ? L]; subst.
      unfold kindLe in L. lia.
    + rewrite IH. split.
      * intros S. constructor; [exact S|]. constructor. unfold kindLe. lia.
      * intros S. now inversion S.
Qed.

(** X5.  [sortBlocksByKind] never throws; its result is a rearrangement of
    the input that [validateBlockOrder] accepts, and the sort is stable:
    the blocks of each kind keep their relative order. *)
Theorem sortBlocksByKind_valid_and_stable (bs : list ContextBlock) :
  exists sorted,
    sortBlocksByKind bs = Ok sorted
    /\ Permutation sorted bs
    /\ validateBlockOrder sorted = Ok tt
    /\ forall k, List.filter (isKind k) sorted = List.filter (isKind k) bs.
Proof.
  exists (sortBy kindCmp bs). split; [apply sortBlocksByKind_ok|].
  split; [apply sortBy_perm|]. split; [|intros k; apply sortBy_filter_kind].
  assert (S : Sorted kindLe (sortBy kindCmp bs)).
  { assert (S := @sortBy_sorted _ kindCmp bs).
    eapply Sorted_ind with (P := fun l => Sorted kindLe l) in S.
    - exact S.
    - constructor.
    - intros a l _ Sl Hd. constructor; [exact Sl|].
      destruct Hd; constructor. unfold kindLe, kindCmp in *. lia.
    - unfold kindCmp. intros a b. lia. }
  destruct (sortBy kindCmp bs) as [|first rest]; [reflexivity|].
  now apply validateFrom_ok.
Qed.

Lemma validateFrom_throw (prev : ContextBlock) (rest : list ContextBlock) :
  forall (done : list ContextBlock) (msg : string),
    Sorted kindLe (done ++ [prev]) ->
    validateFrom prev (Z.of_nat (List.length done) + 1) rest = Throw msg ->
    exists l1 a b l2,
      (done ++ prev :: rest)%list = (l1 ++ a :: b :: l2)%list
      /\ Sorted kindLe (l1 ++ [a])
      /\ getKindIndex (kind (meta b)) < getKindIndex (kind (meta a))
      /\ msg = "Blocks not sorted by KIND_ORDER: "
                 ++ kindName (kind (meta a))
                 ++ " (index " ++ Z_to_string (Z.of_nat (List.length l1))
                 ++ ") comes before " ++ kindName (kind (meta b))
                 ++ " (index " ++ Z_to_string (Z.of_nat (List.length l1) + 1)
                 ++ ")".
Proof.
  revert prev. induction rest as [|curr rest IH]; intros prev done msg S E.
  - discriminate.
  - cbn [validateFrom] in E. rewrite compareKinds_ok in E. cbn [bind] in E.
    destruct (getKindIndex (kind (meta prev))
              - getKindIndex (kind (meta curr)) >? 0) eqn:C.
    + exists done, prev, curr, rest. split; [reflexivity|].
      split; [exact S|]. split; [lia|].
      injection E as <-.
      replace (Z.of_nat (List.length done) + 1 - 1)
        with (Z.of_nat (List.length done)) by lia.
      reflexivity.
    + replace (done ++ prev :: curr :: rest)%list
        with ((done ++ [prev]) ++ curr :: rest)%list
        by (now rewrite <- app_assoc).
      apply IH.
      * clear IH E. induction done as [|x done IHd]; cbn [app] in *.
        -- constructor; [repeat constructor|]. constructor.
           unfold kindLe. lia.
        -- inversion S as [|? ? S' Hd]; subst.
           constructor; [now apply IHd|].
           destruct done; cbn [app] in *; inversion Hd; subst;
             now constructor.
      * rewrite length_app. cbn [List.length].
        replace (Z.of_nat (List.length done + 1) + 1)
          with (Z.of_nat (List.length done) + 1 + 1) by lia.
        exact E.
Qed.

(** X6.  [validateBlockOrder] returns normally exactly when the kind index
    never decreases along the list; otherwise the error names the first
    pair of neighbours that is out of order, with its indices. *)
Theorem validateBlockOrder_accepts_sorted (bs : list ContextBlock) :
  (validateBlockOrder bs = Ok tt <-> Sorted kindLe bs)
  /\ forall msg,
       validateBlockOrder bs = Throw msg ->
       exists l1 a b l2,
         bs = (l1 ++ a :: b :: l2)%list
         /\ Sorted kindLe (l1 ++ [a])
         /\ getKindIndex (kind (meta b)) < getKindIndex (kind (meta a))
         /\ msg = "Blocks not sorted by KIND_ORDER: "
                    ++ kindName (kind (meta a))
                    ++ " (index " ++ Z_to_string (Z.of_nat (List.length l1))
                    ++ ") comes before " ++ kindName (kind (meta b))
                    ++ " (index "
                    ++ Z_to_string (Z.of_nat (List.length l1) + 1) ++ ")".
Proof.
  destruct bs as [|first rest]; cbn [validateBlockOrder].
  - split; [split; [constructor|reflexivity]|discriminate].
  - split; [apply validateFrom_ok|]. intros msg E.
    apply (@validateFrom_throw first rest [] msg); [repeat constructor|].
    exact E.
Qed.

Lemma filter_none (X : Type) (p : X -> bool) (l : list X) :
  (forall x, In x l -> p x = false) -> List.filter p l = [].
Proof.
  induction l as [|x l IH]; intros F; [reflexivity|].
  simpl. rewrite (F x) by now left. apply IH. intros y I. apply F. now right.
Qed.

Lemma kindName_eqb (a b : BlockKind) :
  String.eqb (kindName a) (kindName b) = BlockKind_eqb a b.
Proof. destruct a, b; reflexivity. Qed.

Lemma groupBlocksByKind_fold (bs : list ContextBlock) :
  forall (groups : jsmap (list ContextBlock)) (done : list ContextBlock),
    (forall key,
       map_get groups key
       = match List.filter
                 (fun b => String.eqb (kindName (kind (meta b))) key) done
         with
         | [] => None
         | l => Some l
         end) ->
    forall key,
      map_get
        (fold_left
           (fun groups block =>
              let kind := kindName (kind (meta block)) in
              let groups :=
                if map_has groups kind then groups
                else map_set groups kind [] in
              map_set groups kind
                (match map_get groups kind with Some l => l | None => [] end
                   ++ [block])%list)
           bs groups) key
      = match List.filter
                (fun b => String.eqb (kindName (kind (meta b))) key)
                (done ++ bs)
        with
        | [] => None
        | l => Some l
        end.
Proof.
  induction bs as [|b bs IH]; intros groups done Inv key.
  - rewrite app_nil_r. apply Inv.
  - cbn [fold_left].
    replace (done ++ b :: bs)%list with ((done ++ [b]) ++ bs)%list
      by (now rewrite <- app_assoc).
    apply IH. clear IH key. intros key.
    rewrite filter_app. cbn [List.filter].
    set (k0 := kindName (kind (meta b))).
    destruct (String.eqb_spec k0 key) as [<-|N].
    + rewrite map_get_set_same. unfold map_has. rewrite (Inv k0).
      destruct (List.filter
                  (fun b0 => String.eqb (kindName (kind (meta b0))) k0) done)
        as [|x l] eqn:F.
      * rewrite map_get_set_same. reflexivity.
      * rewrite (Inv k0), F. reflexivity.
    + rewrite map_get_set_other by congruence.
      rewrite app_nil_r.
      destruct (map_has groups k0); [apply Inv|].
      rewrite map_get_set_other by congruence. apply Inv.
Qed.

(** X7.  [groupBlocksByKind] maps every kind that occurs in the list to
    the blocks of that kind, in their order in the list; it has no entry
    for a kind that does not occur, nor under any other key. *)
Theorem groupBlocksByKind_lookup (bs : list ContextBlock) :
  (forall k,
     map_get (groupBlocksByKind bs) (kindName k)
     = match List.filter (isKind k) bs with
       | [] => None
       | l => Some l
       end)
  /\ forall key,
       (forall k, key <> kindName k) ->
       map_get (groupBlocksByKind bs) key = None.
Proof.
  unfold groupBlocksByKind. split.
  - intros k. rewrite (@groupBlocksByKind_fold bs [] []); [|reflexivity].
    cbn [app].
    erewrite filter_ext; [reflexivity|].
    intros b. apply kindName_eqb.
  - intros key N. rewrite (@groupBlocksByKind_fold bs [] []); [|reflexivity].
    cbn [app].
    rewrite filter_none; [reflexivity|].
    intros b _. destruct (String.eqb_spec (kindName (kind (meta b))) key);
      [|reflexivity].
    now destruct (N (kind (meta b))).
Qed.

(** ** Views *)



Lemma find_app_first (A : Type) (p : A -> bool) (l1 l2 : list A) :
  find p (l1 ++ l2)
  = match find p l1 with
    | Some x => Some x
    | None => find p l2
    end.
Proof.
  induction l1 as [|x l1 IH]; [reflexivity|].
  simpl. now destruct (p x).
Qed.

Lemma strIn_In (x : string) (l : list string) :
  strIn x l = true <-> In x l.
Proof.
  unfold strIn. rewrite existsb_exists. split.
  - intros (y & I & E). apply String.eqb_eq in E. now subst.
  - intros I. exists x. split; [assumption|apply String.eqb_refl].
Qed.

Lemma strIn_false (x : string) (l : list string) :
  strIn x l = false <-> ~ In x l.
Proof.
  rewrite <- strIn_In. now destruct (strIn x l).
Qed.

Lemma mergeBlocks_app (l1 l2 : list ContextBlock) :
  forall seen merged,
    mergeBlocks (l1 ++ l2) seen merged
    = mergeBlocks l2 (fst (mergeBlocks l1 seen merged))
        (snd (mergeBlocks l1 seen merged)).
Proof.
  induction l1 as [|b l1 IH]; intros seen merged; [reflexivity|].
  cbn [app mergeBlocks]. now destruct (negb _).
Qed.

Lemma mergeViews_fold (views : list ContextView) :
  forall st,
    fold_left (fun st view => mergeBlocks (blocks view) (fst st) (snd st))
      views st
    = mergeBlocks (List.concat (List.map blocks views)) (fst st) (snd st).
Proof.
  induction views as [|v views IH]; intros st.
  - now destruct st.
  - cbn [fold_left List.map List.concat]. rewrite IH.
    now rewrite mergeBlocks_app.
Qed.

Lemma mergeBlocks_spec (bs : list ContextBlock) :
  forall done merged,
    NoDup (List.map blockHash merged) ->
    (forall b, In b merged ->
       find (fun x => String.eqb (blockHash x) (blockHash b)) done = Some b) ->
    (forall x, In x done -> In (blockHash x) (List.map blockHash merged)) ->
    fst (mergeBlocks bs (List.map blockHash merged) merged)
    = List.map blockHash (snd (mergeBlocks bs (List.map blockHash merged) merged))
    /\ NoDup (fst (mergeBlocks bs (List.map blockHash merged) merged))
    /\ (forall b,
          In b (snd (mergeBlocks bs (List.map blockHash merged) merged)) ->
          find (fun x => String.eqb (blockHash x) (blockHash b)) (done ++ bs)
          = Some b)
    /\ (forall x,
          In x (done ++ bs) ->
          In (blockHash x)
            (fst (mergeBlocks bs (List.map blockHash merged) merged))).
Proof.
  induction bs as [|b bs IH]; intros done merged N F S.
  - cbn [mergeBlocks fst snd]. rewrite app_nil_r. repeat split; assumption.
  - cbn [mergeBlocks].
    replace (done ++ b :: bs)%list with ((done ++ [b]) ++ bs)%list
      by (now rewrite <- app_assoc).
    destruct (strIn (blockHash b) (List.map blockHash merged)) eqn:E;
      cbn [negb].
    + apply strIn_In in E. apply IH; [assumption| |].
      * intros m Im. rewrite find_app_first. now rewrite (F m Im).
      * intros x Ix. apply in_app_or in Ix as [Ix|[<-|[]]]; auto.
    + apply strIn_false in E.
      replace (List.map blockHash merged ++ [blockHash b])%list
        with (List.map blockHash (merged ++ [b])%list)
        by (now rewrite map_app).
      apply IH.
      * rewrite map_app. now apply NoDup_snoc.
      * intros m Im. rewrite find_app_first.
        apply in_app_or in Im as [Im|[<-|[]]]; [now rewrite (F m Im)|].
        destruct (find (fun x => String.eqb (blockHash x) (blockHash b)) done)
          as [x|] eqn:Fx.
        -- apply find_some in Fx as [Ix Ex]. apply String.eqb_eq in Ex.
           destruct E. rewrite <- Ex. now apply S.
        -- simpl. now rewrite String.eqb_refl.
      * intros x Ix. rewrite map_app. apply in_or_app.
        apply in_app_or in Ix as [Ix|[<-|[]]]; [left; now apply S|].
        right. now left.
Qed.


Section MoreViewFacts.
Context `{Host}.



(** X8.  [mergeViews] always returns a view.  Its blocks have pairwise
    different hashes; each of them is the first block with its hash in
    the views taken in order (so it occurs in one of the views); every
    hash of every view is the hash of one of its blocks; it has no token
    estimate, whatever the views had, and its prefix hash is the one of
    its own block sequence. *)
Theorem mergeViews_union (views : list ContextView) (now : Z) :
  exists merged,
    mergeViews views now = Ok merged
    /\ NoDup (List.map blockHash (blocks merged))
    /\ (forall b,
          In b (blocks merged) ->
          find (fun x => String.eqb (blockHash x) (blockHash b))
            (List.concat (List.map blocks views)) = Some b)
    /\ (forall v b,
          In v views -> In b (blocks v) ->
          In (blockHash b) (List.map blockHash (blocks merged)))
    /\ tokenEstimate merged = None
    /\ stablePrefixHash merged = computeStablePrefixHash (blocks merged)
    /\ v_createdAt merged = now / 1000.
Proof.
  unfold mergeViews. rewrite mergeViews_fold. cbn [fst snd].
  rewrite sortBlocksDeterministic_ok. cbn [bind].
  eexists. split; [reflexivity|]. cbn [blocks tokenEstimate stablePrefixHash
                                        v_createdAt].
  destruct (@mergeBlocks_spec (List.concat (List.map blocks views)) [] [])
    as (E & N & F & S); [constructor|intros b []|intros x []|].
  cbn [List.map app] in *.
  set (mergedBlocks := snd (mergeBlocks _ [] [])) in *.
  assert (P : Permutation (sortBy blockCmp mergedBlocks) mergedBlocks)
    by apply sortBy_perm.
  repeat split.
  - rewrite E in N. eapply Permutation_NoDup; [|exact N].
    apply Permutation_map. now symmetry.
  - intros b I. apply F. now apply (Permutation_in _ P).
  - intros v b Iv Ib.
    assert (I : In (blockHash b) (List.map blockHash mergedBlocks)).
    { rewrite <- E. apply S. apply in_concat. exists (blocks v).
      split; [now apply in_map|assumption]. }
    eapply Permutation_in; [|exact I]. apply Permutation_map. now symmetry.
Qed.

End MoreViewFacts.


Section BudgetMonotone.
Context `{Host}.



End BudgetMonotone.


(** ** Queries *)

Lemma matchesQuery_true (b : ContextBlock) (q : BlockQuery) (g : ContextGraph) :
  matchesQuery b q g = true <->
  rejects (nonEmpty (q_kinds q))
    (fun ks => negb (kindIn (kind (meta b)) ks)) = false
  /\ rejects (nonEmpty (q_tags q))
       (fun ts =>
          negb (forallb (fun tag => strIn tag (orEmpty (tags (meta b)))) ts))
     = false
  /\ rejects (q_minSensitivity q)
       (fun s => compareSensitivity (sensitivity (meta b)) s <? 0) = false
  /\ rejects (q_maxSensitivity q)
       (fun s => compareSensitivity (sensitivity (meta b)) s >? 0) = false
  /\ rejects (q_source q)
       (fun s => negb (optStrEqb (source (meta b)) (Some s))) = false
  /\ rejects (q_minCreatedAt q) (fun t => createdAt (meta b) <? t) = false
  /\ rejects (q_maxCreatedAt q) (fun t => createdAt (meta b) >? t) = false
  /\ rejects (nonEmpty (q_derivedFromAny q))
       (fun hs =>
          negb (existsb
                  (fun h =>
                     strIn h
                       (List.map refHash (getDerivedFrom g (blockHash b))))
               hs)) = false
  /\ rejects (nonEmpty (q_notDerivedFromAny q))
       (fun hs =>
          existsb
            (fun h =>
               strIn h (List.map refHash (getDerivedFrom g (blockHash b))))
            hs) = false
  /\ rejects (nonEmpty (q_referencesAny q))
       (fun hs =>
          negb (existsb (fun h => strIn h (getReferences g (blockHash b))) hs))
     = false
  /\ rejects (nonEmpty (q_excludeHashes q))
       (fun hs => strIn (blockHash b) hs) = false.
Proof.
  unfold matchesQuery, orEmpty.
  repeat match goal with
         | |- context [if ?c then false else _] => destruct c
         end;
    intuition congruence.
Qed.

Lemma rejects_mergeBound (A : Type) (better : A -> A -> bool)
    (bad : A -> bool) (c l : option A) :
  rejects c bad = false -> rejects l bad = false ->
  rejects (mergeBound better c l) bad = false.
Proof.
  destruct c as [x|], l as [y|]; simpl; auto.
  now destruct (better y x).
Qed.

Lemma rejects_mergeConcat_all (A : Type) (p : A -> bool)
    (c l : option (list A)) :
  rejects (nonEmpty c) (fun xs => negb (forallb p xs)) = false ->
  rejects (nonEmpty l) (fun xs => negb (forallb p xs)) = false ->
  rejects (nonEmpty (mergeConcat c l)) (fun xs => negb (forallb p xs)) = false.
Proof.
  assert (G : forall o : option (list A),
             rejects (nonEmpty o) (fun xs => negb (forallb p xs)) = false
             <-> forallb p (orEmpty o) = true).
  { intros [[|x xs]|]; simpl; try tauto.
    destruct (p x && forallb p xs); simpl; intuition congruence. }
  rewrite !G. intros Hc Hl.
  destruct c as [c|], l as [l|]; simpl in *;
    rewrite ?forallb_app, ?Hc, ?Hl; auto.
Qed.

Lemma rejects_mergeConcat_some (A : Type) (p : A -> bool)
    (c l : option (list A)) :
  rejects (nonEmpty c) (fun xs => negb (existsb p xs)) = false ->
  rejects (nonEmpty l) (fun xs => negb (existsb p xs)) = false ->
  rejects (nonEmpty (mergeConcat c l)) (fun xs => negb (existsb p xs)) = false.
Proof.
  assert (G : forall o : option (list A),
             rejects (nonEmpty o) (fun xs => negb (existsb p xs)) = false
             <-> orEmpty o = [] \/ existsb p (orEmpty o) = true).
  { intros [[|x xs]|]; simpl; try tauto.
    destruct (p x || existsb p xs); simpl; intuition congruence. }
  rewrite !G. intros Hc Hl.
  destruct c as [c|], l as [l|]; simpl in *; auto.
  rewrite existsb_app.
  destruct Hc as [-> | ->]; [|now right].
  destruct Hl as [-> | ->]; [now left|right]. apply orb_true_r.
Qed.

Lemma rejects_mergeConcat_none (A : Type) (p : A -> bool)
    (c l : option (list A)) :
  rejects (nonEmpty (mergeConcat c l)) (existsb p) = false
  <-> rejects (nonEmpty c) (existsb p) = false
      /\ rejects (nonEmpty l) (existsb p) = false.
Proof.
  assert (G : forall o : option (list A),
             rejects (nonEmpty o) (existsb p) = false
             <-> existsb p (orEmpty o) = false).
  { intros [[|x xs]|]; simpl; tauto. }
  rewrite !G.
  destruct c as [c|], l as [l|]; simpl;
    rewrite ?existsb_app, ?orb_false_iff; tauto.
Qed.

Lemma kindIn_In (k : BlockKind) (ks : list BlockKind) :
  kindIn k ks = true <-> In k ks.
Proof.
  unfold kindIn. rewrite existsb_exists. split.
  - intros (y & I & E). destruct k, y; try discriminate; exact I.
  - intros I. exists k. split; [assumption|now destruct k].
Qed.

Lemma rejects_merged_kinds (k : BlockKind) (merged q : BlockQuery) :
  rejects (nonEmpty (q_kinds merged)) (fun ks => negb (kindIn k ks)) = false ->
  rejects (nonEmpty (q_kinds q)) (fun ks => negb (kindIn k ks)) = false ->
  rejects (nonEmpty (q_kinds (mergeStep merged q)))
    (fun ks => negb (kindIn k ks)) = false.
Proof.
  assert (G : forall o : option (list BlockKind),
             rejects (nonEmpty o) (fun ks => negb (kindIn k ks)) = false
             <-> orEmpty o = [] \/ In k (orEmpty o)).
  { intros [[|x xs]|]; cbn [rejects nonEmpty orEmpty]; try tauto.
    destruct (kindIn k (x :: xs)) eqn:E; cbn [negb].
    - apply kindIn_In in E. split; [intros _; right; exact E|reflexivity].
    - split; [discriminate|]. intros [D|I]; [discriminate|].
      apply kindIn_In in I. congruence. }
  rewrite !G. intros Hm Hq. cbn [mergeStep q_kinds].
  destruct (sourceConflict (q_source merged) (q_source q)); [now left|].
  destruct (q_kinds q) as [qk|]; [|exact Hm].
  destruct (q_kinds merged) as [mk|]; [|exact Hq].
  cbn [orEmpty] in *.
  destruct Hq as [->|Iq]; [now left|].
  destruct Hm as [->|Im].
  - left. apply filter_none. reflexivity.
  - right. apply filter_In. split; [assumption|now apply kindIn_In].
Qed.

Lemma rejects_merged_source (bad : string -> bool) (merged q : BlockQuery) :
  rejects (q_source merged) bad = false ->
  rejects (q_source q) bad = false ->
  rejects (q_source (mergeStep merged q)) bad = false.
Proof.
  cbn [mergeStep q_source]. intros Hm Hq.
  destruct (q_source q); [|exact Hm].
  now destruct (sourceConflict _ _).
Qed.

Lemma mergeStep_matches (b : ContextBlock) (g : ContextGraph)
    (merged q : BlockQuery) :
  matchesQuery b merged g = true -> matchesQuery b q g = true ->
  matchesQuery b (mergeStep merged q) g = true.
Proof.
  rewrite !matchesQuery_true.
  intros (M1 & M2 & M3 & M4 & M5 & M6 & M7 & M8 & M9 & M10 & M11)
         (Q1 & Q2 & Q3 & Q4 & Q5 & Q6 & Q7 & Q8 & Q9 & Q10 & Q11).
  split; [now apply rejects_merged_kinds|].
  split; [now apply rejects_mergeConcat_all|].
  split; [now apply rejects_mergeBound|].
  split; [now apply rejects_mergeBound|].
  split; [now apply rejects_merged_source|].
  split; [now apply rejects_mergeBound|].
  split; [now apply rejects_mergeBound|].
  split; [now apply rejects_mergeConcat_some|].
  split; [now apply rejects_mergeConcat_none|].
  split; [now apply rejects_mergeConcat_some|].
  now apply rejects_mergeConcat_none.
Qed.

(** X12.  [mergeQueries] never rejects a block that all the queries
    accept: a block that matches every query of the list matches the
    merged query. *)
Theorem mergeQueries_accepts_common_matches (qs : list BlockQuery)
    (b : ContextBlock) (g : ContextGraph) :
  (forall q, In q qs -> matchesQuery b q g = true) ->
  matchesQuery b (mergeQueries qs) g = true.
Proof.
  unfold mergeQueries.
  assert (G : forall merged,
             matchesQuery b merged g = true ->
             (forall q, In q qs -> matchesQuery b q g = true) ->
             matchesQuery b (fold_left mergeStep qs merged) g = true).
  { induction qs as [|q qs IH]; intros merged M A; [exact M|].
    cbn [fold_left]. apply IH.
    - apply mergeStep_matches; [exact M|]. apply A. now left.
    - intros q' I. apply A. now right. }
  apply G. reflexivity.
Qed.

Lemma mergeQueries_accepts_common_matches_witness :
  (forall q,
     In q [taggedQuery ["a"] public; taggedQuery ["b"] internal] ->
     matchesQuery taggedBlock q emptyGraph = true)
  /\ matchesQuery taggedBlock
       (mergeQueries [taggedQuery ["a"] public; taggedQuery ["b"] internal])
       emptyGraph = true.
Proof.
  assert (A : forall q,
             In q [taggedQuery ["a"] public; taggedQuery ["b"] internal] ->
             matchesQuery taggedBlock q emptyGraph = true).
  { intros q [<-|[<-|[]]]; reflexivity. }
  split; [exact A|].
  exact (@mergeQueries_accepts_common_matches _ taggedBlock emptyGraph A).
Defined.

Lemma rejects_mergeConcat_all_rev (A : Type) (p : A -> bool)
    (c l : option (list A)) :
  rejects (nonEmpty (mergeConcat c l)) (fun xs => negb (forallb p xs)) = false ->
  rejects (nonEmpty c) (fun xs => negb (forallb p xs)) = false
  /\ rejects (nonEmpty l) (fun xs => negb (forallb p xs)) = false.
Proof.
  assert (G : forall o : option (list A),
             rejects (nonEmpty o) (fun xs => negb (forallb p xs)) = false
             <-> forallb p (orEmpty o) = true).
  { intros [[|x xs]|]; simpl; try tauto.
    destruct (p x && forallb p xs); simpl; intuition congruence. }
  rewrite !G.
  destruct c as [c|], l as [l|]; simpl;
    rewrite ?forallb_app, ?andb_true_iff; tauto.
Qed.

Lemma rejects_mergeBound_rev (A : Type) (better : A -> A -> bool)
    (bad : A -> bool) (c l : option A) :
  (forall x y, better x y = true -> bad x = false -> bad y = false) ->
  (forall x y, better x y = false -> bad y = false -> bad x = false) ->
  rejects (mergeBound better c l) bad = false ->
  rejects c bad = false /\ rejects l bad = false.
Proof.
  intros B1 B2. destruct c as [y|], l as [x|]; simpl; auto.
  destruct (better x y) eqn:E; simpl; intros R; split; eauto.
Qed.

Lemma matchesQuery_conjunctivePart (b : ContextBlock) (q : BlockQuery)
    (g : ContextGraph) :
  matchesQuery b q g = true -> matchesQuery b (conjunctivePart q) g = true.
Proof.
  rewrite !matchesQuery_true. cbn [conjunctivePart q_kinds q_tags
    q_minSensitivity q_maxSensitivity q_source q_minCreatedAt q_maxCreatedAt
    q_derivedFromAny q_notDerivedFromAny q_referencesAny q_excludeHashes].
  cbn [nonEmpty rejects]. tauto.
Qed.

Lemma mergeStep_conjunctivePart (b : ContextBlock) (g : ContextGraph)
    (merged q : BlockQuery) :
  matchesQuery b (conjunctivePart (mergeStep merged q)) g = true ->
  matchesQuery b (conjunctivePart merged) g = true
  /\ matchesQuery b (conjunctivePart q) g = true.
Proof.
  rewrite !matchesQuery_true. cbn [conjunctivePart mergeStep q_kinds q_tags
    q_minSensitivity q_maxSensitivity q_source q_minCreatedAt q_maxCreatedAt
    q_derivedFromAny q_notDerivedFromAny q_referencesAny q_excludeHashes].
  cbn [nonEmpty rejects].
  intros (_ & M2 & M3 & M4 & _ & M6 & M7 & _ & M9 & _ & M11).
  apply rejects_mergeConcat_all_rev in M2 as [A2 B2].
  apply rejects_mergeBound_rev in M3 as [A3 B3];
    [|unfold compareSensitivity; intros; lia..].
  apply rejects_mergeBound_rev in M4 as [A4 B4];
    [|unfold compareSensitivity; intros; lia..].
  apply rejects_mergeBound_rev in M6 as [A6 B6]; [|intros; lia..].
  apply rejects_mergeBound_rev in M7 as [A7 B7]; [|intros; lia..].
  apply rejects_mergeConcat_none in M9 as [A9 B9].
  apply rejects_mergeConcat_none in M11 as [A11 B11].
  tauto.
Qed.

(** X13.  On the criteria that are merged as a conjunction (tags,
    sensitivity bounds, creation time bounds, [notDerivedFromAny] and
    [excludeHashes]) the merged query is at least as strict as every
    query of the list: a block that matches the merged query satisfies
    these criteria of each query. *)
Theorem mergeQueries_keeps_conjunctive_criteria (qs : list BlockQuery)
    (b : ContextBlock) (g : ContextGraph) :
  matchesQuery b (mergeQueries qs) g = true ->
  forall q, In q qs -> matchesQuery b (conjunctivePart q) g = true.
Proof.
  unfold mergeQueries.
  assert (G : forall merged,
             matchesQuery b (fold_left mergeStep qs merged) g = true ->
             matchesQuery b (conjunctivePart merged) g = true
             /\ forall q, In q qs ->
                          matchesQuery b (conjunctivePart q) g = true).
  { induction qs as [|q qs IH]; intros merged M; cbn [fold_left] in M.
    - split; [now apply matchesQuery_conjunctivePart|intros q []].
    - destruct (IH _ M) as [M' A].
      apply mergeStep_conjunctivePart in M' as [Mm Mq].
      split; [exact Mm|]. intros q' [<-|I]; [exact Mq|now apply A]. }
  intros M. exact (proj2 (G _ M)).
Qed.

Lemma mergeQueries_keeps_conjunctive_criteria_witness :
  matchesQuery taggedBlock
    (mergeQueries [taggedQuery ["a"] public; taggedQuery ["b"] internal])
    emptyGraph = true
  /\ forall q,
       In q [taggedQuery ["a"] public; taggedQuery ["b"] internal] ->
       matchesQuery taggedBlock (conjunctivePart q) emptyGraph = true.
Proof.
  split; [reflexivity|].
  exact (@mergeQueries_keeps_conjunctive_criteria
           [taggedQuery ["a"] public; taggedQuery ["b"] internal]
           taggedBlock emptyGraph eq_refl).
Defined.

(** ** Forks *)

Section MoreForkFacts.
Context `{Host}.

Lemma filterBySensitivity_within (view : ContextView)
    (maxSensitivity : SensitivityLevel) (now : Z) (out : list ContextBlock) :
  filterBySensitivity view maxSensitivity now = Ok out ->
  forall e, In e out ->
            exceedsSensitivityLevel (sensitivity (meta e)) maxSensitivity
            = false.
Proof.
  intros E e I. apply mapM_Forall2 in E.
  destruct (@Forall2_In_r _ _ _ _ _ _ E I) as (b & _ & R).
  destruct (exceedsSensitivityLevel (sensitivity (meta b)) maxSensitivity)
    eqn:X.
  - destruct (createRedactedStub_ok b
                (redactionReason (sensitivity (meta b)) maxSensitivity) now)
      as [h S].
    rewrite S in R. injection R as <-. cbn [meta sensitivity].
    now destruct maxSensitivity.
  - injection R as <-. exact X.
Qed.

Lemma mapM_id_on (X : Type) (f : X -> result X) (l : list X) :
  (forall x, In x l -> f x = Ok x) -> mapM f l = Ok l.
Proof.
  induction l as [|x l IH]; intros F; [reflexivity|].
  cbn [mapM]. rewrite (F x) by now left. cbn [bind].
  rewrite IH; [reflexivity|]. intros y I. apply F. now right.
Qed.

(** X14.  A fork never holds a block above its sensitivity bound
    ([maxSensitivity], by default [public]), nor a history or state block
    unless [includeHistory], respectively [includeState], is [true]; its
    prefix hash is the one of its own block sequence. *)
Theorem fork_within_bounds (parentView : ContextView)
    (options : ContextForkOptions) (now : Z) :
  exists fork,
    createFork parentView options now = Ok fork
    /\ (forall b,
          In b (blocks fork) ->
          compareSensitivity (sensitivity (meta b)) (maxSensitivityOf options)
          <= 0
          /\ (kind (meta b) = history -> includeHistory options = Some true)
          /\ (kind (meta b) = state -> includeState options = Some true))
    /\ stablePrefixHash fork = computeStablePrefixHash (blocks fork).
Proof.
  destruct (createFork_blocks parentView options now)
    as (out & fork & E & F & B).
  exists fork. split; [exact F|]. split.
  - intros b I. rewrite B in I. apply filter_In in I as [I K].
    apply (@filterBySensitivity_within _ _ _ _ E) in I.
    unfold exceedsSensitivityLevel in I. unfold compareSensitivity.
    split; [lia|]. unfold keptKind in K.
    split; intros Ek; rewrite Ek in K.
    + destruct (includeHistory options) as [[|]|]; simpl in K;
        try discriminate; reflexivity.
    + destruct (includeState options) as [[|]|]; simpl in K;
        try discriminate; try reflexivity;
        rewrite andb_false_r in K; discriminate.
  - unfold createFork in F. fold (maxSensitivityOf options) in F.
    rewrite E in F. cbn [bind] in F. injection F as <-. reflexivity.
Qed.

(** X15.  Redaction is stable: filtering the result of
    [filterBySensitivity] again with the same bound changes nothing, and
    with the bound [restricted] nothing is redacted at all. *)
Theorem filterBySensitivity_stable (view : ContextView)
    (maxSensitivity : SensitivityLevel) (now now' : Z) :
  exists out,
    filterBySensitivity view maxSensitivity now = Ok out
    /\ filterBySensitivity
         {| blocks := out; tokenEstimate := tokenEstimate view;
            stablePrefixHash := stablePrefixHash view;
            v_createdAt := v_createdAt view |}
         maxSensitivity now'
       = Ok out
    /\ List.length out = List.length (blocks view)
    /\ (maxSensitivity = restricted -> out = blocks view).
Proof.
  destruct (filterBySensitivity_total view maxSensitivity now) as [out E].
  exists out. split; [exact E|]. split; [|split].
  - unfold filterBySensitivity at 1. cbn [blocks]. apply mapM_id_on.
    intros e I. now rewrite (@filterBySensitivity_within _ _ _ _ E e I).
  - apply mapM_Forall2 in E. symmetry. exact (Forall2_length E).
  - intros ->. unfold filterBySensitivity in E.
    rewrite mapM_id_on in E; [congruence|].
    intros b _. unfold exceedsSensitivityLevel.
    now destruct (sensitivity (meta b)).
Qed.
End MoreForkFacts.

(** ** [ContextBuilder.fork] *)

Lemma hasBlock_false_hashes (g : ContextGraph) (h : string) :
  Reachable g ->
  (forall b, In b (getAllBlocks g) -> blockHash b <> h) ->
  hasBlock g h = false.
Proof.
  intros R A. unfold hasBlock, map_has.
  destruct (map_get (g_blocks g) h) as [b|] eqn:E; [|reflexivity].
  destruct (Reachable_keyed R) as [_ F].
  apply map_get_In in E.
  assert (K := proj1 (Forall_forall _ _) F _ E). cbn in K.
  destruct (A b); [|now symmetry].
  unfold getAllBlocks, map_values. apply in_map_iff. now exists (h, b).
Qed.

Lemma fork_fold (g0 : ContextGraph) (options : ForkOptions)
    (l : list ContextBlock) :
  forall forked,
    Reachable (b_graph forked) ->
    NoDup (List.map blockHash l) ->
    (forall b, In b l -> hasBlock (b_graph forked) (blockHash b) = false) ->
    let forked' :=
      fold_left
        (fun forked block =>
           if forkIncludes options block then
             {| b_graph :=
                  addBlock (b_graph forked) block
                    (Some (getDerivedFrom g0 (blockHash block)))
                    (Some (getReferences g0 (blockHash block)));
                blockCounter := blockCounter forked |}
           else forked)
        l forked in
    getAllBlocks (b_graph forked')
    = (getAllBlocks (b_graph forked) ++ List.filter (forkIncludes options) l)%list
    /\ blockCounter forked' = blockCounter forked
    /\ (forall b,
          In b (List.filter (forkIncludes options) l) ->
          getDerivedFrom (b_graph forked') (blockHash b)
          = getDerivedFrom g0 (blockHash b)
          /\ getReferences (b_graph forked') (blockHash b)
             = getReferences g0 (blockHash b))
    /\ (forall h,
          (forall b, In b l -> blockHash b <> h) ->
          getDerivedFrom (b_graph forked') h = getDerivedFrom (b_graph forked) h
          /\ getReferences (b_graph forked') h
             = getReferences (b_graph forked) h).
Proof.
  induction l as [|b l IH]; intros forked R N A; cbn zeta.
  - cbn [fold_left List.filter]. rewrite app_nil_r.
    split; [reflexivity|]. split; [reflexivity|]. split; [intros x []|].
    intros h _. split; reflexivity.
  - cbn [fold_left List.filter]. inversion N as [|? ? Nin N']; subst.
    destruct (forkIncludes options b) eqn:Inc.
    + set (forked1 := {| b_graph := _; blockCounter := _ |}).
      assert (Fb : hasBlock (b_graph forked) (blockHash b) = false)
        by (apply A; now left).
      destruct (@addBlock_fresh (b_graph forked) b
                  (Some (getDerivedFrom g0 (blockHash b)))
                  (Some (getReferences g0 (blockHash b))) R Fb)
        as (B1 & D1 & R1).
      assert (Nb : forall x, In x l -> blockHash x <> blockHash b).
      { intros x Ix Ex. apply Nin. rewrite <- Ex. now apply in_map. }
      destruct (IH forked1) as (B & C & E & O).
      * cbn [forked1 b_graph]. now constructor.
      * exact N'.
      * intros x Ix. cbn [forked1 b_graph].
        rewrite (proj1 (@addBlock_other _ b _ _ _ (Nb x Ix))).
        apply A. now right.
      * cbn zeta in B, C, E, O. split; [|split; [|split]].
        -- rewrite B. cbn [forked1 b_graph]. rewrite B1.
           now rewrite <- app_assoc.
        -- rewrite C. reflexivity.
        -- intros x [<-|Ix]; [|now apply E].
           destruct (O (blockHash b)) as [O1 O2];
             [intros x Ix; now apply Nb|].
           rewrite O1, O2. cbn [forked1 b_graph]. now rewrite D1, R1.
        -- intros h Nh. destruct (O h) as [O1 O2];
             [intros x Ix; apply Nh; now right|].
           rewrite O1, O2. cbn [forked1 b_graph].
           assert (Hb : h <> blockHash b)
             by (intros ->; apply (Nh b); [now left|reflexivity]).
           destruct (@addBlock_other (b_graph forked) b
                       (Some (getDerivedFrom g0 (blockHash b)))
                       (Some (getReferences g0 (blockHash b))) h Hb)
             as (_ & X1 & X2).
           now rewrite X1, X2.
    + destruct (IH forked R N') as (B & C & E & O).
      * intros x Ix. apply A. now right.
      * cbn zeta in B, C, E, O. split; [exact B|]. split; [exact C|].
        split; [exact E|]. intros h Nh. apply O. intros x Ix. apply Nh.
        now right.
Qed.

Lemma forkIncludes_true (options : ForkOptions) (b : ContextBlock) :
  forkIncludes options b = true ->
  (forall m, fo_maxSensitivity options = Some m ->
             compareSensitivity (sensitivity (meta b)) m <= 0)
  /\ (forall ks, fo_includeKinds options = Some ks -> In (kind (meta b)) ks)
  /\ (forall ks, fo_excludeKinds options = Some ks ->
                 ~ In (kind (meta b)) ks)
  /\ (forall t ts, fo_tags options = Some (t :: ts) ->
                   exists tag, In tag (t :: ts)
                               /\ In tag (orEmpty (tags (meta b)))).
Proof.
  unfold forkIncludes. intros E. repeat split.
  - intros m Em. rewrite Em in E. unfold compareSensitivity.
    destruct (SENSITIVITY_ORDER (sensitivity (meta b)) >? SENSITIVITY_ORDER m)
      eqn:C; [|lia].
    repeat match type of E with
           | context [match ?x with Some _ => _ | None => _ end] => destruct x
           | context [if ?c then _ else _] => destruct c
           end; discriminate.
  - intros ks Ek. rewrite Ek in E. apply kindIn_In.
    destruct (kindIn (kind (meta b)) ks); [reflexivity|]. cbn [negb] in E.
    repeat match type of E with
           | context [match ?x with Some _ => _ | None => _ end] => destruct x
           | context [if ?c then _ else _] => destruct c
           end; discriminate.
  - intros ks Ek I. rewrite Ek in E. apply kindIn_In in I. rewrite I in E.
    repeat match type of E with
           | context [match ?x with Some _ => _ | None => _ end] => destruct x
           | context [if ?c then _ else _] => destruct c
           end; discriminate.
  - intros t ts Et. rewrite Et in E. cbn [nonEmpty] in E.
    destruct (existsb (fun tag => strIn tag (orEmpty (tags (meta b))))
                (t :: ts)) eqn:X.
    + apply existsb_exists in X as (tag & I & S). exists tag.
      split; [exact I|]. now apply strIn_In.
    + cbn [negb] in E. discriminate.
Qed.

(** X16.  [ContextBuilder.fork] on a builder whose graph was built by
    [addBlock] and [removeBlock]: the new builder holds exactly the blocks
    that pass the four filters, in the order of the graph, each with the
    derivation and reference edges it has in the graph, and its block
    counter is zero.  A block passes when its sensitivity is within
    [maxSensitivity], its kind is in [includeKinds] (an empty list lets
    no block pass), its kind is not in [excludeKinds], and it carries at
    least one of [tags] when that list is not empty. *)
Theorem builder_fork_filters (this : ContextBuilder) (options : ForkOptions) :
  Reachable (b_graph this) ->
  getAllBlocks (b_graph (fork this options))
  = List.filter (forkIncludes options) (getAllBlocks (b_graph this))
  /\ blockCounter (fork this options) = 0
  /\ forall b,
       In b (getAllBlocks (b_graph (fork this options))) ->
       getDerivedFrom (b_graph (fork this options)) (blockHash b)
       = getDerivedFrom (b_graph this) (blockHash b)
       /\ getReferences (b_graph (fork this options)) (blockHash b)
          = getReferences (b_graph this) (blockHash b)
       /\ (forall m, fo_maxSensitivity options = Some m ->
                     compareSensitivity (sensitivity (meta b)) m <= 0)
       /\ (forall ks, fo_includeKinds options = Some ks ->
                      In (kind (meta b)) ks)
       /\ (forall ks, fo_excludeKinds options = Some ks ->
                      ~ In (kind (meta b)) ks)
       /\ (forall t ts, fo_tags options = Some (t :: ts) ->
                        exists tag, In tag (t :: ts)
                                    /\ In tag (orEmpty (tags (meta b)))).
Proof.
  intros R. unfold fork.
  destruct (@fork_fold (b_graph this) options (getAllBlocks (b_graph this))
              newContextBuilder)
    as (B & C & E & _).
  - constructor.
  - now apply Reachable_NoDup_hashes.
  - reflexivity.
  - cbn zeta in B, C, E. cbn [newContextBuilder b_graph blockCounter] in B, C.
    cbn [getAllBlocks emptyGraph g_blocks map_values List.map app] in B.
    split; [exact B|]. split; [exact C|]. intros b I. rewrite B in I.
    destruct (E b I) as [E1 E2]. split; [exact E1|]. split; [exact E2|].
    apply forkIncludes_true. now apply filter_In in I.
Qed.

Lemma builder_fork_filters_witness :
  Reachable (b_graph sampleBuilder)
  /\ getAllBlocks (b_graph (fork sampleBuilder publicOnly))
     = [sampleBlock hashB pinned public]
  /\ blockCounter (fork sampleBuilder publicOnly) = 0.
Proof.
  assert (R : Reachable (b_graph sampleBuilder)) by (repeat constructor).
  split; [exact R|].
  destruct (@builder_fork_filters sampleBuilder publicOnly R) as (B & C & _).
  split; [exact B|exact C].
Defined.

(** ** Compaction *)

Lemma dedupLoop_mergeBlocks (bs : list ContextBlock) :
  forall seen deduplicated removed,
    fst (dedupLoop bs seen deduplicated removed)
    = snd (mergeBlocks bs seen deduplicated).
Proof.
  induction bs as [|b bs IH]; intros seen deduplicated removed;
    [reflexivity|].
  cbn [dedupLoop mergeBlocks]. destruct (strIn (blockHash b) seen);
    cbn [negb]; apply IH.
Qed.

Lemma dedupLoop_perm (bs : list ContextBlock) :
  forall seen deduplicated removed,
    Permutation
      (fst (dedupLoop bs seen deduplicated removed)
         ++ snd (dedupLoop bs seen deduplicated removed))
      (deduplicated ++ removed ++ bs).
Proof.
  induction bs as [|b bs IH]; intros seen deduplicated removed;
    cbn [dedupLoop].
  - cbn [fst snd]. now rewrite app_nil_r.
  - destruct (strIn (blockHash b) seen).
    + rewrite IH. now rewrite <- !app_assoc.
    + rewrite IH. rewrite <- !app_assoc. cbn [app].
      apply Permutation_app_head. apply Permutation_middle.
Qed.

Lemma dedupLoop_removed (bs : list ContextBlock) :
  forall seen deduplicated removed x,
    In x (snd (dedupLoop bs seen deduplicated removed)) ->
    In x removed \/ In x bs.
Proof.
  induction bs as [|b bs IH]; intros seen deduplicated removed x;
    cbn [dedupLoop]; [now left|].
  destruct (strIn (blockHash b) seen); intros I; apply IH in I.
  - destruct I as [I|I]; [|right; now right].
    apply in_app_or in I as [I|[<-|[]]]; [now left|right; now left].
  - destruct I as [I|I]; [now left|right; now right].
Qed.

Lemma dedupLoop_distinct (bs : list ContextBlock) :
  forall seen deduplicated removed,
    NoDup (seen ++ List.map blockHash bs) ->
    dedupLoop bs seen deduplicated removed
    = ((deduplicated ++ bs)%list, removed).
Proof.
  induction bs as [|b bs IH]; intros seen deduplicated removed N.
  - cbn. now rewrite app_nil_r.
  - cbn [dedupLoop List.map] in *.
    assert (E : strIn (blockHash b) seen = false).
    { apply strIn_false. intros I.
      apply NoDup_remove_2 in N. apply N. apply in_or_app. now left. }
    rewrite E. rewrite IH.
    + now rewrite <- !app_assoc.
    + now rewrite <- app_assoc.
Qed.

(** X17.  [deduplicateBlocks] keeps, for every hash, the first block that
    carries it and removes the later ones: the kept blocks have pairwise
    different hashes, kept and removed blocks together are the input, every
    removed block has the hash of a kept one, and deduplicating the kept
    blocks again removes nothing. *)
Theorem deduplicateBlocks_first_occurrences (bs : list ContextBlock) :
  NoDup (List.map blockHash (fst (deduplicateBlocks bs)))
  /\ Permutation (fst (deduplicateBlocks bs) ++ snd (deduplicateBlocks bs)) bs
  /\ (forall b,
        In b (fst (deduplicateBlocks bs)) ->
        find (fun x => String.eqb (blockHash x) (blockHash b)) bs = Some b)
  /\ (forall x,
        In x (snd (deduplicateBlocks bs)) ->
        In (blockHash x) (List.map blockHash (fst (deduplicateBlocks bs))))
  /\ deduplicateBlocks (fst (deduplicateBlocks bs))
     = (fst (deduplicateBlocks bs), []).
Proof.
  unfold deduplicateBlocks.
  destruct (@mergeBlocks_spec bs [] []) as (E & N & F & S);
    [constructor|intros b []|intros x []|].
  cbn [List.map app] in *.
  rewrite (dedupLoop_mergeBlocks bs [] [] []).
  assert (N' : NoDup (List.map blockHash (snd (mergeBlocks bs [] []))))
    by (now rewrite <- E).
  split; [exact N'|]. split; [|split; [exact F|split]].
  - rewrite <- (dedupLoop_mergeBlocks bs [] [] []).
    apply (dedupLoop_perm bs [] [] []).
  - intros x I. rewrite <- E. apply S.
    now destruct (dedupLoop_removed bs [] [] [] x I) as [[]|I'].
  - now rewrite (dedupLoop_distinct _ [] [] []).
Qed.

Lemma slice_split (X : Type) (l : list X) (i : Z) :
  (slice l 0 (Some i) ++ slice l i None)%list = l.
Proof.
  unfold slice.
  set (len := Z.of_nat (List.length l)).
  assert (L : 0 <= len) by (unfold len; lia).
  assert (B : 0 <= sliceIndex len i <= len).
  { unfold sliceIndex. destruct (i <? 0) eqn:E; lia. }
  replace (sliceIndex len 0) with 0 by (unfold sliceIndex; simpl; lia).
  cbn [Z.to_nat skipn]. rewrite Z.sub_0_r.
  rewrite (firstn_all2 (n := Z.to_nat (len - sliceIndex len i))).
  - apply firstn_skipn.
  - rewrite length_skipn. unfold len. lia.
Qed.

Lemma slice_zero (X : Type) (l : list X) :
  slice l 0 (Some 0) = [] /\ slice l 0 None = l.
Proof.
  assert (E := slice_split l 0).
  assert (E0 : slice l 0 (Some 0) = []).
  { unfold slice. replace (sliceIndex (Z.of_nat (List.length l)) 0) with 0
      by (unfold sliceIndex; simpl; lia).
    reflexivity. }
  rewrite E0 in E. now split.
Qed.

Lemma filter_partition_perm (X : Type) (p : X -> bool) (l : list X) :
  Permutation (List.filter (fun x => negb (p x)) l ++ List.filter p l) l.
Proof.
  induction l as [|x l IH]; [constructor|].
  cbn [List.filter]. destruct (p x); cbn [negb app].
  - symmetry. apply Permutation_cons_app. now symmetry.
  - now constructor.
Qed.

Lemma filter_partition_length (X : Type) (p : X -> bool) (l : list X) :
  (List.length (List.filter (fun x => negb (p x)) l)
   + List.length (List.filter p l) = List.length l)%nat.
Proof.
  rewrite <- length_app. apply Permutation_length, filter_partition_perm.
Qed.

Lemma mapM_length (X Y : Type) (f : X -> result Y) (l : list X) (ys : list Y) :
  mapM f l = Ok ys -> List.length ys = List.length l.
Proof.
  intros E. apply mapM_Forall2 in E. symmetry. exact (Forall2_length E).
Qed.

Lemma flagged_partition_perm (X : Type) (l : list X) (flags : list bool) :
  List.length flags = List.length l ->
  Permutation
    (List.map fst (List.filter snd (combine l flags))
       ++ List.map fst
            (List.filter (fun bf => negb (snd bf)) (combine l flags)))
    l.
Proof.
  revert flags. induction l as [|x l IH]; intros [|f flags] E;
    try discriminate; [constructor|].
  cbn [combine List.filter snd]. injection E as E.
  destruct f; cbn [negb List.map fst app].
  - constructor. now apply IH.
  - symmetry. apply Permutation_cons_app. symmetry. now apply IH.
Qed.

Lemma filter_all_in (X : Type) (p : X -> bool) (l : list X) :
  (forall x, In x l -> p x = true) -> List.filter p l = l.
Proof.
  induction l as [|x l IH]; intros F; [reflexivity|].
  cbn [List.filter]. rewrite (F x) by now left.
  rewrite IH; [reflexivity|]. intros y I. apply F. now right.
Qed.

(** What [trimHistory] returns: the blocks of the other kinds followed by
    the history blocks it keeps; kept and removed history blocks are the
    history blocks of the input. *)
Lemma trimHistory_shape (bs : list ContextBlock) (config : HistoryTrimConfig)
    (kept removed : list ContextBlock) :
  trimHistory bs config = Ok (kept, removed) ->
  exists keptHistory,
    kept
    = (List.filter (fun b => negb (isKind history b)) bs ++ keptHistory)%list
    /\ Permutation (keptHistory ++ removed)
         (List.filter (isKind history) bs).
Proof.
  unfold trimHistory. intros E.
  destruct (List.filter (isKind history) bs) as [|h0 hist'] eqn:Fh.
  { injection E as <- <-. exists []. rewrite app_nil_r. split; [|constructor].
    symmetry. apply filter_all_in. intros x Ix.
    destruct (isKind history x) eqn:K; [|reflexivity].
    assert (I : In x (List.filter (isKind history) bs))
      by (apply filter_In; now split).
    rewrite Fh in I. destruct I. }
  cbn zeta in E.
  set (sorted := sortBy _ (h0 :: hist')) in E.
  set (old := slice sorted 0 (Some (- keepRecentMessages config))) in E.
  set (recent := slice sorted (- keepRecentMessages config) None) in E.
  assert (Es : (old ++ recent)%list = sorted) by apply slice_split.
  assert (Ps : Permutation sorted (h0 :: hist')) by apply sortBy_perm.
  match type of E with
  | bind ?m _ = _ => destruct m as [flags|] eqn:Ef; [|discriminate]
  end.
  cbn [bind] in E. injection E as <- <-.
  assert (Lf : List.length flags = List.length old).
  { destruct (keepErrorMessages config).
    - now apply mapM_length in Ef.
    - injection Ef as <-. apply length_map. }
  assert (Pf := @flagged_partition_perm _ old flags Lf).
  eexists. split; [reflexivity|].
  rewrite <- app_assoc.
  eapply Permutation_trans; [|exact Ps]. rewrite <- Es.
  eapply Permutation_trans; [|apply Permutation_app_comm].
  apply Permutation_app_head. exact Pf.
Qed.

(** X18.  When [trimHistory] returns, kept and removed blocks together
    are the input; only history blocks are removed, and the blocks of the
    other kinds come first, in their order in the input. *)
Theorem trimHistory_partitions (bs : list ContextBlock)
    (config : HistoryTrimConfig) (kept removed : list ContextBlock) :
  trimHistory bs config = Ok (kept, removed) ->
  Permutation (kept ++ removed) bs
  /\ (forall x, In x removed -> kind (meta x) = history)
  /\ List.filter (fun b => negb (isKind history b)) kept
     = List.filter (fun b => negb (isKind history b)) bs.
Proof.
  intros E. destruct (trimHistory_shape _ _ E) as (keptHistory & -> & P).
  assert (Ih : forall x, In x (keptHistory ++ removed) ->
                         isKind history x = true).
  { intros x Ix. apply (Permutation_in _ P) in Ix.
    now apply filter_In in Ix. }
  split; [|split].
  - eapply Permutation_trans;
      [|apply (filter_partition_perm (isKind history) bs)].
    rewrite <- app_assoc. now apply Permutation_app_head.
  - intros x Ix. apply isKind_true. apply Ih. apply in_or_app. now right.
  - rewrite filter_app.
    rewrite (filter_none (fun b => negb (isKind history b)) keptHistory).
    + rewrite app_nil_r. rewrite filter_twice.
      apply filter_ext. intros b. apply andb_diag.
    + intros x Ix. rewrite Ih; [reflexivity|]. apply in_or_app. now left.
Qed.

Lemma trimHistory_partitions_witness :
  exists kept removed,
    trimHistory duplicatedBlocks keepOne = Ok (kept, removed)
    /\ Permutation (kept ++ removed) duplicatedBlocks
    /\ (forall x, In x removed -> kind (meta x) = history)
    /\ List.filter (fun b => negb (isKind history b)) kept
       = List.filter (fun b => negb (isKind history b)) duplicatedBlocks.
Proof.
  eexists. eexists. split; [reflexivity|].
  apply (@trimHistory_partitions duplicatedBlocks keepOne). reflexivity.
Defined.

(** X19.  A [keepRecentMessages] of zero does not trim anything: the
    bound of the slice is then [-0], which selects the whole history, so
    [trimHistory] returns with every block kept and none removed. *)
Theorem trimHistory_keep_zero_keeps_all (bs : list ContextBlock)
    (keepErrors : bool) :
  exists kept,
    trimHistory bs
      {| keepRecentMessages := 0; keepErrorMessages := keepErrors |}
    = Ok (kept, [])
    /\ Permutation kept bs.
Proof.
  unfold trimHistory. cbn [keepRecentMessages keepErrorMessages].
  assert (P := filter_partition_perm (isKind history) bs).
  destruct (List.filter (isKind history) bs) as [|h0 hist'] eqn:Fh.
  { exists bs. now split. }
  cbn zeta. change (- 0) with 0.
  set (sorted := sortBy _ (h0 :: hist')).
  destruct (slice_zero sorted) as [-> ->].
  destruct keepErrors; cbn [mapM List.map bind combine List.filter]; eexists;
    (split; [reflexivity|]); rewrite app_nil_r;
    (eapply Permutation_trans; [|exact P]);
    apply Permutation_app_head; apply sortBy_perm.
Qed.

Lemma map_set_concat_perm (X : Type) (m : jsmap (list X)) (k : string)
    (old : list X) (x : X) :
  map_get m k = Some old ->
  Permutation (List.concat (List.map snd (map_set m k (old ++ [x])%list)))
    (List.concat (List.map snd m) ++ [x]).
Proof.
  induction m as [|[k' v'] m IH]; cbn [map_get map_set]; [discriminate|].
  destruct (String.eqb k k'); intros E.
  - injection E as ->. cbn [List.map List.concat snd].
    rewrite <- !app_assoc. apply Permutation_app_head.
    apply Permutation_app_comm.
  - cbn [List.map List.concat snd]. rewrite <- app_assoc.
    apply Permutation_app_head. now apply IH.
Qed.

Lemma groupByTool_perm (tbs : list ContextBlock) :
  Permutation (List.concat (List.map snd (groupByTool tbs))) tbs.
Proof.
  unfold groupByTool.
  assert (G : forall acc : jsmap (list ContextBlock),
             Permutation
               (List.concat
                  (List.map snd
                     (fold_left
                        (fun byTool block =>
                           let toolId := codecId (meta block) in
                           let byTool :=
                             if map_has byTool toolId then byTool
                             else map_set byTool toolId [] in
                           map_set byTool toolId
                             (match map_get byTool toolId with
                              | Some l => l
                              | None => []
                              end ++ [block])%list) tbs acc)))
               (List.concat (List.map snd acc) ++ tbs)).
  { induction tbs as [|b tbs IH]; intros acc; cbn [fold_left].
    - now rewrite app_nil_r.
    - eapply Permutation_trans; [apply IH|].
      replace (List.concat (List.map snd acc) ++ b :: tbs)%list
        with ((List.concat (List.map snd acc) ++ [b]) ++ tbs)%list
        by (now rewrite <- app_assoc).
      apply Permutation_app_tail. cbn zeta.
      set (k := codecId (meta b)). unfold map_has.
      destruct (map_get acc k) as [old|] eqn:E.
      + rewrite E. now apply map_set_concat_perm.
      + rewrite map_get_set_same.
        eapply Permutation_trans;
          [apply map_set_concat_perm, map_get_set_same|].
        rewrite map_set_fresh by exact E. rewrite map_app, concat_app.
        cbn [List.map List.concat snd app]. now rewrite app_nil_r. }
  apply (G []).
Qed.

Section PruneFacts.
Context `{Host}.

Lemma pruneKept_kind (config : ToolOutputPruningConfig) (b e : ContextBlock)
    (flag : bool) :
  pruneKept config b = Ok (e, flag) -> kind (meta e) = kind (meta b).
Proof.
  intros P. destruct (pruneKept_cases _ _ P) as [->|[np Er]]; [reflexivity|].
  rewrite createReplacementBlock_ok in Er. now injection Er as <-.
Qed.

Lemma pruneGroups_account (config : ToolOutputPruningConfig)
    (groups : jsmap (list ContextBlock)) :
  forall kept removed replaced kept' removed' replaced',
    pruneGroups config groups kept removed replaced
    = Ok (kept', removed', replaced') ->
    exists more,
      kept' = (kept ++ more)%list
      /\ (List.length more + List.length removed'
          = List.length removed
            + List.length (List.concat (List.map snd groups)))%nat
      /\ (forall x, In x removed' ->
                    In x removed \/ In x (List.concat (List.map snd groups)))
      /\ (forall x, In x replaced' ->
                    In x replaced \/ In x (List.concat (List.map snd groups)))
      /\ (maxOutputsPerTool config = 0 -> removed' = removed).
Proof.
  induction groups as [|[k l] groups IH];
    intros kept removed replaced kept' removed' replaced' E.
  - cbn in E. injection E as <- <- <-. exists []. rewrite app_nil_r.
    cbn. repeat split; auto.
  - cbn [pruneGroups] in E.
    set (sorted := sortBy (fun a b => createdAt (meta a) - createdAt (meta b)) l)
      in E.
    assert (Ps : Permutation sorted l) by apply sortBy_perm.
    assert (Es := slice_split sorted (- maxOutputsPerTool config)).
    set (toKeep := slice sorted (- maxOutputsPerTool config) None) in *.
    set (toRemove := slice sorted 0 (Some (- maxOutputsPerTool config))) in *.
    destruct (mapM (pruneKept config) toKeep) as [results|] eqn:Em;
      [|discriminate].
    cbn [bind] in E.
    destruct (IH _ _ _ _ _ _ E) as (more & Ek & El & Ir & Ip & Z0).
    assert (Lr := mapM_length _ _ Em).
    assert (Ll : (List.length toRemove + List.length toKeep
                  = List.length l)%nat).
    { rewrite <- length_app, Es. now apply Permutation_length. }
    assert (Is : forall x, In x sorted -> In x l)
      by (intros x; apply (Permutation_in _ Ps)).
    exists (List.map fst results ++ more)%list.
    cbn [List.map List.concat snd]. split; [|split; [|split; [|split]]].
    + rewrite Ek. now rewrite <- app_assoc.
    + rewrite !length_app, length_map in *. lia.
    + intros x Ix. destruct (Ir x Ix) as [I|I].
      * apply in_app_or in I as [I|I]; [now left|]. right.
        apply in_or_app. left. apply Is. rewrite <- Es. apply in_or_app.
        now left.
      * right. apply in_or_app. now right.
    + intros x Ix. destruct (Ip x Ix) as [I|I].
      * apply in_app_or in I as [I|I]; [now left|]. right.
        apply in_or_app. left. apply Is.
        apply in_map_iff in I as ([e b] & <- & I). cbn [snd].
        apply filter_In in I as [I _]. apply in_combine_r in I.
        rewrite <- Es. apply in_or_app. now right.
      * right. apply in_or_app. now right.
    + intros Z. rewrite (Z0 Z). subst toRemove. rewrite Z.
      change (- 0) with 0. rewrite (proj1 (slice_zero sorted)).
      apply app_nil_r.
Qed.

Lemma mapM_app (X Y : Type) (f : X -> result Y) (l1 l2 : list X)
    (r1 r2 : list Y) :
  mapM f l1 = Ok r1 -> mapM f l2 = Ok r2 ->
  mapM f (l1 ++ l2) = Ok (r1 ++ r2)%list.
Proof.
  revert r1. induction l1 as [|x l1 IH]; cbn [mapM app]; intros r1 E1 E2.
  - injection E1 as <-. exact E2.
  - destruct (f x) as [y|]; [|discriminate]. cbn [bind] in *.
    destruct (mapM f l1) as [ys|]; [|discriminate]. cbn [bind] in *.
    injection E1 as <-. now rewrite (IH ys eq_refl E2).
Qed.

Lemma combine_app_same (X Y : Type) (l1 l2 : list X) (r1 r2 : list Y) :
  List.length l1 = List.length r1 ->
  combine (l1 ++ l2) (r1 ++ r2) = (combine l1 r1 ++ combine l2 r2)%list.
Proof.
  revert r1. induction l1 as [|x l1 IH]; intros [|y r1] L;
    try discriminate; [reflexivity|].
  cbn [app combine]. f_equal. apply IH. now injection L.
Qed.

(** What one kept tool output becomes: itself, or the replacement block
    whose output is the truncated tail. *)
Lemma pruneKept_spec (config : ToolOutputPruningConfig) (b e : ContextBlock)
    (flag : bool) :
  pruneKept config b = Ok (e, flag) ->
  (flag = false /\ e = b)
  \/ (flag = true
      /\ exists o text,
           payload b = JObj o
           /\ get o "output" = JStr text
           /\ maxRawTailChars config < strLength text
           /\ createReplacementBlock b
                (JObj (obj_define
                         (obj_define o "output"
                            (JStr (truncateTail text (maxRawTailChars config))))
                         "_truncated" (JBool true)))
                "tool_output_prune" "1.0.0" = Ok e).
Proof.
  unfold pruneKept. intros E.
  destruct (payload b) as [| |bb|n|str|xs|o] eqn:Ep; cbn [prop bind] in E;
    try discriminate;
    try (cbn [andb] in E; injection E as <- <-; left; now split).
  destruct (get o "output") as [| |bb|n|text|xs|o'] eqn:Eo;
    try (cbn [andb] in E; injection E as <- <-; left; now split).
  match type of E with
  | (if ?c then _ else _) = _ => destruct c eqn:Ec
  end.
  - right. rewrite createReplacementBlock_ok in E. cbn [bind] in E.
    injection E as <- <-. split; [reflexivity|]. exists o, text.
    apply andb_prop in Ec as [Ec _]. apply andb_prop in Ec as [_ Ec].
    apply Z.gtb_lt in Ec.
    split; [reflexivity|]. split; [exact Eo|]. split; [exact Ec|].
    apply createReplacementBlock_ok.
  - left. injection E as <- <-. now split.
Qed.

(** The kept blocks are the results of [pruneKept] on the blocks that are
    not removed, the replaced blocks are those that it replaced, and kept
    and removed blocks together are the blocks of the groups. *)
Lemma pruneGroups_origins (config : ToolOutputPruningConfig)
    (groups : jsmap (list ContextBlock)) :
  forall kept removed replaced kept' removed' replaced',
    pruneGroups config groups kept removed replaced
    = Ok (kept', removed', replaced') ->
    exists origins results gone,
      mapM (pruneKept config) origins = Ok results
      /\ kept' = (kept ++ List.map fst results)%list
      /\ removed' = (removed ++ gone)%list
      /\ replaced'
         = (replaced
            ++ List.map snd
                 (List.filter (fun br => snd (fst br))
                    (combine results origins)))%list
      /\ Permutation (origins ++ gone) (List.concat (List.map snd groups)).
Proof.
  induction groups as [|[k l] groups IH];
    intros kept removed replaced kept' removed' replaced' E.
  - cbn in E. injection E as <- <- <-. exists [], [], [].
    cbn. rewrite !app_nil_r. repeat split. constructor.
  - cbn [pruneGroups] in E.
    set (sorted := sortBy (fun a b => createdAt (meta a) - createdAt (meta b)) l)
      in E.
    assert (Ps : Permutation sorted l) by apply sortBy_perm.
    assert (Es := slice_split sorted (- maxOutputsPerTool config)).
    set (toKeep := slice sorted (- maxOutputsPerTool config) None) in *.
    set (toRemove := slice sorted 0 (Some (- maxOutputsPerTool config))) in *.
    destruct (mapM (pruneKept config) toKeep) as [results|] eqn:Em;
      [|discriminate].
    cbn [bind] in E.
    destruct (IH _ _ _ _ _ _ E)
      as (origins & results' & gone & Em' & Ek & Er & Ep & Pm).
    exists (toKeep ++ origins)%list, (results ++ results')%list,
           (toRemove ++ gone)%list.
    split; [now apply mapM_app|].
    split; [rewrite Ek, map_app; now rewrite <- app_assoc|].
    split; [rewrite Er; now rewrite <- app_assoc|].
    split.
    + rewrite Ep, combine_app_same by (now apply mapM_length in Em).
      rewrite filter_app, map_app. now rewrite <- app_assoc.
    + cbn [List.map List.concat snd].
      eapply Permutation_trans;
        [|apply Permutation_app; [exact Ps|exact Pm]].
      rewrite <- Es, <- !app_assoc.
      eapply Permutation_trans;
        [apply Permutation_app_head, Permutation_app_swap_app|].
      rewrite !app_assoc. do 2 apply Permutation_app_tail.
      apply Permutation_app_comm.
Qed.

(** The blocks that [pruneKept] replaced are listed as replaced. *)
Lemma pruneKept_Forall2 (config : ToolOutputPruningConfig)
    (origins : list ContextBlock) (results : list (ContextBlock * bool))
    (rep : list ContextBlock) :
  mapM (pruneKept config) origins = Ok results ->
  (forall x,
     In x (List.map snd
             (List.filter (fun br => snd (fst br)) (combine results origins))) ->
     In x rep) ->
  Forall2
    (fun b e =>
       e = b
       \/ exists o text,
            In b rep
            /\ payload b = JObj o
            /\ get o "output" = JStr text
            /\ maxRawTailChars config < strLength text
            /\ createReplacementBlock b
                 (JObj (obj_define
                          (obj_define o "output"
                             (JStr (truncateTail text
                                      (maxRawTailChars config))))
                          "_truncated" (JBool true)))
                 "tool_output_prune" "1.0.0" = Ok e)
    origins (List.map fst results).
Proof.
  intros E. apply mapM_Forall2 in E.
  induction E as [|b [e flag] origins results P F IH]; intros I;
    [constructor|].
  cbn [List.map fst]. constructor.
  - destruct (pruneKept_spec _ _ P) as [[_ ->]|[-> (o & text & A & B & C & D)]];
      [now left|].
    right. exists o, text. split; [|now repeat split].
    apply I. cbn. now left.
  - apply IH. intros x Ix. apply I. cbn [combine List.filter fst snd].
    destruct flag; cbn [List.map]; [now right|exact Ix].
Qed.

(** [pruneToolOutputs] neither loses nor duplicates a block. *)
Lemma pruneToolOutputs_length (bs : list ContextBlock)
    (config : ToolOutputPruningConfig) (r : PruneResult) :
  pruneToolOutputs bs config = Ok r ->
  (List.length (p_blocks r) + List.length (p_removed r)
   = List.length bs)%nat.
Proof.
  unfold pruneToolOutputs. intros E.
  destruct (pruneGroups config _ [] [] []) as [[[kept removed] replaced]|] eqn:Eg;
    [|discriminate].
  cbn [bind] in E. injection E as <-. cbn [p_blocks p_removed].
  destruct (pruneGroups_account _ _ _ _ _ Eg) as (more & Ek & El & _).
  cbn [app] in Ek. subst more. cbn [List.length] in El.
  assert (Pg := groupByTool_perm (List.filter (isKind tool_output) bs)).
  apply Permutation_length in Pg.
  assert (F := filter_partition_length (isKind tool_output) bs).
  rewrite length_app. lia.
Qed.

(** X20.  When [pruneToolOutputs] returns, the blocks of the other kinds
    come first and unchanged; they are followed by the kept tool outputs.
    Every tool output of the input is accounted for once: the removed
    blocks and the blocks the kept ones come from are together a
    rearrangement of the tool outputs of the input, and a kept block is
    the block it comes from or, when the output of that block is a string
    longer than [maxRawTailChars], its replacement, whose output is the
    truncated tail and whose original is listed as replaced.  Removed and
    replaced blocks are tool outputs of the input.  With
    [maxOutputsPerTool] zero nothing is removed. *)
Theorem pruneToolOutputs_accounts_for_tool_outputs (bs : list ContextBlock)
    (config : ToolOutputPruningConfig) (r : PruneResult) :
  pruneToolOutputs bs config = Ok r ->
  exists origins kept,
    p_blocks r
    = (List.filter (fun b => negb (isKind tool_output b)) bs ++ kept)%list
    /\ Permutation (origins ++ p_removed r)
         (List.filter (isKind tool_output) bs)
    /\ Forall2
         (fun b e =>
            e = b
            \/ exists o text,
                 In b (p_replaced r)
                 /\ payload b = JObj o
                 /\ get o "output" = JStr text
                 /\ maxRawTailChars config < strLength text
                 /\ createReplacementBlock b
                      (JObj (obj_define
                               (obj_define o "output"
                                  (JStr (truncateTail text
                                           (maxRawTailChars config))))
                               "_truncated" (JBool true)))
                      "tool_output_prune" "1.0.0" = Ok e)
         origins kept
    /\ (forall e, In e kept -> kind (meta e) = tool_output)
    /\ (List.length kept + List.length (p_removed r)
        = List.length (List.filter (isKind tool_output) bs))%nat
    /\ (forall x, In x (p_removed r) ->
                  In x bs /\ kind (meta x) = tool_output)
    /\ (forall x, In x (p_replaced r) ->
                  In x bs /\ kind (meta x) = tool_output)
    /\ (maxOutputsPerTool config = 0 -> p_removed r = []).
Proof.
  unfold pruneToolOutputs. intros E.
  destruct (pruneGroups config _ [] [] []) as [[[kept removed] replaced]|] eqn:Eg;
    [|discriminate].
  cbn [bind] in E. injection E as <-. cbn [p_blocks p_removed p_replaced].
  destruct (pruneGroups_account _ _ _ _ _ Eg) as (more & Ek & El & Ir & Ip & Z0).
  cbn [app] in Ek. subst more.
  destruct (pruneGroups_origins _ _ _ _ _ Eg)
    as (origins & results & gone & Em & Ek & Er & Ep & Pm).
  cbn [app] in Ek, Er, Ep. subst gone.
  assert (Pg := groupByTool_perm (List.filter (isKind tool_output) bs)).
  assert (Ig : forall x,
             In x (List.concat
                     (List.map snd
                        (groupByTool (List.filter (isKind tool_output) bs)))) ->
             In x bs /\ kind (meta x) = tool_output).
  { intros x Ix. apply (Permutation_in _ Pg) in Ix.
    apply filter_In in Ix as [Ix K]. split; [exact Ix|now apply isKind_true]. }
  exists origins, kept. split; [reflexivity|].
  split; [eapply Permutation_trans; [exact Pm|exact Pg]|].
  split.
  { rewrite Ek. eapply pruneKept_Forall2; [exact Em|].
    intros x Ix. now rewrite Ep. }
  split; [|split; [|split; [|split]]].
  - intros e Ie.
    destruct (pruneGroups_kept _ _ _ _ _ Eg e Ie)
      as [[]|(k & l & b & flag & I1 & I2 & P)].
    rewrite (pruneKept_kind _ _ P).
    apply (groupByTool_members _ _ _ _ I1) in I2.
    apply filter_In in I2 as [_ K]. now apply isKind_true.
  - rewrite El. cbn [List.length]. now apply Permutation_length.
  - intros x Ix. destruct (Ir x Ix) as [[]|I]. now apply Ig.
  - intros x Ix. destruct (Ip x Ix) as [[]|I]. now apply Ig.
  - exact Z0.
Qed.

End PruneFacts.

Lemma string_app_assoc (a b c : string) : (a ++ b) ++ c = a ++ (b ++ c).
Proof. induction a as [|x a IH]; simpl; [reflexivity|now rewrite IH]. Qed.

Lemma Z_to_string_ascii (n : Z) : isAscii (Z_to_string n) = true.
Proof.
  unfold Z_to_string.
  assert (U : forall d, isAscii (NilEmpty.string_of_uint d) = true)
    by (induction d; cbn; auto).
  assert (U' : forall d, isAscii (NilZero.string_of_uint d) = true)
    by (intros d; destruct d; try reflexivity; apply (U _)).
  destruct (Z.to_int n) as [d|d]; cbn [NilZero.string_of_int];
    [apply U'|].
  change (String "-" (NilZero.string_of_uint d))
    with ("-" ++ NilZero.string_of_uint d).
  rewrite isAscii_app, U'. reflexivity.
Qed.

Lemma truncationMarker_ascii (n : Z) : isAscii (truncationMarker n) = true.
Proof.
  unfold truncationMarker. rewrite !isAscii_app, Z_to_string_ascii.
  reflexivity.
Qed.

Lemma truncateTail_short (text : string) (maxChars : Z) :
  strLength text <= maxChars -> truncateTail text maxChars = text.
Proof.
  intros L. unfold truncateTail.
  now rewrite (proj2 (Z.leb_le _ _) L).
Qed.

Lemma truncateTail_long (text : string) (maxChars : Z) :
  maxChars < strLength text ->
  truncateTail text maxChars
  = truncationMarker (strLength text - maxChars)
      ++ fromCodeUnits (slice (codeUnits text) (- maxChars) None).
Proof.
  intros L. unfold truncateTail, strSlice, truncationMarker.
  assert (E : (strLength text <=? maxChars) = false) by lia.
  rewrite E. now rewrite !string_app_assoc.
Qed.

(** X21.  [truncateTail] returns a text that fits unchanged, the length
    of a text being the number of its UTF-16 code units.  A longer text is
    replaced by a marker line that gives the number of code units left
    out, followed by the last [maxChars] code units of the text, so the
    result is longer than [maxChars] by the marker; with [maxChars] zero
    the marker is followed by the whole text, because the slice bound is
    then [-0]. *)
Theorem truncateTail_keeps_tail (text : string) (maxChars : Z) :
  (strLength text <= maxChars -> truncateTail text maxChars = text)
  /\ (0 < maxChars < strLength text ->
      codeUnits (truncateTail text maxChars)
      = (codeUnits (truncationMarker (strLength text - maxChars))
         ++ skipn (List.length (codeUnits text) - Z.to_nat maxChars)
              (codeUnits text))%list
      /\ strLength (truncateTail text maxChars)
         = strLength (truncationMarker (strLength text - maxChars))
           + maxChars)
  /\ (maxChars = 0 -> text <> EmptyString ->
      codeUnits (truncateTail text maxChars)
      = (codeUnits (truncationMarker (strLength text))
         ++ codeUnits text)%list).
Proof.
  assert (T : forall k,
             codeUnits (fromCodeUnits (skipn k (codeUnits text)))
             = skipn k (codeUnits text)).
  { intros k. apply codeUnits_fromCodeUnits.
    pose proof (codeUnits_range text) as F.
    rewrite <- (firstn_skipn k (codeUnits text)) in F.
    now apply Forall_app in F. }
  split; [apply truncateTail_short|]. split.
  - intros [L0 L1]. rewrite truncateTail_long by exact L1.
    assert (E : slice (codeUnits text) (- maxChars) None
                = skipn (List.length (codeUnits text) - Z.to_nat maxChars)
                    (codeUnits text)).
    { unfold slice, sliceIndex. unfold strLength in L1.
      assert (E' : (- maxChars <? 0) = true) by lia. rewrite E'.
      replace (Z.to_nat
                 (Z.max (Z.of_nat (List.length (codeUnits text)) + - maxChars) 0))
        with (List.length (codeUnits text) - Z.to_nat maxChars)%nat by lia.
      apply firstn_all2. rewrite length_skipn. lia. }
    rewrite (@codeUnits_ascii_app _ _ (truncationMarker_ascii _)), E, T.
    split; [reflexivity|].
    unfold strLength at 1.
    rewrite (@codeUnits_ascii_app _ _ (truncationMarker_ascii _)), T.
    rewrite length_app, length_skipn. unfold strLength in *. lia.
  - intros -> N.
    assert (P : 0 < strLength text).
    { unfold strLength, codeUnits.
      pose proof (codePoints_nonempty N) as Q.
      destruct (codePoints text) as [|cp l]; [congruence|].
      cbn [flat_map]. rewrite length_app. unfold utf16.
      destruct (cp <? 65536); cbn [List.length]; lia. }
    rewrite truncateTail_long by exact P.
    rewrite (@codeUnits_ascii_app _ _ (truncationMarker_ascii _)).
    rewrite Z.sub_0_r. change (- 0) with 0.
    assert (E : slice (codeUnits text) 0 None = skipn 0 (codeUnits text)).
    { unfold slice, sliceIndex. change (0 <? 0) with false. cbn iota.
      replace (Z.min 0 (Z.of_nat (List.length (codeUnits text)))) with 0
        by lia.
      rewrite Z.sub_0_r, Nat2Z.id. cbn [Z.to_nat skipn]. apply firstn_all. }
    rewrite E, T. reflexivity.
Qed.

Section CompactViewFacts.
Context `{Host}.

Lemma sumOver_app (f : StepReport -> Z) (l1 l2 : list StepReport) :
  sumOver f (l1 ++ l2) = sumOver f l1 + sumOver f l2.
Proof.
  unfold sumOver. induction l1 as [|x l1 IH]; cbn [app fold_right]; lia.
Qed.

Lemma compactStep_report (config : PipelineCompactionConfig)
    (estimator : TokenEstimator) (bs bs' removed : list ContextBlock)
    (st : CompactionStep) (rep : StepReport) :
  compactStep config estimator bs st = Ok (bs', removed, rep) ->
  step rep = st
  /\ blocksRemoved rep = lengthZ removed
  /\ lengthZ bs' + lengthZ removed = lengthZ bs + blocksAdded rep.
Proof.
  unfold blocksAdded, lengthZ. destruct st; cbn [compactStep]; intros E.
  - injection E as <- <- <-. cbn [step blocksRemoved]. repeat split.
    assert (P := dedupLoop_perm bs [] [] []). cbn [app] in P.
    apply Permutation_length in P. rewrite length_app in P.
    unfold deduplicateBlocks. lia.
  - destruct (pruneToolOutputs bs _) as [r|] eqn:Ep; [|discriminate].
    cbn [bind] in E. injection E as <- <- <-. cbn [step blocksRemoved].
    repeat split.
    assert (L := pruneToolOutputs_length _ _ Ep). lia.
  - destruct (trimHistory bs _) as [[kept rm]|] eqn:Et; [|discriminate].
    cbn [bind] in E. injection E as <- <- <-. cbn [step blocksRemoved fst snd].
    repeat split.
    destruct (trimHistory_shape _ _ Et) as (keptHistory & -> & P).
    apply Permutation_length in P. rewrite !length_app in *.
    assert (F := filter_partition_length (isKind history) bs). lia.
  - match type of E with
    | match ?c with Some _ => _ | None => _ end = _ =>
        destruct c as [[sc sm]|]
    end.
    + destruct (lengthZ (List.filter (isKind history) bs) <? minMessages sc).
      { injection E as <- <- <-. cbn. repeat split; lia. }
      cbn zeta in E.
      assert (Es := slice_split (List.filter (isKind history) bs) (Z.opp 10)).
      set (recent := slice (List.filter (isKind history) bs) (Z.opp 10) None)
        in *.
      destruct (slice (List.filter (isKind history) bs) 0 (Some (Z.opp 10)))
        as [|o old] eqn:Eo.
      { injection E as <- <- <-. cbn. repeat split; lia. }
      destruct (sm (o :: old) _) as [sb|]; [|discriminate].
      cbn [bind] in E. injection E as <- <- <-.
      cbn [step blocksRemoved blocksReplaced]. repeat split.
      assert (F := filter_partition_length (isKind history) bs).
      rewrite <- Es in F. rewrite !length_app in *. cbn [List.length] in *.
      lia.
    + injection E as <- <- <-. cbn. repeat split; lia.
Qed.

Lemma compactLoop_report (config : PipelineCompactionConfig)
    (estimator : TokenEstimator) (todo : list CompactionStep) :
  forall bs removedBlocks stepReports bs' removed' reports',
    compactLoop config estimator todo bs removedBlocks stepReports
    = Ok (bs', removed', reports') ->
    exists more,
      reports' = (stepReports ++ more)%list
      /\ List.map step more = todo
      /\ lengthZ removed' = lengthZ removedBlocks + sumOver blocksRemoved more
      /\ lengthZ bs' + lengthZ removed'
         = lengthZ bs + lengthZ removedBlocks + sumOver blocksAdded more.
Proof.
  induction todo as [|st todo IH];
    intros bs removedBlocks stepReports bs' removed' reports' E;
    cbn [compactLoop] in E.
  - injection E as <- <- <-. exists []. rewrite app_nil_r. cbn.
    repeat split; lia.
  - destruct (compactStep config estimator bs st) as [[[bs1 rm] rep]|] eqn:Es;
      [|discriminate].
    cbn [bind] in E.
    destruct (compactStep_report _ _ _ _ Es) as (S1 & S2 & S3).
    destruct (IH _ _ _ _ _ _ E) as (more & R & M & L1 & L2).
    exists (rep :: more). split; [|split; [|split]].
    + rewrite R. now rewrite <- app_assoc.
    + cbn [List.map]. now rewrite S1, M.
    + unfold lengthZ in *. rewrite length_app in L1.
      unfold sumOver in *. cbn [fold_right]. lia.
    + unfold lengthZ in *. rewrite length_app in L2.
      unfold sumOver in *. cbn [fold_right]. lia.
Qed.

(** X22.  When [compactView] returns, its report lists one step report
    per configured step, in order; the removal counts of the step reports
    add up to the number of removed blocks; the token figures are the
    estimate of the input view (zero when the view has none), the
    estimate of the result, and their difference. *)
Theorem compactView_report_consistent (view : ContextView)
    (config : PipelineCompactionConfig) (estimator : TokenEstimator)
    (res : CompactionResult) :
  compactView view config estimator = Ok res ->
  stepsApplied (report res) = steps config
  /\ List.map step (stepReports (report res)) = steps config
  /\ sumOver blocksRemoved (stepReports (report res))
     = lengthZ (removedBlocks res)
  /\ beforeTokens (report res)
     = match tokenEstimate view with Some e => v_tokens e | None => 0 end
  /\ afterTokens (report res) = tokensOrZero estimator (c_blocks res)
  /\ savedTokens (report res)
     = beforeTokens (report res) - afterTokens (report res).
Proof.
  unfold compactView. intros E.
  destruct (compactLoop config estimator (steps config) (blocks view) [] [])
    as [[[bs removed] reports]|] eqn:El; [|discriminate].
  cbn [bind] in E. injection E as <-.
  cbn [report stepsApplied stepReports removedBlocks c_blocks beforeTokens
       afterTokens savedTokens].
  destruct (compactLoop_report _ _ _ _ _ _ El) as (more & R & M & L1 & _).
  cbn [app] in R. subst more. cbn in L1.
  repeat split; [exact M|lia].
Qed.

(** X23.  Compaction accounts for every block: when [compactView]
    returns, the blocks of the result and the removed blocks are together
    as many as the blocks of the input view, plus one for every summary
    block that a summarization put in. *)
Theorem compactView_accounts_for_blocks (view : ContextView)
    (config : PipelineCompactionConfig) (estimator : TokenEstimator)
    (res : CompactionResult) :
  compactView view config estimator = Ok res ->
  lengthZ (c_blocks res) + lengthZ (removedBlocks res)
  = lengthZ (blocks view) + sumOver blocksAdded (stepReports (report res)).
Proof.
  unfold compactView. intros E.
  destruct (compactLoop config estimator (steps config) (blocks view) [] [])
    as [[[bs removed] reports]|] eqn:El; [|discriminate].
  cbn [bind] in E. injection E as <-.
  cbn [report stepReports removedBlocks c_blocks].
  destruct (compactLoop_report _ _ _ _ _ _ El) as (more & R & _ & _ & L2).
  cbn [app] in R. subst more. cbn in L2. lia.
Qed.
End CompactViewFacts.

Lemma pruneToolOutputs_accounts_for_tool_outputs_witness :
  exists r origins kept,
    pruneToolOutputs (H := NodeHost)
      [sampleBlock hashB pinned public; longToolOutput] tailOfTen = Ok r
    /\ p_blocks r = (sampleBlock hashB pinned public :: kept)%list
    /\ Permutation (origins ++ p_removed r) [longToolOutput]
    /\ (forall e, In e kept -> kind (meta e) = tool_output)
    /\ (List.length kept + List.length (p_removed r) = 1)%nat.
Proof.
  eexists.
  destruct (@pruneToolOutputs_accounts_for_tool_outputs NodeHost
              [sampleBlock hashB pinned public; longToolOutput] tailOfTen _
              eq_refl)
    as (origins & kept & B & P & _ & K & L & _).
  exists origins, kept. split; [reflexivity|]. split; [exact B|].
  split; [exact P|]. split; [exact K|exact L].
Defined.

Lemma compactView_report_consistent_witness :
  exists res,
    compactView (H := NodeHost) duplicatedView trimOnly sampleEstimator = Ok res
    /\ stepsApplied (report res) = [dedupe; history_trim]
    /\ List.map step (stepReports (report res)) = [dedupe; history_trim]
    /\ sumOver blocksRemoved (stepReports (report res))
       = lengthZ (removedBlocks res).
Proof.
  eexists. split; [reflexivity|].
  destruct (@compactView_report_consistent NodeHost duplicatedView trimOnly
              sampleEstimator _ eq_refl) as (A & B & C & _).
  split; [exact A|]. split; [exact B|exact C].
Defined.

Lemma compactView_accounts_for_blocks_witness :
  exists res,
    compactView (H := NodeHost) duplicatedView trimOnly sampleEstimator = Ok res
    /\ lengthZ (c_blocks res) + lengthZ (removedBlocks res)
       = lengthZ (blocks duplicatedView)
         + sumOver blocksAdded (stepReports (report res)).
Proof.
  eexists. split; [reflexivity|].
  exact (@compactView_accounts_for_blocks NodeHost duplicatedView trimOnly
           sampleEstimator _ eq_refl).
Defined.

(** ** Gemini messages *)

Lemma alternateLoop_nonempty (messages : list GeminiMessage) :
  forall res r ps,
    (forall m, In m res -> parts m <> []) ->
    forall m, In m (fst (fst (alternateLoop messages res r ps))) ->
              parts m <> [].
Proof.
  induction messages as [|msg rest IH]; intros res r ps NE; [exact NE|].
  cbn [alternateLoop]. destruct r as [r|]; [|now apply IH].
  destruct (Role_eqb (role msg) r); [now apply IH|].
  apply IH. destruct ps as [|p ps]; [exact NE|].
  intros m Im. apply in_app_or in Im as [Im|[<-|[]]]; [now apply NE|].
  discriminate.
Qed.

Lemma enforceAlternatingRoles_nonempty (messages : list GeminiMessage) :
  forall m, In m (enforceAlternatingRoles messages) -> parts m <> [].
Proof.
  unfold enforceAlternatingRoles.
  pose proof (@alternateLoop_nonempty messages [] None []
                (fun m (Hm : In m []) => match Hm with end)) as NE.
  destruct (alternateLoop messages [] None []) as [[res r] ps].
  cbn [fst] in NE. destruct r as [r|]; [|exact NE].
  destruct ps as [|p ps]; [exact NE|].
  intros m Im. apply in_app_or in Im as [Im|[<-|[]]]; [now apply NE|].
  discriminate.
Qed.

(** X24.  [enforceAlternatingRoles] never returns a message without
    parts, and it neither loses, adds nor reorders parts: the parts of
    its result, taken in order, are the parts of its input. *)
Theorem enforceAlternatingRoles_keeps_parts (messages : list GeminiMessage) :
  (forall m, In m (enforceAlternatingRoles messages) -> parts m <> [])
  /\ List.concat (List.map parts (enforceAlternatingRoles messages))
     = List.concat (List.map parts messages).
Proof.
  split; [apply enforceAlternatingRoles_nonempty|].
  apply enforceAlternatingRoles_parts.
Qed.

Lemma alternationDiagnostics_nil (messages : list GeminiMessage) :
  forall i lastRole,
    alternationDiagnostics messages i lastRole = []
    <-> alternating
          (match lastRole with Some r => [r] | None => [] end
             ++ List.map role messages).
Proof.
  induction messages as [|msg rest IH]; intros i lastRole.
  - cbn. destruct lastRole; cbn; tauto.
  - cbn [alternationDiagnostics List.map].
    specialize (IH (i + 1) (Some (role msg))). cbn [app] in IH.
    destruct lastRole as [r|]; cbn [app].
    + destruct (Role_eqb_spec (role msg) r) as [E|N].
      * split; [discriminate|]. cbn [alternating]. intros [A _]. congruence.
      * cbn [app]. rewrite IH. cbn [alternating].
        split; [intros A; split; [congruence|exact A]|tauto].
    + exact IH.
Qed.

Lemma emptyPartsDiagnostics_nil (messages : list GeminiMessage) :
  forall i,
    emptyPartsDiagnostics messages i = []
    <-> forall m, In m messages -> parts m <> [].
Proof.
  induction messages as [|msg rest IH]; intros i.
  - cbn. split; [intros _ m []|reflexivity].
  - cbn [emptyPartsDiagnostics]. specialize (IH (i + 1)).
    destruct (parts msg) as [|p ps] eqn:E.
    + split; [discriminate|]. intros A. now destruct (A msg (or_introl eq_refl)).
    + cbn [app]. rewrite IH. split.
      * intros A m [<-|Im]; [congruence|now apply A].
      * intros A m Im. apply A. now right.
Qed.

Lemma validateGeminiMessages_nil (messages : list GeminiMessage) :
  validateGeminiMessages messages = []
  <-> messages <> []
      /\ alternating (List.map role messages)
      /\ forall m, In m messages -> parts m <> [].
Proof.
  unfold validateGeminiMessages. destruct messages as [|msg rest].
  - split; [discriminate|]. intros [N _]. now destruct N.
  - split.
    + intros E. apply app_eq_nil in E as [E1 E2].
      apply alternationDiagnostics_nil in E1.
      assert (E3 := proj1 (emptyPartsDiagnostics_nil _ _) E2).
      split; [discriminate|]. split; [exact E1|exact E3].
    + intros (_ & A & P).
      apply (proj2 (alternationDiagnostics_nil _ 0 None)) in A.
      assert (P' := proj2 (emptyPartsDiagnostics_nil _ 0) P).
      now rewrite A, P'.
Qed.

(** X25.  [validateGeminiMessages] reports nothing exactly when the
    sequence is not empty, no two neighbours have the same role, and every
    message has at least one part; every diagnostic it reports is an
    error. *)
Theorem validateGeminiMessages_accepts (messages : list GeminiMessage) :
  (validateGeminiMessages messages = []
   <-> messages <> []
       /\ alternating (List.map role messages)
       /\ forall m, In m messages -> parts m <> [])
  /\ forall d, In d (validateGeminiMessages messages) ->
               level d = level_error.
Proof.
  split; [apply validateGeminiMessages_nil|].
  assert (A : forall ms i l d,
             In d (alternationDiagnostics ms i l) -> level d = level_error).
  { induction ms as [|m ms IH]; intros i l d; cbn [alternationDiagnostics];
      [intros []|].
    intros I. apply in_app_or in I as [I|I]; [|now apply IH in I].
    destruct l as [r|]; [|destruct I].
    destruct (Role_eqb (role m) r); [|destruct I].
    now destruct I as [<-|[]]. }
  assert (P : forall ms i d,
             In d (emptyPartsDiagnostics ms i) -> level d = level_error).
  { induction ms as [|m ms IH]; intros i d; cbn [emptyPartsDiagnostics];
      [intros []|].
    intros I. apply in_app_or in I as [I|I]; [|now apply IH in I].
    destruct (parts m); [|destruct I]. now destruct I as [<-|[]]. }
  intros d. unfold validateGeminiMessages.
  destruct messages as [|msg rest]; [now intros [<-|[]]|].
  intros I. apply in_app_or in I as [I|I]; [now apply A in I|now apply P in I].
Qed.

(** X26.  For a sequence that is not empty and whose messages all have at
    least one part, the result of [enforceAlternatingRoles] passes
    [validateGeminiMessages] without a diagnostic. *)
Theorem enforced_messages_validate (messages : list GeminiMessage) :
  messages <> [] ->
  (forall m, In m messages -> parts m <> []) ->
  validateGeminiMessages (enforceAlternatingRoles messages) = [].
Proof.
  intros N P. apply validateGeminiMessages_nil. split; [|split].
  - intros E.
    assert (C := enforceAlternatingRoles_parts messages). rewrite E in C.
    destruct messages as [|m rest]; [now destruct N|].
    cbn [List.map List.concat] in C.
    destruct (parts m) eqn:Em; [|discriminate].
    now destruct (P m (or_introl eq_refl)).
  - now apply enforceAlternatingRoles_alternating.
  - apply enforceAlternatingRoles_nonempty.
Qed.

Lemma enforced_messages_validate_witness :
  threeMessages <> []
  /\ (forall m, In m threeMessages -> parts m <> [])
  /\ validateGeminiMessages (enforceAlternatingRoles threeMessages) = [].
Proof.
  assert (N : threeMessages <> []) by discriminate.
  assert (P : forall m, In m threeMessages -> parts m <> []).
  { intros m [<-|[<-|[<-|[]]]]; discriminate. }
  split; [exact N|]. split; [exact P|].
  exact (@enforced_messages_validate threeMessages N P).
Defined.

Lemma alternateLoop_fixpoint (messages : list GeminiMessage) :
  forall res r ps,
    ps <> [] ->
    alternating (r :: List.map role messages) ->
    (forall m, In m messages -> parts m <> []) ->
    exists res' r' ps',
      alternateLoop messages res (Some r) ps = (res', Some r', ps')
      /\ ps' <> []
      /\ (res' ++ [ {| role := r'; parts := ps' |} ])%list
         = (res ++ {| role := r; parts := ps |} :: messages)%list.
Proof.
  induction messages as [|msg rest IH]; intros res r ps Pne A NE.
  - exists res, r, ps. now repeat split.
  - cbn [alternateLoop]. cbn [List.map alternating] in A. destruct A as [N A].
    destruct (Role_eqb_spec (role msg) r) as [E|_]; [congruence|].
    destruct ps as [|p ps]; [contradiction|].
    destruct (IH (res ++ [ {| role := r; parts := p :: ps |} ])%list
                (role msg) (parts msg))
      as (res' & r' & ps' & E & Pne' & F).
    + apply NE. now left.
    + exact A.
    + intros m Im. apply NE. now right.
    + exists res', r', ps'. split; [exact E|]. split; [exact Pne'|].
      rewrite F, <- app_assoc. cbn [app]. now destruct msg.
Qed.

(** X27.  A sequence that already alternates and has no message without
    parts is returned unchanged by [enforceAlternatingRoles]; so, on
    sequences whose messages all have parts, enforcing twice is the same
    as enforcing once. *)
Theorem enforceAlternatingRoles_fixpoint (messages : list GeminiMessage) :
  (alternating (List.map role messages) ->
   (forall m, In m messages -> parts m <> []) ->
   enforceAlternatingRoles messages = messages)
  /\ ((forall m, In m messages -> parts m <> []) ->
      enforceAlternatingRoles (enforceAlternatingRoles messages)
      = enforceAlternatingRoles messages).
Proof.
  assert (F : forall ms,
             alternating (List.map role ms) ->
             (forall m, In m ms -> parts m <> []) ->
             enforceAlternatingRoles ms = ms).
  { intros ms A NE. unfold enforceAlternatingRoles.
    destruct ms as [|msg rest]; [reflexivity|]. cbn [alternateLoop].
    destruct (@alternateLoop_fixpoint rest [] (role msg) (parts msg))
      as (res' & r' & ps' & E & Pne & G).
    - apply NE. now left.
    - exact A.
    - intros m Im. apply NE. now right.
    - rewrite E. destruct ps' as [|p ps']; [contradiction|].
      rewrite G. cbn [app]. now destruct msg. }
  split; [apply F|]. intros NE. apply F.
  - now apply enforceAlternatingRoles_alternating.
  - apply enforceAlternatingRoles_nonempty.
Qed.

(** ** Canonical form *)

Lemma get_obj_put (o : jobject) (k : string) (v : json) (k' : string) :
  get (obj_put o k v) k' = if String.eqb k' k then v else get o k'.
Proof.
  induction o as [|[k0 v0] o IH]; cbn [obj_put get]; [reflexivity|].
  destruct (String.eqb_spec k k0) as [<-|N].
  - cbn [get]. now destruct (String.eqb k' k).
  - assert (R : get ((k0, v0) :: obj_put o k v) k'
                = if String.eqb k' k then v else get ((k0, v0) :: o) k').
    { cbn [get]. rewrite IH.
      destruct (String.eqb_spec k' k0) as [->|N0];
        destruct (String.eqb_spec k0 k) as [E|N1]; try reflexivity.
      now destruct N. }
    destruct (arrayIndex k) as [i|]; [destruct (arrayIndex k0) as [i0|]|];
      [destruct (i <? i0)%N| |]; try exact R; reflexivity.
Qed.

Lemma keys_obj_put (o : jobject) (k : string) (v : json) (x : string) :
  In x (keys (obj_put o k v)) <-> x = k \/ In x (keys o).
Proof.
  unfold keys. induction o as [|[k0 v0] o IH]; cbn [obj_put List.map fst In].
  - intuition congruence.
  - destruct (String.eqb_spec k k0) as [<-|N].
    + cbn [List.map fst In]. intuition congruence.
    + assert (R : In x (List.map fst ((k0, v0) :: obj_put o k v))
                  <-> x = k \/ k0 = x \/ In x (List.map fst o)).
      { cbn [List.map fst In]. rewrite IH. tauto. }
      destruct (arrayIndex k) as [i|]; [destruct (arrayIndex k0) as [i0|]|];
        [destruct (i <? i0)%N| |]; try exact R;
        cbn [List.map fst In]; intuition congruence.
Qed.

Lemma keys_obj_put_NoDup (o : jobject) (k : string) (v : json) :
  ~ In k (keys o) -> NoDup (keys o) -> NoDup (keys (obj_put o k v)).
Proof.
  unfold keys. induction o as [|[k0 v0] o IH];
    cbn [obj_put List.map fst In]; intros Nin N.
  - repeat constructor. intros [].
  - inversion N as [|? ? Nin0 N0]; subst.
    destruct (String.eqb_spec k k0) as [<-|Nk]; [tauto|].
    assert (R : NoDup (List.map fst ((k0, v0) :: obj_put o k v))).
    { cbn [List.map fst]. constructor; [|apply IH; tauto].
      intros I. apply (keys_obj_put o k v k0) in I. intuition congruence. }
    assert (Q : NoDup (List.map fst ((k, v) :: (k0, v0) :: o))).
    { cbn [List.map fst]. constructor; [|exact N]. cbn [In]. tauto. }
    destruct (arrayIndex k) as [i|]; [destruct (arrayIndex k0) as [i0|]|];
      [destruct (i <? i0)%N| |]; assumption.
Qed.

Lemma assign_fold (vals : jobject) (ks : list string) :
  forall o,
    let R := fold_left (fun sorted key => obj_set sorted key (get vals key))
               ks o in
    (forall x, In x (keys R)
               <-> In x (keys o) \/ (In x ks /\ x <> "__proto__"))
    /\ (forall x, In x ks -> x <> "__proto__" -> get R x = get vals x)
    /\ (forall x, ~ In x ks -> get R x = get o x)
    /\ (NoDup ks -> NoDup (keys o) ->
        (forall x, In x ks -> ~ In x (keys o)) -> NoDup (keys R)).
Proof.
  induction ks as [|k ks IH]; intros o; cbn zeta; cbn [fold_left].
  - split; [|split; [|split]].
    + intros x. cbn [In]. tauto.
    + intros x [].
    + intros x _. reflexivity.
    + intros _ N _. exact N.
  - destruct (IH (obj_set o k (get vals k))) as (M & G1 & G2 & N).
    cbn zeta in M, G1, G2, N. unfold obj_set in *.
    destruct (String.eqb_spec k "__proto__") as [->|Np].
    + split; [|split; [|split]].
      * intros x. rewrite M. cbn [In]. intuition congruence.
      * intros x [<-|I] Nx; [congruence|now apply G1].
      * intros x Nx. apply G2. cbn [In] in Nx. tauto.
      * intros Nk No D. inversion Nk; subst. apply N; try assumption.
        intros x Ix. apply D. now right.
    + split; [|split; [|split]].
      * intros x. rewrite M, keys_obj_put. cbn [In]. intuition congruence.
      * intros x [<-|I] Nx.
        -- destruct (in_dec string_dec k ks) as [I|I]; [now apply G1|].
           rewrite (G2 k I), get_obj_put. now rewrite String.eqb_refl.
        -- now apply G1.
      * intros x Nx. cbn [In] in Nx. rewrite G2 by tauto.
        rewrite get_obj_put.
        destruct (String.eqb_spec x k) as [->|_]; [tauto|reflexivity].
      * intros Nk No D. inversion Nk as [|? ? Nin Nk']; subst. apply N.
        -- exact Nk'.
        -- apply keys_obj_put_NoDup; [|exact No]. apply D. now left.
        -- intros x Ix I. apply keys_obj_put in I as [->|I]; [tauto|].
           apply (D x); [now right|exact I].
Qed.

Lemma assignSorted_keys (vals : jobject) (x : string) :
  In x (keys (assignSorted vals)) <-> In x (keys vals) /\ x <> "__proto__".
Proof.
  unfold assignSorted. destruct (assign_fold vals (sortedKeys vals) [])
    as (M & _). cbn zeta in M. rewrite M. unfold sortedKeys.
  rewrite (sortBy_In codeUnitCompare). cbn. tauto.
Qed.

Lemma assignSorted_get (vals : jobject) (x : string) :
  x <> "__proto__" -> get (assignSorted vals) x = get vals x.
Proof.
  intros Np. unfold assignSorted.
  destruct (assign_fold vals (sortedKeys vals) []) as (_ & G1 & G2 & _).
  cbn zeta in G1, G2.
  destruct (in_dec string_dec x (sortedKeys vals)) as [I|I].
  - now apply G1.
  - rewrite (G2 x I). cbn [get]. symmetry. apply get_notin.
    intros Ik. apply I. unfold sortedKeys.
    now apply (sortBy_In codeUnitCompare).
Qed.

Lemma assignSorted_NoDup (vals : jobject) :
  NoDup (keys vals) -> NoDup (keys (assignSorted vals)).
Proof.
  intros N. unfold assignSorted.
  destruct (assign_fold vals (sortedKeys vals) []) as (_ & _ & _ & D).
  apply D.
  - unfold sortedKeys. eapply Permutation_NoDup; [|exact N].
    symmetry. apply sortBy_perm.
  - constructor.
  - intros x _ [].
Qed.

Lemma sortedKeys_strongly_sorted (l : list string) :
  StronglySorted (fun a b => codeUnitCompare a b <= 0)
    (sortBy codeUnitCompare l).
Proof.
  apply Sorted_StronglySorted.
  - intros a b c. apply codeUnitCompare_trans.
  - apply sortBy_sorted, codeUnitCompare_total.
Qed.

Lemma StronglySorted_filter (X : Type) (R : X -> X -> Prop) (p : X -> bool)
    (l : list X) :
  StronglySorted R l -> StronglySorted R (List.filter p l).
Proof.
  induction 1 as [|x l S IH F]; cbn [List.filter]; [constructor|].
  destruct (p x); [|exact IH]. constructor; [exact IH|].
  apply Forall_forall. intros y Iy. apply filter_In in Iy as [Iy _].
  now apply (proj1 (Forall_forall _ _) F).
Qed.

Lemma filter_perm (X : Type) (p : X -> bool) (l1 l2 : list X) :
  Permutation l1 l2 -> Permutation (List.filter p l1) (List.filter p l2).
Proof.
  induction 1 as [|x l1 l2 P IH|x y l|l1 l2 l3 P1 IH1 P2 IH2];
    cbn [List.filter].
  - constructor.
  - destruct (p x); [now constructor|exact IH].
  - destruct (p x), (p y); try reflexivity. constructor.
  - now transitivity (List.filter p l2).
Qed.

Lemma sortedKeys_filter (p : string -> bool) (l : list string) :
  sortBy codeUnitCompare (List.filter p l)
  = List.filter p (sortBy codeUnitCompare l).
Proof.
  apply sorted_perm_eq with (le := fun a b => codeUnitCompare a b <= 0).
  - apply codeUnitCompare_antisym.
  - apply sortedKeys_strongly_sorted.
  - apply StronglySorted_filter, sortedKeys_strongly_sorted.
  - eapply Permutation_trans; [apply sortBy_perm|].
    apply filter_perm. symmetry. apply sortBy_perm.
Qed.

Lemma fold_left_filter_skipped (X Y : Type) (f : X -> Y -> X) (p : Y -> bool)
    (l : list Y) :
  (forall a y, p y = false -> f a y = a) ->
  forall a, fold_left f (List.filter p l) a = fold_left f l a.
Proof.
  intros S. induction l as [|y l IH]; intros a; [reflexivity|].
  cbn [List.filter fold_left]. destruct (p y) eqn:E.
  - cbn [fold_left]. apply IH.
  - rewrite (S a y E). apply IH.
Qed.

Lemma assignSorted_idempotent (vals : jobject) :
  NoDup (keys vals) -> assignSorted (assignSorted vals) = assignSorted vals.
Proof.
  intros N. set (R := assignSorted vals).
  set (np := fun k => negb (String.eqb k "__proto__")).
  assert (P : Permutation (keys R) (List.filter np (keys vals))).
  { apply NoDup_Permutation.
    - now apply assignSorted_NoDup.
    - now apply NoDup_filter.
    - intros x. unfold R. rewrite assignSorted_keys, filter_In. unfold np.
      destruct (String.eqb_spec x "__proto__"); cbn [negb];
        intuition congruence. }
  unfold assignSorted at 1. unfold sortedKeys.
  rewrite (sortedKeys_perm P), sortedKeys_filter.
  rewrite (@fold_left_ext_in _ _ _
             (fun sorted key => obj_set sorted key (get vals key))).
  - rewrite fold_left_filter_skipped; [reflexivity|].
    intros a y E. unfold obj_set. unfold np in E.
    destruct (String.eqb y "__proto__"); [reflexivity|discriminate].
  - intros sorted key I. apply filter_In in I as [_ E]. unfold np in E.
    unfold R. rewrite assignSorted_get; [reflexivity|].
    intros ->. discriminate.
Qed.

Lemma In_get (o : jobject) (k : string) (v : json) :
  NoDup (keys o) -> In (k, v) o -> get o k = v.
Proof.
  unfold keys. induction o as [|[k0 v0] o IH]; cbn [List.map fst get In];
    intros N I; [destruct I|].
  inversion N as [|? ? Nin N']; subst.
  destruct I as [E|I].
  - injection E as -> ->. now rewrite String.eqb_refl.
  - destruct (String.eqb_spec k k0) as [->|_]; [|now apply IH].
    destruct Nin. apply in_map_iff. now exists (k0, v).
Qed.

Lemma map_values_fixed (f : json -> json) (o : jobject) :
  (forall k v, In (k, v) o -> f v = v) ->
  List.map (fun kv => (fst kv, f (snd kv))) o = o.
Proof.
  induction o as [|[k v] o IH]; intros F; [reflexivity|].
  cbn [List.map fst snd]. rewrite (F k v) by now left.
  rewrite IH; [reflexivity|]. intros k' v' I. apply (F k' v'). now right.
Qed.

Lemma sortNested_idempotent (v : json) :
  uniqueKeys v -> sortNested (sortNested v) = sortNested v.
Proof.
  induction 1 as [o N U IH|v Nobj].
  - cbn [sortNested]. f_equal.
    set (vals := List.map (fun kv => (fst kv, sortNested (snd kv))) o).
    assert (Nv : NoDup (keys vals))
      by (unfold vals; now rewrite keys_map_values).
    rewrite map_values_fixed; [now apply assignSorted_idempotent|].
    intros k w I.
    assert (Ik : In k (keys (assignSorted vals))).
    { unfold keys. apply in_map_iff. now exists (k, w). }
    apply (@In_get _ _ _ (@assignSorted_NoDup _ Nv)) in I.
    apply assignSorted_keys in Ik as [Ik Np].
    rewrite assignSorted_get in I by exact Np. subst w.
    unfold vals. rewrite get_map_values by reflexivity.
    apply IH. unfold vals in Ik. now rewrite keys_map_values in Ik.
  - destruct v; try reflexivity. now destruct (Nobj kvs).
Qed.

(** X28.  [sortObjectKeys] is idempotent on the values of JavaScript
    (objects own each key once): sorting a sorted object again returns
    it unchanged, at every level reached through objects. *)
Theorem sortObjectKeys_idempotent (o : jobject) :
  uniqueKeys (JObj o) ->
  sortObjectKeys (sortObjectKeys o) = sortObjectKeys o.
Proof.
  intros U. apply sortNested_idempotent in U. cbn [sortNested] in U.
  injection U as U. exact U.
Qed.

Lemma sortObjectKeys_idempotent_witness :
  uniqueKeys (JObj nestedObject)
  /\ sortObjectKeys (sortObjectKeys nestedObject) = sortObjectKeys nestedObject.
Proof.
  assert (U : uniqueKeys (JObj nestedObject)).
  { unfold nestedObject.
    repeat first
      [ apply uk_other; intros o; discriminate
      | apply uk_object;
        [ repeat constructor; cbn; intuition discriminate
        | cbn [keys List.map fst]; intros k I;
          repeat (destruct I as [<-|I]; [cbn|]); [..|destruct I] ] ]. }
  split; [exact U|]. exact (sortObjectKeys_idempotent U).
Defined.

Lemma sortObjectKeys_get (o : jobject) (k : string) :
  k <> "__proto__" -> get (sortObjectKeys o) k = sortNested (get o k).
Proof.
  intros Np. unfold sortObjectKeys. rewrite assignSorted_get by exact Np.
  now apply get_map_values.
Qed.

(** X29.  [sortObjectKeys] keeps every property under its key, with the
    value sorted in the same way when it is an object and unchanged
    otherwise.  The result owns the keys of the argument; a key
    [__proto__] is lost, because assigning to it sets no own property. *)
Theorem sortObjectKeys_keeps_properties (o : jobject) (k : string) :
  (k <> "__proto__" -> get (sortObjectKeys o) k = sortNested (get o k))
  /\ (In k (keys (sortObjectKeys o)) <-> In k (keys o) /\ k <> "__proto__").
Proof.
  split; [apply sortObjectKeys_get|].
  unfold sortObjectKeys. rewrite assignSorted_keys.
  now rewrite keys_map_values.
Qed.

Lemma uniqueKeys_prop (p : json) (k : string) (v : json) :
  uniqueKeys p -> prop p k = Ok v -> uniqueKeys v.
Proof.
  intros U E. destruct U as [o N U|p Nobj].
  - cbn [prop] in E. injection E as <-.
    destruct (in_dec string_dec k (keys o)) as [I|I]; [now apply U|].
    rewrite get_notin by exact I. apply uk_other. discriminate.
  - destruct p; cbn [prop] in E; try discriminate; injection E as <-;
      try (apply uk_other; discriminate).
    now destruct (Nobj kvs).
Qed.

Lemma uniqueKeys_nullish (a d : json) :
  uniqueKeys a -> uniqueKeys d -> uniqueKeys (nullish a d).
Proof. intros Ua Ud. now destruct a. Qed.

Lemma nullish_sortNested (c d : json) :
  sortNested d = d ->
  nullish (sortNested (nullish c d)) d = sortNested (nullish c d).
Proof.
  intros D. destruct c; cbn [nullish sortNested]; rewrite ?D;
    try reflexivity; now destruct d.
Qed.

Lemma sortObjectKeys_sorted_values (o : jobject) :
  (forall k v, In (k, v) o -> uniqueKeys v) ->
  sortObjectKeys (List.map (fun kv => (fst kv, sortNested (snd kv))) o)
  = sortObjectKeys o.
Proof.
  intros U. unfold sortObjectKeys. f_equal. rewrite map_map. cbn [fst snd].
  apply map_ext_in. intros [k v] I. cbn [fst snd]. f_equal.
  apply sortNested_idempotent. now apply (U k v).
Qed.

Lemma canonicalize_fixed (c : BlockCodec) (p p' : json) :
  In c modelledCodecs ->
  uniqueKeys p ->
  canonicalize c p = Ok p' ->
  canonicalize c p' = Ok p'.
Proof.
  intros [<-|[<-|[<-|[]]]] U E; cbn [canonicalize RedactedStubCodec
    ConversationHistoryCodec ToolOutputCodec] in *.
  - destruct (prop p "originalBlockHash") as [a|] eqn:Ea; [|discriminate].
    cbn [bind] in E.
    destruct (prop p "reason") as [b|] eqn:Eb; [|discriminate].
    cbn [bind] in E.
    destruct (prop p "placeholder") as [ph|] eqn:Ec; [|discriminate].
    cbn [bind] in E. injection E as <-. cbn [prop bind].
    rewrite !sortObjectKeys_get by discriminate. cbn [get String.eqb
      Ascii.eqb Bool.eqb]. cbn [bind].
    rewrite (@nullish_sortNested ph (JStr "[REDACTED]") eq_refl).
    do 2 f_equal.
    apply (sortObjectKeys_sorted_values
             [ ("originalBlockHash", a); ("reason", b);
               ("placeholder", nullish ph (JStr "[REDACTED]")) ]).
    intros k v [I|[I|[I|[]]]]; injection I as <- <-.
    + exact (uniqueKeys_prop _ U Ea).
    + exact (uniqueKeys_prop _ U Eb).
    + apply uniqueKeys_nullish; [exact (uniqueKeys_prop _ U Ec)|].
      apply uk_other. discriminate.
  - destruct (prop p "messages") as [ms|] eqn:Em; [|discriminate].
    cbn [bind] in E.
    destruct (asArray ms) as [msgs|] eqn:Ea; [|discriminate].
    cbn [bind] in E.
    match type of E with
    | bind (mapM ?f msgs) _ = _ =>
        destruct (mapM f msgs) as [canon|] eqn:Ec; [|discriminate]
    end.
    cbn [bind] in E.
    destruct (prop p "summary") as [s|] eqn:Es; [|discriminate].
    cbn [bind] in E. injection E as <-. cbn [prop bind].
    rewrite !sortObjectKeys_get by discriminate. cbn [get String.eqb
      Ascii.eqb Bool.eqb]. cbn [sortNested asArray bind].
    rewrite mapM_id_on.
    + cbn [bind]. rewrite (@nullish_sortNested s JNull eq_refl).
      do 2 f_equal.
      apply (sortObjectKeys_sorted_values
               [ ("messages", JArr canon); ("summary", nullish s JNull) ]).
      intros k v [I|[I|[]]]; injection I as <- <-.
      * apply uk_other. discriminate.
      * apply uniqueKeys_nullish; [exact (uniqueKeys_prop _ U Es)|].
        apply uk_other. discriminate.
    + intros m Im. apply mapM_Forall2 in Ec.
      destruct (@Forall2_In_r _ _ _ _ _ _ Ec Im) as (m0 & _ & R).
      destruct (prop m0 "role") as [r|]; [|discriminate]. cbn [bind] in R.
      destruct (prop m0 "content") as [ct|]; [|discriminate].
      cbn [bind] in R. injection R as <-. reflexivity.
  - destruct (prop p "toolName") as [a|] eqn:Ea; [|discriminate].
    cbn [bind] in E.
    destruct (prop p "toolCallId") as [b|] eqn:Eb; [|discriminate].
    cbn [bind] in E.
    destruct (prop p "output") as [out|] eqn:Ec; [|discriminate].
    cbn [bind] in E. injection E as <-. cbn [prop bind].
    rewrite !sortObjectKeys_get by discriminate. cbn [get String.eqb
      Ascii.eqb Bool.eqb]. cbn [bind].
    do 2 f_equal.
    apply (sortObjectKeys_sorted_values
             [ ("toolName", a); ("toolCallId", b); ("output", out) ]).
    intros k v [I|[I|[I|[]]]]; injection I as <- <-.
    + exact (uniqueKeys_prop _ U Ea).
    + exact (uniqueKeys_prop _ U Eb).
    + exact (uniqueKeys_prop _ U Ec).
Qed.


(** X30.  The canonical form of a payload is a fixed point of
    [canonicalize], for the codecs redacted-stub, conversation-history
    and tool-output and payloads that are values of JavaScript:
    canonicalizing a canonical payload returns it unchanged, and the
    block hash computed from the canonical payload is the block hash
    computed from the payload. *)
Theorem canonicalize_idempotent `{Host} (c : BlockCodec) (p p' : json)
    (m : BlockMeta) :
  In c modelledCodecs ->
  uniqueKeys p ->
  canonicalize c p = Ok p' ->
  canonicalize c p' = Ok p'
  /\ computeBlockHash (FullMeta m) p' (Some c)
     = computeBlockHash (FullMeta m) p (Some c).
Proof.
  intros I U E. assert (F := canonicalize_fixed I U E).
  split; [exact F|].
  unfold computeBlockHash, hashedObject. now rewrite E, F.
Qed.

Lemma canonicalize_idempotent_witness :
  uniqueKeys stubPayload
  /\ exists p',
       canonicalize RedactedStubCodec stubPayload = Ok p'
       /\ canonicalize RedactedStubCodec p' = Ok p'
       /\ computeBlockHash (H := NodeHost)
            (FullMeta (sampleMeta pinned public)) p' (Some RedactedStubCodec)
          = computeBlockHash (H := NodeHost)
              (FullMeta (sampleMeta pinned public)) stubPayload
              (Some RedactedStubCodec).
Proof.
  assert (U : uniqueKeys stubPayload).
  { unfold stubPayload.
    repeat first
      [ apply uk_other; intros o; discriminate
      | apply uk_object;
        [ repeat constructor; cbn; intuition discriminate
        | cbn [keys List.map fst]; intros k I;
          repeat (destruct I as [<-|I]; [cbn|]); [..|destruct I] ] ]. }
  split; [exact U|]. eexists. split; [reflexivity|].
  apply (@canonicalize_idempotent NodeHost RedactedStubCodec stubPayload).
  - now left.
  - exact U.
  - reflexivity.
Defined.
